(** * mysql2-db: a shallow embedding of [src/db.js]

    The library stages SQL statements ([DbStage]), parses their placeholders
    ([parseSql]), validates their parameters ([doAction]) and, on [finale],
    runs them one after the other on a single pooled connection ([doFinale]).

    The embedding follows the source function by function.  JavaScript
    values are a small tagged union, the driver ([mysql2]) is a record of
    deterministic transitions on an abstract database state, and every
    call made to the driver is appended to a trace, so that statements such
    as "the connection is released" or "no pool is contacted" are
    statements about that trace.  One finalization's callback chain is run to
    its end as one function: [process.nextTick] only defers the next link of
    the chain, and the interleaving of several chains is not modelled. *)

From Stdlib Require Import List String Ascii ZArith QArith Bool Arith Lia DecimalString.
Import ListNotations.
Local Close Scope Q_scope.
Local Open Scope string_scope.
Local Open Scope list_scope.

Set Implicit Arguments.
Set Warnings "-register-all".

(** ** JavaScript values *)

(** A JavaScript number: the two non-finite kinds, or a finite value kept as
    the rational it denotes. *)
Inductive number : Type :=
| NaN
| Infinity (negative : bool)
| Fin (q : Q).

(** Objects keep their properties in insertion order, which is the order
    [for (p in o)] visits them. *)
Inductive Value : Type :=
| VUndef
| VNull
| VBool (b : bool)
| VNum (n : number)
| VStr (s : string)
| VArr (xs : list Value)
| VObj (props : list (string * Value)).

Definition num_of_Z (z : Z) : Value := VNum (Fin (inject_Z z)).
Definition num_of_nat (n : nat) : Value := num_of_Z (Z.of_nat n).

(** [Number.isNaN] and [Number.isInteger]. *)
Definition isNaN (n : number) : bool :=
  match n with NaN => true | _ => false end.

Definition isInteger (n : number) : bool :=
  match n with
  | Fin q => (Qnum q mod Zpos (Qden q) =? 0)%Z
  | _ => false
  end.

(** [typeof v]. *)
Definition typeof (v : Value) : string :=
  match v with
  | VUndef => "undefined"
  | VNull => "object"
  | VBool _ => "boolean"
  | VNum _ => "number"
  | VStr _ => "string"
  | VArr _ => "object"
  | VObj _ => "object"
  end.

Definition isArray (v : Value) : bool :=
  match v with VArr _ => true | _ => false end.

(** [v === null || v === undefined], which is also [v == null]. *)
Definition is_nullish (v : Value) : bool :=
  match v with VUndef | VNull => true | _ => false end.

(** The truth value of [v] in a condition: [if (v)], [!v], [v ? a : b]. *)
Definition truthy (v : Value) : bool :=
  match v with
  | VUndef | VNull => false
  | VBool b => b
  | VNum NaN => false
  | VNum (Infinity _) => true
  | VNum (Fin q) => negb (Qnum q =? 0)%Z
  | VStr s => negb (s =? "")
  | VArr _ | VObj _ => true
  end.

Fixpoint assoc (k : string) (ps : list (string * Value)) : option Value :=
  match ps with
  | [] => None
  | (k', v) :: rest => if k' =? k then Some v else assoc k rest
  end.

Definition string_of_nat (n : nat) : string :=
  NilEmpty.string_of_uint (Nat.to_uint n).

Definition is_digit (c : ascii) : bool :=
  let n := nat_of_ascii c in (48 <=? n)%nat && (n <=? 57)%nat.

Definition is_upper (c : ascii) : bool :=
  let n := nat_of_ascii c in (65 <=? n)%nat && (n <=? 90)%nat.

Definition is_lower (c : ascii) : bool :=
  let n := nat_of_ascii c in (97 <=? n)%nat && (n <=? 122)%nat.

(** The character class [[a-zA-Z0-9_]]. *)
Definition is_ident (c : ascii) : bool :=
  is_lower c || is_upper c || is_digit c || Ascii.eqb c "_".

Definition digit_val (c : ascii) : nat := nat_of_ascii c - 48.

(** The value of a run of decimal digits, most significant first. *)
Definition decimal_value (ds : list ascii) : nat :=
  fold_left (fun acc c => 10 * acc + digit_val c) ds 0.

(** A property name that is an array index: the decimal numeral of a natural
    number, in the form [string_of_nat] prints it. *)
Definition array_index (k : string) : option nat :=
  let ds := list_ascii_of_string k in
  match ds with
  | [] => None
  | _ =>
    if forallb is_digit ds && (string_of_nat (decimal_value ds) =? k)
    then Some (decimal_value ds) else None
  end.

Definition chars (s : string) : list Value :=
  map (fun c => VStr (String c EmptyString)) (list_ascii_of_string s).

(** [v[k]] for a property name [k].  Own properties, the elements of arrays
    and strings and their [length] are modelled; properties inherited from
    the prototypes (methods) are not.  Reading a property of [undefined] or
    [null] throws in JavaScript; the callers below never do it. *)
Definition get_prop (v : Value) (k : string) : Value :=
  match v with
  | VObj ps => match assoc k ps with Some x => x | None => VUndef end
  | VArr xs =>
    if k =? "length" then num_of_nat (List.length xs)
    else match array_index k with
         | Some i => nth i xs VUndef
         | None => VUndef
         end
  | VStr s =>
    if k =? "length" then num_of_nat (String.length s)
    else match array_index k with
         | Some i => nth i (chars s) VUndef
         | None => VUndef
         end
  | _ => VUndef
  end.

(** [v[i]] for a number [i] that is a natural number. *)
Definition get_index (v : Value) (i : nat) : Value :=
  match v with
  | VArr xs => nth i xs VUndef
  | VStr s => nth i (chars s) VUndef
  | VObj ps => match assoc (string_of_nat i) ps with Some x => x | None => VUndef end
  | _ => VUndef
  end.

Fixpoint indexed (i : nat) (xs : list Value) : list (string * Value) :=
  match xs with
  | [] => []
  | x :: rest => (string_of_nat i, x) :: indexed (S i) rest
  end.

(** The properties [for (p in v)] enumerates, with their values, in order. *)
Definition enumerate (v : Value) : list (string * Value) :=
  match v with
  | VObj ps => ps
  | VArr xs => indexed 0 xs
  | VStr s => indexed 0 (chars s)
  | _ => []
  end.

(** [JSON.parse(JSON.stringify(v))] on a value that is not [undefined]:
    non-finite numbers become [null], [undefined] becomes [null] inside an
    array and drops the property inside an object. *)
Fixpoint jsonClone (v : Value) : Value :=
  match v with
  | VUndef => VNull
  | VNum NaN | VNum (Infinity _) => VNull
  | VArr xs => VArr (map jsonClone xs)
  | VObj ps =>
    VObj ((fix props (ps : list (string * Value)) : list (string * Value) :=
             match ps with
             | [] => []
             | (k, VUndef) :: rest => props rest
             | (k, x) :: rest => (k, jsonClone x) :: props rest
             end) ps)
  | _ => v
  end.

(** ** Errors *)

(** One constructor per [throw new Error(...)] of the source, by the place
    that raises it, plus the errors that come from outside the library. *)
Inductive Error : Type :=
| ErrMissingOpcode
| ErrBlankSql
| ErrSqlNotString
| ErrMixedStyles (sql : string)
| ErrPositionalShape (sql : string)
| ErrNamedShape (sql : string)
| ErrNullParam
| ErrParse
| ErrClosing
| ErrNoConfig
| ErrNoOps
| ErrNoCallback
| ErrAlreadyFinalized
| ErrNullDbConfig
| ErrNullPool
| ErrParamLengths
| ErrParamType
| ErrDriver (msg : string)
| TypeError (msg : string).

(** The source throws plain [Error]s, told apart by their messages only; the
    specification (section 7) sorts them into these classes. *)
Inductive ErrorClass : Type :=
| UsageError | ConfigError | DriverError | ShutdownError | InternalError.

Definition error_class (e : Error) : ErrorClass :=
  match e with
  | ErrMissingOpcode | ErrBlankSql | ErrSqlNotString | ErrMixedStyles _
  | ErrPositionalShape _ | ErrNamedShape _ | ErrNullParam
  | ErrAlreadyFinalized | ErrNoCallback => UsageError
  | ErrNoConfig | ErrNullDbConfig => ConfigError
  | ErrNullPool | ErrDriver _ => DriverError
  | ErrClosing => ShutdownError
  | ErrParse | ErrNoOps | ErrParamLengths | ErrParamType | TypeError _ => InternalError
  end.

(** The result of a call that may throw. *)
Inductive Res (A : Type) : Type :=
| Ok (a : A)
| Throw (e : Error).
Arguments Throw {A} e.

(** ** The placeholder parser *)

(** What the regular expression [/(:[a-zA-Z0-9_]+)|(\?)|(\$[0-9]+)/g] makes of
    a text: the characters it skips and the substrings it matches. *)
Inductive Piece : Type :=
| Lit (c : ascii)
| Match (m : string).

Fixpoint take_while (p : ascii -> bool) (s : list ascii) : list ascii :=
  match s with
  | c :: rest => if p c then c :: take_while p rest else []
  | [] => []
  end.

Fixpoint drop_while (p : ascii -> bool) (s : list ascii) : list ascii :=
  match s with
  | c :: rest => if p c then drop_while p rest else s
  | [] => []
  end.

(** The scan of the regular expression, left to right.  At a position where
    no alternative matches the scan moves on by one character; after a
    match it resumes behind it, [skip] counting the characters of the match
    that are still to be passed. *)
Fixpoint scan (skip : nat) (s : list ascii) : list Piece :=
  match s with
  | [] => []
  | c :: rest =>
    match skip with
    | S k => scan k rest
    | O =>
      if Ascii.eqb c ":" then
        match take_while is_ident rest with
        | [] => Lit c :: scan 0 rest
        | name => Match (string_of_list_ascii (c :: name)) :: scan (List.length name) rest
        end
      else if Ascii.eqb c "?" then Match "?" :: scan 0 rest
      else if Ascii.eqb c "$" then
        match take_while is_digit rest with
        | [] => Lit c :: scan 0 rest
        | ds => Match (string_of_list_ascii (c :: ds)) :: scan (List.length ds) rest
        end
      else Lit c :: scan 0 rest
    end
  end.

Definition pieces (sql : string) : list Piece :=
  scan 0 (list_ascii_of_string sql).

Fixpoint matches_of (ps : list Piece) : list string :=
  match ps with
  | [] => []
  | Lit _ :: rest => matches_of rest
  | Match m :: rest => m :: matches_of rest
  end.

(** [sql.match(re)]: the matched substrings in order, [null] when there is
    none. *)
Definition sql_match (sql : string) : option (list string) :=
  match matches_of (pieces sql) with
  | [] => None
  | ms => Some ms
  end.

Fixpoint render (rep : string) (ps : list Piece) : string :=
  match ps with
  | [] => ""
  | Lit c :: rest => String c (render rep rest)
  | Match _ :: rest => rep ++ render rep rest
  end.

(** [sql.replace(re, rep)]. *)
Definition sql_replace (sql : string) (rep : string) : string :=
  render rep (pieces sql).

(** A parameter reference: the name of a [:name] token, or a number, which
    is the loop index for a [?] token and [parseInt] of the digits for a
    [$digits] token. *)
Inductive Ref : Type :=
| RName (s : string)
| RIndex (n : nat)
| RNaN.

Definition charAt0 (s : string) : string := substring 0 1 s.
Definition substring1 (s : string) : string := substring 1 (String.length s - 1) s.

(** [parseInt(s, 10)] on a text without sign or leading blanks: the value of
    its leading digits, [NaN] when it has none. *)
Definition parseInt10 (s : string) : Ref :=
  match take_while is_digit (list_ascii_of_string s) with
  | [] => RNaN
  | ds => RIndex (decimal_value ds)
  end.

Record Parsed : Type := mkParsed {
  p_rawSql : string;
  p_sql : string;
  p_paramRefs : list Ref;
  p_paramTypes : list string;
  p_bindStyles : list string
}.

(** The loop of [parseSql] from index [i] on: the references, the type tags
    and the keys set in [bindStyles], each in the order they are pushed. *)
Fixpoint parseMatches (i : nat) (matches : list string)
  : Res (list Ref * list string * list string) :=
  match matches with
  | [] => Ok ([], [], [])
  | m :: rest =>
    let mtype := charAt0 m in
    let mref :=
      if mtype =? ":" then Ok (RName (substring1 m))
      else if mtype =? "$" then Ok (parseInt10 (substring1 m))
      else if mtype =? "?" then Ok (RIndex i)
      else Throw ErrParse in
    match mref with
    | Throw e => Throw e
    | Ok r =>
      match parseMatches (S i) rest with
      | Throw e => Throw e
      | Ok (refs, types, styles) => Ok (r :: refs, mtype :: types, mtype :: styles)
      end
    end
  end.

Definition parseSql (sql : string) : Res Parsed :=
  let matches := match sql_match sql with None => [] | Some ms => ms end in
  match parseMatches 0 matches with
  | Throw e => Throw e
  | Ok (refs, types, styles) =>
    Ok {| p_rawSql := sql;
          p_sql := sql_replace sql "?";
          p_paramRefs := refs;
          p_paramTypes := types;
          p_bindStyles := styles |}
  end.

(** [bindStyles[k]], as a condition. *)
Definition has_style (styles : list string) (k : string) : bool :=
  existsb (String.eqb k) styles.

(** ** Operations: [doAction] *)

Inductive Opcode : Type := OpE | OpQ | OpQI | OpQF | OpQS.

(** The values of [computeParamShape]: [false], ["scalar"], ["object"],
    ["array"], ["array.array"] and ["array.object"]. *)
Inductive Shape : Type :=
| ShFalse | ShScalar | ShObject | ShArray | ShArrayArray | ShArrayObject.

Record Op : Type := mkOp {
  rawSql : string;
  sql : string;
  paramRefs : list Ref;
  paramTypes : list string;
  bindStyles : list string;
  opcode : Opcode;
  dflt : Value;
  paramVals : Value;
  paramShape : Shape;
  isMulti : bool
}.

Definition computeParamShape (params : Value) : Shape :=
  if is_nullish params then ShFalse
  else match params with
       | VArr [] => ShArray
       | VArr (p0 :: _) =>
         if is_nullish p0 then ShArray
         else if isArray p0 then ShArrayArray
         else if typeof p0 =? "object" then ShArrayObject
         else ShArray
       | VObj _ => ShObject
       | _ => ShScalar
       end.

Definition is_positional_shape (s : Shape) : bool :=
  match s with ShArray | ShArrayArray => true | _ => false end.

Definition is_named_shape (s : Shape) : bool :=
  match s with ShObject | ShArrayObject => true | _ => false end.

Definition is_multi_shape (s : Shape) : bool :=
  match s with ShArrayArray | ShArrayObject => true | _ => false end.

Definition null_prop (kv : string * Value) : bool := is_nullish (snd kv).

(** The body of [params.forEach((param) => ...)]: does it throw? *)
Definition null_in_element (param : Value) : bool :=
  if is_nullish param then true
  else match param with
       | VArr ps => existsb is_nullish ps
       | VObj props => existsb null_prop props
       | _ => false
       end.

(** The null check that ends [doAction]: does it throw? *)
Definition has_null_param (params : Value) : bool :=
  if is_nullish params then false
  else match params with
       | VArr xs => existsb null_in_element xs
       | VObj props => existsb null_prop props
       | _ => false
       end.

(** [doAction(opcode, sql, params, dflt)].  The five callers pass a literal
    opcode, so the guard on a missing opcode cannot fire and the opcode is
    typed. *)
Definition doAction (opcode : Opcode) (sql params dflt : Value) : Res Op :=
  let params := jsonClone (if truthy params then params else VNull) in
  if negb (truthy sql) then Throw ErrBlankSql
  else match sql with
  | VStr sql =>
    match parseSql sql with
    | Throw e => Throw e
    | Ok p =>
      let shape := computeParamShape params in
      let styles := p_bindStyles p in
      if has_style styles ":" && has_style styles "?" then
        Throw (ErrMixedStyles sql)
      else if has_style styles "?" && negb (is_positional_shape shape) then
        Throw (ErrPositionalShape sql)
      else if has_style styles ":" && negb (is_named_shape shape) then
        Throw (ErrNamedShape sql)
      else if has_null_param params then Throw ErrNullParam
      else Ok {| rawSql := p_rawSql p;
                 sql := p_sql p;
                 paramRefs := p_paramRefs p;
                 paramTypes := p_paramTypes p;
                 bindStyles := styles;
                 opcode := opcode;
                 dflt := dflt;
                 paramVals := params;
                 paramShape := shape;
                 isMulti := is_multi_shape shape |}
    end
  | _ => Throw ErrSqlNotString
  end.

(** ** Binding: [makeArgs] *)

(** [v[r]] for a reference [r]. *)
Definition get_ref (v : Value) (r : Ref) : Value :=
  match r with
  | RName s => get_prop v s
  | RIndex n => get_index v n
  | RNaN => get_prop v "NaN"
  end.

Fixpoint bindArgs (refs : list Ref) (types : list string)
    (explicitParams : Value) (prior : list Value) : Res (list Value) :=
  match refs, types with
  | r :: refs', t :: types' =>
    let paramVal :=
      if t =? ":" then Ok (get_ref explicitParams r)
      else if t =? "$" then Ok (get_ref (VArr prior) r)
      else if t =? "?" then Ok (get_ref explicitParams r)
      else Throw ErrParamType in
    match paramVal with
    | Throw e => Throw e
    | Ok v =>
      match bindArgs refs' types' explicitParams prior with
      | Throw e => Throw e
      | Ok vs => Ok (v :: vs)
      end
    end
  | _, _ => Ok []
  end.

Definition makeArgs (paramRefs : list Ref) (paramTypes : list string)
    (explicitParams : Value) (paramsFromPriorResults : list Value)
  : Res (list Value) :=
  if negb (List.length paramRefs =? List.length paramTypes)%nat
  then Throw ErrParamLengths
  else
    let explicitParams :=
      if is_nullish explicitParams then VArr [] else explicitParams in
    bindArgs paramRefs paramTypes explicitParams paramsFromPriorResults.

(** ** The driver and the world *)

Definition Pool := nat.
Definition Conn := nat.

(** What [conn.execute] hands to its callback as the result: nothing, the
    header of a statement that returns no rows, or an array of rows. *)
Inductive RawResult : Type :=
| RUndef
| RHeader (affectedRows : Z)
| RRows (rows : list Value).

(** The calls made to the driver, each with what the driver answered, and
    the lines echoed to the console. *)
Inductive Event : Type :=
| EvCreatePool (cfg : Value) (r : Res (option Pool))
| EvGetConnection (p : Pool) (err : option Error) (conn : option Conn)
| EvExecute (c : Conn) (sql : string) (args : list Value)
            (err : option Error) (result : RawResult)
| EvBegin (c : Conn) (err : option Error)
| EvCommit (c : Conn) (err : option Error)
| EvRollback (c : Conn) (err : option Error)
| EvRelease (c : Conn) (err : option Error)
| EvEnd (p : Pool)
| EvLog (verb : string) (sql : string) (args : list Value).

(** The collaborator: each method maps the database state to what it passes
    to its callback (or throws, for [createPool]) and the next state. *)
Record Driver (DB : Type) : Type := mkDriver {
  createPool : Value -> DB -> Res (option Pool) * DB;
  getConnection : Pool -> DB -> (option Error * option Conn) * DB;
  execute : Conn -> string -> list Value -> DB -> (option Error * RawResult) * DB;
  beginTransaction : Conn -> DB -> option Error * DB;
  commit : Conn -> DB -> option Error * DB;
  rollback : Conn -> DB -> option Error * DB;
  release : Conn -> DB -> option Error * DB;
  poolEnd : Pool -> DB -> DB
}.

(** The built-in functions whose results the library only passes on. *)
Record Runtime : Type := mkRuntime {
  parseFloat : string -> number;
  toText : Value -> string;
  stringify : Value -> string
}.

(** A [DbStage]: its configuration and its [ops] array, which carries the
    [finaleComplete] property. *)
Record Stage : Type := mkStage {
  st_cfg : Value;
  st_ops : list Op;
  st_finaleComplete : bool
}.

Definition StageRef := nat.

(** A callback argument: a function, or some other value. *)
Inductive Callback : Type :=
| CbFunction
| CbValue (v : Value).

(** What the callback of [finale] is called with: [cb(err, rv)]. *)
Inductive Outcome : Type :=
| Delivered (err : option Error) (rv : Value).

Definition not_a_function : Error := TypeError "cb is not a function".

Section Model.

Variable DB : Type.
Variable drv : Driver DB.
Variable rt : Runtime.

(** The state of the process: the stages that exist, [POOL_FUNCTIONS]
    ([_pools] in insertion order, [_closing]), the database, and the trace. *)
Record World : Type := mkWorld {
  w_stages : list Stage;
  w_pools : list (string * option Pool);
  w_closing : bool;
  w_db : DB;
  w_trace : list Event
}.

(** A computation on the world that returns, or ends in an exception that
    nothing catches.  The world it leaves is kept in both cases. *)
Definition M (A : Type) : Type := World -> Res A * World.

Definition ret {A} (a : A) : M A := fun w => (Ok a, w).
Definition throw {A} (e : Error) : M A := fun w => (Throw e, w).
Definition bind {A B} (m : M A) (k : A -> M B) : M B :=
  fun w => match m w with
           | (Ok a, w') => k a w'
           | (Throw e, w') => (Throw e, w')
           end.

Notation "x <- m ;; k" := (bind m (fun x => k))
  (at level 61, m at next level, right associativity).
Notation "m ;;; k" := (bind m (fun _ => k))
  (at level 61, right associativity).

Definition emit (ev : Event) : M unit :=
  fun w => (Ok tt, mkWorld (w_stages w) (w_pools w) (w_closing w) (w_db w)
                           (w_trace w ++ [ev])).

(** A call to the driver: take the driver's transition and log the call
    with its answer. *)
Definition call {A} (ev : A -> Event) (f : DB -> A * DB) : M A :=
  fun w => let '(a, db') := f (w_db w) in
           (Ok a, mkWorld (w_stages w) (w_pools w) (w_closing w) db'
                          (w_trace w ++ [ev a])).

Definition set_db_pools (pools : list (string * option Pool)) : M unit :=
  fun w => (Ok tt, mkWorld (w_stages w) pools (w_closing w) (w_db w) (w_trace w)).

Definition set_closing (b : bool) : M unit :=
  fun w => (Ok tt, mkWorld (w_stages w) (w_pools w) b (w_db w) (w_trace w)).

Definition set_stages (sts : list Stage) : M unit :=
  fun w => (Ok tt, mkWorld sts (w_pools w) (w_closing w) (w_db w) (w_trace w)).

Definition world : M World := fun w => (Ok w, w).

(** ** [POOL_FUNCTIONS] *)

(** [_pools[key]], when it is there and truthy. *)
Fixpoint lookup_pool (key : string) (pools : list (string * option Pool))
  : option Pool :=
  match pools with
  | [] => None
  | (k, p) :: rest => if k =? key then p else lookup_pool key rest
  end.

(** [_pools[key] = pool]. *)
Fixpoint store_pool (key : string) (pool : option Pool)
    (pools : list (string * option Pool)) : list (string * option Pool) :=
  match pools with
  | [] => [(key, pool)]
  | (k, p) :: rest =>
    if k =? key then (k, pool) :: rest else (k, p) :: store_pool key pool rest
  end.

Definition pool_key (dbcfg : Value) : string :=
  match dbcfg with
  | VStr s => s
  | _ => stringify rt dbcfg
  end.

(** [getPool(dbcfg, callback)]: the arguments of [callback(err, pool)]. *)
Definition getPool (dbcfg : Value) : M (option Error * option Pool) :=
  if negb (truthy dbcfg) then ret (Some ErrNullDbConfig, None)
  else
    w <- world ;;
    match lookup_pool (pool_key dbcfg) (w_pools w) with
    | Some pool => ret (None, Some pool)
    | None =>
      r <- call (EvCreatePool dbcfg) (createPool drv dbcfg) ;;
      match r with
      | Throw err => ret (Some err, None)
      | Ok pool =>
        set_db_pools (store_pool (pool_key dbcfg) pool (w_pools w)) ;;;
        ret (None, pool)
      end
    end.

Definition isClosing : M bool := fun w => (Ok (w_closing w), w).

(** [closeNextPool], on what is left of [poolsToClose], last pushed first. *)
Fixpoint closeNextPool (callback : Callback) (poolsToClose : list (option Pool))
  : M unit :=
  match poolsToClose with
  | [] =>
    match callback with
    | CbFunction => ret tt
    | CbValue _ => throw not_a_function
    end
  | Some pool :: rest =>
    call (fun _ => EvEnd pool) (fun db => (tt, poolEnd drv pool db)) ;;;
    closeNextPool callback rest
  | None :: _ => throw (TypeError "pool.end")
  end.

Definition doCurtains (callback : Callback) : M unit :=
  set_closing true ;;;
  w <- world ;;
  closeNextPool callback (rev (map snd (w_pools w))).

(** [getConnection(pool, callback)]: the arguments of [callback(err, conn)]. *)
Definition getConnectionOf (pool : option Pool) : M (option Error * option Conn) :=
  match pool with
  | None => ret (Some ErrNullPool, None)
  | Some p =>
    call (fun r => EvGetConnection p (fst r) (snd r)) (getConnection drv p)
  end.

(** [releaseConnection(conn, callback)]; both callers ignore the error. *)
Definition releaseConnection (conn : Conn) : M unit :=
  call (EvRelease conn) (release drv conn) ;;; ret tt.

(** ** The result coercer: [formatResult] *)

(** The copy [rvRow] of a row. *)
Definition copyRow (row : Value) : Value := VObj (enumerate row).

Definition is_integer_number (v : Value) : bool :=
  match v with VNum n => isInteger n | _ => false end.

Definition is_nan_number (v : Value) : bool :=
  match v with VNum n => isNaN n | _ => false end.

(** The [switch (op.opcode)] on the first value [vl] of the first row. *)
Definition coerce (opcode : Opcode) (dflt vl : Value) : Value :=
  match opcode with
  | OpQI =>
    if negb (typeof vl =? "number") || negb (is_integer_number vl) then
      let n := parseFloat rt (toText rt vl) in
      if isNaN n || negb (isInteger n) then dflt else VNum n
    else vl
  | OpQF =>
    if negb (typeof vl =? "number") || is_nan_number vl then
      let n := parseFloat rt (toText rt vl) in
      if isNaN n then dflt else VNum n
    else vl
  | OpQS =>
    if negb (typeof vl =? "string") then VStr (toText rt vl) else vl
  | _ => vl
  end.

Definition formatResult (op : Op) (resultSet : RawResult) : Res Value :=
  match opcode op with
  | OpQ =>
    match resultSet with
    | RRows rows => Ok (VArr (map copyRow rows))
    | _ => Throw (TypeError "resultSet.forEach is not a function")
    end
  | _ =>
    match resultSet with
    | RUndef => Ok (dflt op)
    | RHeader _ => Ok (dflt op)
    | RRows [] => Ok (dflt op)
    | RRows (resultRow :: _) =>
      if negb (truthy resultRow) then Ok (dflt op)
      else match enumerate resultRow with
           | [] => Ok (dflt op)
           | (_, vl) :: _ =>
             if is_nullish vl then Ok (dflt op)
             else Ok (coerce (opcode op) (dflt op) vl)
           end
    end
  end.

(** ** Running one operation: [doExecute] and [doQuery] *)

(** The array [paramVals] that [doNextExec] walks.  [isMulti] is only set
    when the parameters are an array. *)
Definition execParams (op : Op) : list Value :=
  if negb (isMulti op) then [paramVals op]
  else match paramVals op with
       | VArr xs => xs
       | _ => []
       end.

(** An exception inside [doNextExec]: the first call runs under the
    [try], the later ones run from [process.nextTick]. *)
Definition escape {A} (caught : bool) (e : Error) : M (Error + A) :=
  if caught then ret (inl e) else throw e.

Definition echo (dbcfg : Value) (verb : string) (sql : string)
    (args : list Value) : M unit :=
  if truthy (get_prop dbcfg "echo") then emit (EvLog verb sql args) else ret tt.

(** [resultsFromThisExec && resultsFromThisExec.affectedRows
     ? resultsFromThisExec.affectedRows : 0].  The counts are integers, and
    their sum is the sum of integers as long as it stays below 2^53. *)
Definition rowsAffected (r : RawResult) : Z :=
  match r with
  | RHeader n => if (n =? 0)%Z then 0%Z else n
  | _ => 0%Z
  end.

(** [doNextExec] of [doExecute], on the elements from index [i] on. *)
Fixpoint execLoop (conn : option Conn) (dbcfg : Value) (op : Op)
    (resultsSoFar : list Value) (caught : bool)
    (remaining : list Value) (totalNumberOfRowsAffected : Z)
  : M (Error + Value) :=
  match remaining with
  | [] => ret (inr (num_of_Z totalNumberOfRowsAffected))
  | pv :: rest =>
    match makeArgs (paramRefs op) (paramTypes op) pv resultsSoFar with
    | Throw e => escape caught e
    | Ok args =>
      echo dbcfg "executing" (sql op) args ;;;
      match conn with
      | None => escape caught (TypeError "conn.execute")
      | Some c =>
        r <- call (fun r => EvExecute c (sql op) args (fst r) (snd r))
               (execute drv c (sql op) args) ;;
        match r with
        | (Some err, _) => ret (inl err)
        | (None, resultsFromThisExec) =>
          execLoop conn dbcfg op resultsSoFar false rest
            (totalNumberOfRowsAffected + rowsAffected resultsFromThisExec)
        end
      end
    end
  end.

(** [doExecute(conn, dbcfg, op, resultsSoFar, callback)]: what [callback]
    is called with, an error or a result. *)
Definition doExecute (conn : option Conn) (dbcfg : Value) (op : Op)
    (resultsSoFar : list Value) : M (Error + Value) :=
  execLoop conn dbcfg op resultsSoFar true (execParams op) 0.

(** [doNextExec] of [doQuery]. *)
Fixpoint queryLoop (conn : option Conn) (dbcfg : Value) (op : Op)
    (resultsSoFar : list Value) (caught : bool)
    (remaining : list Value) (resultsFromThisOp : list Value)
  : M (Error + Value) :=
  match remaining with
  | [] =>
    ret (inr (if negb (isMulti op) then nth 0 resultsFromThisOp VUndef
              else VArr resultsFromThisOp))
  | pv :: rest =>
    match makeArgs (paramRefs op) (paramTypes op) pv resultsSoFar with
    | Throw e => escape caught e
    | Ok args =>
      echo dbcfg "querying" (sql op) args ;;;
      match conn with
      | None => escape caught (TypeError "conn.execute")
      | Some c =>
        r <- call (fun r => EvExecute c (sql op) args (fst r) (snd r))
               (execute drv c (sql op) args) ;;
        match r with
        | (Some err, _) => ret (inl err)
        | (None, resultsFromThisExec) =>
          match formatResult op resultsFromThisExec with
          | Throw e => throw e
          | Ok v =>
            queryLoop conn dbcfg op resultsSoFar false rest
              (resultsFromThisOp ++ [v])
          end
        end
      end
    end
  end.

Definition doQuery (conn : option Conn) (dbcfg : Value) (op : Op)
    (resultsSoFar : list Value) : M (Error + Value) :=
  queryLoop conn dbcfg op resultsSoFar true (execParams op) [].

(** The choice [fn] of [fillInResults]. *)
Definition runOp (conn : option Conn) (dbcfg : Value) (op : Op)
    (resultsSoFar : list Value) : M (Error + Value) :=
  match opcode op with
  | OpE => doExecute conn dbcfg op resultsSoFar
  | _ => doQuery conn dbcfg op resultsSoFar
  end.

(** ** The orchestrator: [doFinale] *)

(** [fillInResults], on the operations [ops[results.length]] and after.  It
    returns the error passed to its callback and the array [results] as it
    stands then. *)
Fixpoint fillInResults (conn : option Conn) (dbcfg : Value)
    (remaining : list Op) (results : list Value)
  : M (option Error * list Value) :=
  match remaining with
  | [] => ret (None, results)
  | nextOp :: rest =>
    r <- runOp conn dbcfg nextOp results ;;
    match r with
    | inl err => ret (Some err, results)
    | inr result => fillInResults conn dbcfg rest (results ++ [result])
    end
  end.

(** [finalize(conn, err)], with the variables of [doFinale] it reads. *)
Definition finalize (singularOperation : bool) (results : list Value)
    (transactionHasStarted : bool) (conn : option Conn) (err : option Error)
  : M Outcome :=
  let rv := if singularOperation then nth 0 results VUndef else VArr results in
  match conn with
  | Some c =>
    (if transactionHasStarted
     then call (EvRollback c) (rollback drv c) ;;; ret tt
     else ret tt) ;;;
    releaseConnection c ;;;
    ret (Delivered err rv)
  | None => ret (Delivered err rv)
  end.

(** [cb(new Error(...))] in the guards of [doFinale]. *)
Definition invoke (cb : Callback) (e : Error) : M Outcome :=
  match cb with
  | CbFunction => ret (Delivered (Some e) VUndef)
  | CbValue _ => throw not_a_function
  end.

Definition setCommitSql (bTransact : bool) : string :=
  "SET autocommit=" ++ (if bTransact then "0" else "1").

(** [doFinale] from [POOL_FUNCTIONS.getPool] on. *)
Definition runFinale (dbcfg : Value) (bTransact : bool) (ops : list Op)
  : M Outcome :=
  let singularOperation := (List.length ops =? 1)%nat in
  let finalize := finalize singularOperation in
  r <- getPool dbcfg ;;
  match r with
  | (Some err, _) => finalize [] false None (Some err)
  | (None, pool) =>
    r <- getConnectionOf pool ;;
    match r with
    | (Some err, conn) => finalize [] false conn (Some err)
    | (None, conn) =>
      match doAction OpE (VStr (setCommitSql bTransact)) VUndef VUndef with
      | Throw e => throw e
      | Ok setCommitOp =>
        r <- doExecute conn dbcfg setCommitOp [] ;;
        match r with
        | inl err => finalize [] false conn (Some err)
        | inr _ =>
          if bTransact then
            match conn with
            | None => throw (TypeError "conn.beginTransaction")
            | Some c =>
              err <- call (EvBegin c) (beginTransaction drv c) ;;
              match err with
              | Some err => finalize [] false conn (Some err)
              | None =>
                r <- fillInResults conn dbcfg ops [] ;;
                match r with
                | (Some err, results) => finalize results true conn (Some err)
                | (None, results) =>
                  err <- call (EvCommit c) (commit drv c) ;;
                  finalize results true conn err
                end
              end
            end
          else
            r <- fillInResults conn dbcfg ops [] ;;
            finalize (snd r) false conn (fst r)
        end
      end
    end
  end.

Fixpoint mark_finale (i : nat) (sts : list Stage) : list Stage :=
  match sts, i with
  | [], _ => []
  | st :: rest, O => mkStage (st_cfg st) (st_ops st) true :: rest
  | st :: rest, S j => st :: mark_finale j rest
  end.

(** [doFinale(dbcfg, bTransact, ops, cb)]; [ops] is the array of a stage. *)
Definition doFinale (dbcfg : Value) (bTransact : bool) (ops : StageRef)
    (cb : Callback) : M Outcome :=
  closing <- isClosing ;;
  if closing then invoke cb ErrClosing
  else if negb (truthy dbcfg) then invoke cb ErrNoConfig
  else
    w <- world ;;
    match nth_error (w_stages w) ops with
    | None => invoke cb ErrNoOps
    | Some st =>
      match cb with
      | CbValue _ => invoke cb ErrNoCallback
      | CbFunction =>
        if st_finaleComplete st then invoke cb ErrAlreadyFinalized
        else
          set_stages (mark_finale ops (w_stages w)) ;;;
          runFinale dbcfg bTransact (st_ops st)
      end
    end.

(** ** The caller's interface *)

(** [db.stage(connectionInfo)]. *)
Definition stage (connectionInfo : Value) : M StageRef :=
  w <- world ;;
  set_stages (w_stages w ++ [mkStage connectionInfo [] false]) ;;;
  ret (List.length (w_stages w)).

Fixpoint push_op (i : nat) (op : Op) (sts : list Stage) : list Stage :=
  match sts, i with
  | [], _ => []
  | st :: rest, O =>
    mkStage (st_cfg st) (st_ops st ++ [op]) (st_finaleComplete st) :: rest
  | st :: rest, S j => st :: push_op j op rest
  end.

(** [ops.push(doAction(opcode, sql, params, dflt))]. *)
Definition stageAction (this : StageRef) (opcode : Opcode)
    (sql params dflt : Value) : M unit :=
  match doAction opcode sql params dflt with
  | Throw e => throw e
  | Ok op => w <- world ;; set_stages (push_op this op (w_stages w))
  end.

Definition stage_execute (this : StageRef) (sql params : Value) : M unit :=
  stageAction this OpE sql params VNull.
Definition stage_query (this : StageRef) (sql params : Value) : M unit :=
  stageAction this OpQ sql params VNull.
Definition stage_queryInt (this : StageRef) (sql params dflt : Value) : M unit :=
  stageAction this OpQI sql params dflt.
Definition stage_queryFloat (this : StageRef) (sql params dflt : Value) : M unit :=
  stageAction this OpQF sql params dflt.
Definition stage_queryString (this : StageRef) (sql params dflt : Value) : M unit :=
  stageAction this OpQS sql params dflt.

(** [stage.finale(callback, autocommit)]. *)
Definition stage_finale (this : StageRef) (callback : Callback)
    (autocommit : Value) : M Outcome :=
  w <- world ;;
  match nth_error (w_stages w) this with
  | None => throw (TypeError "not a stage")
  | Some st => doFinale (st_cfg st) (negb (truthy autocommit)) this callback
  end.

(** [db.curtains(callback)]. *)
Definition curtains (callback : Callback) : M unit :=
  doCurtains (match callback with
              | CbFunction => CbFunction
              | CbValue v => if truthy v then CbValue v else CbFunction
              end).

End Model.

Unset Implicit Arguments.

(** ** Reading a trace *)

(** The connections handed out by [pool.getConnection], in order. *)
Fixpoint acquired (evs : list Event) : list Conn :=
  match evs with
  | [] => []
  | EvGetConnection _ _ (Some c) :: rest => c :: acquired rest
  | _ :: rest => acquired rest
  end.

(** The connections given back with [conn.release], in order. *)
Fixpoint released (evs : list Event) : list Conn :=
  match evs with
  | [] => []
  | EvRelease c _ :: rest => c :: released rest
  | _ :: rest => released rest
  end.

(** The statements sent with [conn.execute], in order. *)
Fixpoint executions (evs : list Event) : list (Conn * string * list Value) :=
  match evs with
  | [] => []
  | EvExecute c sql args _ _ :: rest => (c, sql, args) :: executions rest
  | _ :: rest => executions rest
  end.

(** The first execution that the driver answered with an error: its
    connection, the error, and the events that came after it. *)
Fixpoint after_failure (evs : list Event)
  : option (Conn * Error * list Event) :=
  match evs with
  | [] => None
  | EvExecute c _ _ (Some e) _ :: rest => Some (c, e, rest)
  | _ :: rest => after_failure rest
  end.

Definition is_begun (ev : Event) : bool :=
  match ev with EvBegin _ None => true | _ => false end.

(** Has a transaction been started, [conn.beginTransaction] having answered
    without error? *)
Definition begun (evs : list Event) : bool := existsb is_begun evs.

(** ** Sequences of calls *)

(** What a caller can do with the library.  Each call is run to the end of
    the callback chain it starts before the next one is made. *)
Inductive Action : Type :=
| ActStage (connectionInfo : Value)
| ActAdd (this : StageRef) (opcode : Opcode) (sql params dflt : Value)
| ActFinale (this : StageRef) (callback : Callback) (autocommit : Value)
| ActCurtains (callback : Callback).

Section Runs.

Variable DB : Type.
Variable drv : Driver DB.
Variable rt : Runtime.

Definition step (a : Action) (w : World DB) : World DB :=
  match a with
  | ActStage cfg => snd (stage cfg w)
  | ActAdd this opcode sql params dflt =>
    snd (stageAction this opcode sql params dflt w)
  | ActFinale this callback autocommit =>
    snd (stage_finale drv rt this callback autocommit w)
  | ActCurtains callback => snd (curtains drv callback w)
  end.

Definition run (acts : list Action) (w : World DB) : World DB :=
  fold_left (fun w a => step a w) acts w.

(** [RunsInOrder conn dbcfg ops prior w rs w']: run one after the other from
    the world [w], each operation of [ops] calls back with its result, the
    operation seeing the results [prior] and those of the operations before
    it; [rs] are the results in the order of [ops] and [w'] is the world at
    the end. *)
Inductive RunsInOrder (conn : option Conn) (dbcfg : Value)
  : list Op -> list Value -> World DB -> list Value -> World DB -> Prop :=
| rio_nil prior w : RunsInOrder conn dbcfg [] prior w [] w
| rio_cons op ops prior w r w1 rs w2 :
    runOp drv rt conn dbcfg op prior w = (Ok (inr r), w1) ->
    RunsInOrder conn dbcfg ops (prior ++ [r]) w1 rs w2 ->
    RunsInOrder conn dbcfg (op :: ops) prior w (r :: rs) w2.

(** [ExecRows c op prior rows db answers db']: sent one after the other from
    the database state [db], the statement of [op] bound to each element of
    [rows] in turn is answered without error; [answers] are the arguments
    sent and the results received, in the order of [rows]. *)
Inductive ExecRows (c : Conn) (op : Op) (prior : list Value)
  : list Value -> DB -> list (list Value * RawResult) -> DB -> Prop :=
| er_nil db : ExecRows c op prior [] db [] db
| er_cons row rows db args raw db1 answers db2 :
    makeArgs (paramRefs op) (paramTypes op) row prior = Ok args ->
    execute drv c (sql op) args db = ((None, raw), db1) ->
    ExecRows c op prior rows db1 answers db2 ->
    ExecRows c op prior (row :: rows) db ((args, raw) :: answers) db2.

End Runs.

Arguments step {DB} drv rt a w.
Arguments run {DB} drv rt acts w.
Arguments RunsInOrder {DB} drv rt conn dbcfg _ _ _ _ _.
Arguments ExecRows {DB} drv c op prior _ _ _ _.


(** ** A driver and a runtime to run examples on *)

(** The database is the number of rows of its one table.  An [insert] adds a
    row, a [select] returns the count, [SET] and [create] affect no row,
    anything else is a syntax error; a rollback reports a failure. *)
Definition demoDriver : Driver nat :=
  {| createPool := fun _ db => (Ok (Some 1), db);
     getConnection := fun _ db => ((None, Some 7), db);
     execute := fun _ sql _ db =>
       if prefix "insert" sql then ((None, RHeader 1), S db)
       else if prefix "select" sql
            then ((None, RRows [VObj [("count(*)", num_of_nat db)]]), db)
       else if prefix "SET" sql || prefix "create" sql
            then ((None, RHeader 0), db)
       else ((Some (ErrDriver "You have an error in your SQL syntax"), RUndef), db);
     beginTransaction := fun _ db => (None, db);
     commit := fun _ db => (None, db);
     rollback := fun _ db => (Some (ErrDriver "rollback failed"), db);
     release := fun _ db => (None, db);
     poolEnd := fun _ db => db |}.

(** A reading of the numerals [digits], [digits.digits] and their negatives,
    on which it agrees with [parseFloat], and [NaN] for a text that does not
    start with one. *)
Definition readDecimal (negative : bool) (cs : list ascii) : number :=
  match take_while is_digit cs with
  | [] => NaN
  | ds =>
    let fs := match drop_while is_digit cs with
              | "."%char :: rest => take_while is_digit rest
              | _ => []
              end in
    let scale := (10 ^ Z.of_nat (List.length fs))%Z in
    let num := (Z.of_nat (decimal_value ds) * scale
                + Z.of_nat (decimal_value fs))%Z in
    Fin (Qmake (if negative then - num else num) (Z.to_pos scale))
  end.

Definition demoParseFloat (s : string) : number :=
  match list_ascii_of_string s with
  | "-"%char :: cs => readDecimal true cs
  | cs => readDecimal false cs
  end.

Definition demoRuntime : Runtime :=
  {| parseFloat := demoParseFloat;
     toText := fun v => match v with VStr s => s | _ => "[object]" end;
     stringify := fun v => match get_prop v "database" with
                           | VStr s => s
                           | _ => "{}"
                           end |}.

Definition demoWorld : World nat :=
  {| w_stages := []; w_pools := []; w_closing := false; w_db := 0;
     w_trace := [] |}.

Definition demoCfg : Value :=
  VObj [("user", VStr "myusernm"); ("database", VStr "mydb")].

Definition insertRows : Value :=
  VArr [VArr [num_of_Z 2; VStr "a"]; VArr [num_of_Z 3; VStr "b"];
        VArr [num_of_Z 4; VStr "c"]; VArr [num_of_Z 5; VStr "d"]].

Definition insertSql : string := "insert into test(col1, col2) values (?,?)".

(** A stage with a four-row insert and a count. *)
Definition demoStaged : World nat :=
  run demoDriver demoRuntime
      [ActStage demoCfg;
       ActAdd 0 OpE (VStr insertSql) insertRows VNull;
       ActAdd 0 OpQI (VStr "select count(*) from test") VUndef VUndef]
      demoWorld.

(** A stage with a four-row insert and a statement that is no SQL. *)
Definition demoDoomed : World nat :=
  run demoDriver demoRuntime
      [ActStage demoCfg;
       ActAdd 0 OpE (VStr insertSql) insertRows VNull;
       ActAdd 0 OpE (VStr "this is garbage") VUndef VNull]
      demoWorld.

(** A stage finalized once, and then the shutdown. *)
Definition demoAfterCurtains : World nat :=
  run demoDriver demoRuntime
      [ActFinale 0 CbFunction VUndef; ActCurtains CbFunction]
      demoStaged.

(** ** The token grammar, as the specification words it *)

(** [stops p rest]: a run of [p]-characters cannot be extended into [rest]. *)
Definition stops (p : ascii -> bool) (rest : list ascii) : Prop :=
  match rest with
  | [] => True
  | c :: _ => p c = false
  end.

(** [TokenAt s m rest]: the text [s] starts with the token [m], taken as
    long as it can be, and [rest] follows it.  The three kinds are the named
    [:identifier], the positional [?] and the cross-reference [$digits]. *)
Inductive TokenAt : list ascii -> string -> list ascii -> Prop :=
| tok_named name rest :
    name <> [] -> forallb is_ident name = true -> stops is_ident rest ->
    TokenAt (":"%char :: name ++ rest)
            (string_of_list_ascii (":"%char :: name)) rest
| tok_positional rest :
    TokenAt ("?"%char :: rest) "?" rest
| tok_cross ds rest :
    ds <> [] -> forallb is_digit ds = true -> stops is_digit rest ->
    TokenAt ("$"%char :: ds ++ rest)
            (string_of_list_ascii ("$"%char :: ds)) rest.

(** [Lexes s ps]: [ps] is the left-to-right reading of [s], a token wherever
    one starts and a plain character everywhere else. *)
Inductive Lexes : list ascii -> list Piece -> Prop :=
| lex_nil : Lexes [] []
| lex_token s m rest ps :
    TokenAt s m rest -> Lexes rest ps -> Lexes s (Match m :: ps)
| lex_skip c s ps :
    (forall m rest, ~ TokenAt (c :: s) m rest) ->
    Lexes s ps -> Lexes (c :: s) (Lit c :: ps).

(** [Resolves i m r t]: the token [m], the [i]-th of its statement counting
    from 0, has the reference [r] and the type tag [t]. *)
Inductive Resolves (i : nat) : string -> Ref -> string -> Prop :=
| res_named name :
    Resolves i (String ":" name) (RName name) ":"
| res_positional :
    Resolves i "?" (RIndex i) "?"
| res_cross ds :
    ds <> [] -> forallb is_digit ds = true ->
    Resolves i (String "$" (string_of_list_ascii ds))
             (RIndex (decimal_value ds)) "$".

(** ** What the proofs say about tokens, traces and runs *)

Definition IsToken (m : string) : Prop := exists s rest, TokenAt s m rest.

(** Where a token of type [t] is looked up. *)
Definition source_of (t : string) (explicitParams : Value) (prior : list Value)
  : Value :=
  if t =? "$" then VArr prior else explicitParams.



(** A stretch of the trace in which nothing is acquired, released or begun
    and no execution fails. *)
Definition Quiet (evs : list Event) : Prop :=
  acquired evs = [] /\ released evs = [] /\ begun evs = false /\
  after_failure evs = None.

(** The trace of one operation whose callback gets [err]: quiet, or quiet up
    to a last execution on [conn] that the driver answered with [err]. *)
Definition OpTrace (conn : option Conn) (err : Error) (evs : list Event)
  : Prop :=
  acquired evs = [] /\ released evs = [] /\ begun evs = false /\
  (after_failure evs = None \/
   exists c, conn = Some c /\ after_failure evs = Some (c, err, [])).

(** What the trace of one operation looks like, by what its callback gets. *)
Definition OpResult {A} (conn : option Conn) (r : Res (Error + A))
    (evs : list Event) : Prop :=
  match r with
  | Ok (inr _) => Quiet evs
  | Ok (inl e) => OpTrace conn e evs
  | Throw _ => True
  end.

(** The events of [finalize]. *)
Definition FinalEvents (conn : option Conn) (started : bool)
    (fin : list Event) : Prop :=
  match conn with
  | None => fin = []
  | Some c =>
    exists rl,
      if started then exists re, fin = [EvRollback c re] ++ [EvRelease c rl]
      else fin = [] ++ [EvRelease c rl]
  end.

(** The trace of a finalization up to [finalize]. *)
Definition PreTrace (conn : option Conn) (started : bool)
    (err : option Error) (pre : list Event) : Prop :=
  released pre = [] /\
  acquired pre = match conn with Some c => [c] | None => [] end /\
  begun pre = started /\
  (after_failure pre = None \/
   exists c e, conn = Some c /\ err = Some e /\
               after_failure pre = Some (c, e, [])).

(** What the trace of a finalization that calls back with [err] shows. *)
Definition FinaleTrace (err : option Error) (evs : list Event) : Prop :=
  released evs = acquired evs /\
  (forall c, In c (acquired evs) ->
             exists evs0 rl, evs = evs0 ++ [EvRelease c rl]) /\
  (forall c e post, after_failure evs = Some (c, e, post) ->
     err = Some e /\
     exists rl,
       (begun evs = true /\ exists re, post = [EvRollback c re; EvRelease c rl])
       \/ (begun evs = false /\ post = [EvRelease c rl])).

(** The value [rv] of [finalize] on the results [rs] of all the operations. *)
Definition rv_of (ops : list Op) (rs : list Value) : Value :=
  if (List.length ops =? 1)%nat then nth 0 rs VUndef else VArr rs.


Section Frames.

Variable DB : Type.
Variable drv : Driver DB.
Variable rt : Runtime.

(** [Extends w w' evs]: from [w] to [w'] the trace has grown by [evs], and
    the stages and the closing flag are as they were. *)
Definition Extends (w w' : World DB) (evs : list Event) : Prop :=
  w_trace w' = w_trace w ++ evs /\
  w_stages w' = w_stages w /\
  w_closing w' = w_closing w.

Definition mark (ops : StageRef) (w : World DB) : World DB :=
  mkWorld (mark_finale ops (w_stages w)) (w_pools w) (w_closing w) (w_db w)
          (w_trace w).

(** [Later w w']: every stage of [w] is still there in [w'], with its
    configuration; a stage marked as finalized is still marked, and the
    closing flag, once set, is still set. *)
Definition Later (w w' : World DB) : Prop :=
  (forall i st, nth_error (w_stages w) i = Some st ->
     exists st', nth_error (w_stages w') i = Some st' /\
                 st_cfg st' = st_cfg st /\
                 (st_finaleComplete st = true -> st_finaleComplete st' = true))
  /\ (w_closing w = true -> w_closing w' = true).

(** What a finalization that has passed the guards of [doFinale] does. *)
Definition FinaleSpec (dbcfg : Value) (ops : list Op) (w w' : World DB)
    (r : Res Outcome) : Prop :=
  exists evs, Extends w w' evs /\
    forall err rv, r = Ok (Delivered err rv) ->
      FinaleTrace err evs /\
      (err = None ->
       exists conn w1 w2 rs pre post,
         Extends w w1 pre /\
         RunsInOrder drv rt conn dbcfg ops [] w1 rs w2 /\
         Extends w2 w' post /\
         rv = rv_of ops rs).

End Frames.

Arguments Extends {DB} w w' evs.
Arguments mark {DB} ops w.
Arguments Later {DB} w w'.
Arguments FinaleSpec {DB} drv rt dbcfg ops w w' r.

(** ** Further notions: operations and readings *)

(** The shape [doAction] computes for the parameters a caller passes. *)
Definition paramShapeOf (params : Value) : Shape :=
  computeParamShape (jsonClone (if truthy params then params else VNull)).

(** The three type tags. *)
Definition valid_type (t : string) : Prop := t = ":" \/ t = "?" \/ t = "$".

(** What holds of every operation [doAction] returns. *)
Definition WellFormed (op : Op) : Prop :=
  List.length (paramRefs op) = List.length (paramTypes op) /\
  Forall valid_type (paramTypes op) /\
  bindStyles op = paramTypes op /\
  has_style (bindStyles op) ":" && has_style (bindStyles op) "?" = false /\
  (has_style (bindStyles op) "?" = true ->
   is_positional_shape (paramShape op) = true) /\
  (has_style (bindStyles op) ":" = true ->
   is_named_shape (paramShape op) = true) /\
  has_null_param (paramVals op) = false /\
  paramShape op = computeParamShape (paramVals op) /\
  isMulti op = is_multi_shape (paramShape op).

(** The names every object inherits from [Object.prototype]; [get_prop]
    answers for the others. *)
Definition inherited_name (name : string) : bool :=
  existsb (String.eqb name)
    ["constructor"; "hasOwnProperty"; "isPrototypeOf"; "propertyIsEnumerable";
     "toLocaleString"; "toString"; "valueOf"; "__proto__";
     "__defineGetter__"; "__defineSetter__"; "__lookupGetter__";
     "__lookupSetter__"].

(** The text a reading stands for. *)
Fixpoint unparse (ps : list Piece) : string :=
  match ps with
  | [] => ""
  | Lit c :: rest => String c (unparse rest)
  | Match m :: rest => m ++ unparse rest
  end.

(** A piece of the clean SQL: a token has become the bind marker. *)
Definition clean_piece (p : Piece) : Piece :=
  match p with
  | Lit c => Lit c
  | Match _ => Match "?"
  end.

(** A character that starts no token. *)
Definition plain_char (c : ascii) : bool :=
  negb (Ascii.eqb c ":") && negb (Ascii.eqb c "?") && negb (Ascii.eqb c "$").

(** Induction on values, through the elements of arrays and the properties
    of objects. *)
Section ValueInduction.

Variable P : Value -> Prop.
Hypothesis Hundef : P VUndef.
Hypothesis Hnull : P VNull.
Hypothesis Hbool : forall b, P (VBool b).
Hypothesis Hnum : forall n, P (VNum n).
Hypothesis Hstr : forall s, P (VStr s).
Hypothesis Harr : forall xs, Forall P xs -> P (VArr xs).
Hypothesis Hobj : forall ps, Forall (fun kv => P (snd kv)) ps -> P (VObj ps).

Fixpoint Value_induction (v : Value) : P v :=
  match v with
  | VUndef => Hundef
  | VNull => Hnull
  | VBool b => Hbool b
  | VNum n => Hnum n
  | VStr s => Hstr s
  | VArr xs =>
    Harr xs ((fix elements (xs : list Value) : Forall P xs :=
                match xs with
                | [] => Forall_nil P
                | x :: rest => Forall_cons x (Value_induction x) (elements rest)
                end) xs)
  | VObj ps =>
    Hobj ps ((fix properties (ps : list (string * Value))
                : Forall (fun kv => P (snd kv)) ps :=
                match ps with
                | [] => Forall_nil _
                | (k, x) :: rest =>
                  Forall_cons (k, x) (Value_induction x) (properties rest)
                end) ps)
  end.

End ValueInduction.

(** The properties of an object as [JSON.stringify] keeps them. *)
Fixpoint cloneProps (ps : list (string * Value)) : list (string * Value) :=
  match ps with
  | [] => []
  | (k, x) :: rest =>
    match x with
    | VUndef => cloneProps rest
    | _ => (k, jsonClone x) :: cloneProps rest
    end
  end.


(** ** Further notions: the path of a finalization *)

(** The calls that begin, commit and roll back, in order. *)
Fixpoint txcalls (evs : list Event) : list Event :=
  match evs with
  | [] => []
  | EvBegin c e :: rest => EvBegin c e :: txcalls rest
  | EvCommit c e :: rest => EvCommit c e :: txcalls rest
  | EvRollback c e :: rest => EvRollback c e :: txcalls rest
  | _ :: rest => txcalls rest
  end.

(** The calls to [createPool], in order. *)
Fixpoint creations (evs : list Event) : list Event :=
  match evs with
  | [] => []
  | EvCreatePool cfg r :: rest => EvCreatePool cfg r :: creations rest
  | _ :: rest => creations rest
  end.

(** An event of running an operation on [conn]: an echoed line, or a
    statement sent on that connection. *)
Definition OpEvent (conn : option Conn) (ev : Event) : Prop :=
  match ev with
  | EvLog _ _ _ => True
  | EvExecute c _ _ _ _ => conn = Some c
  | _ => False
  end.

Definition OpEvents (conn : option Conn) (evs : list Event) : Prop :=
  Forall (OpEvent conn) evs.

(** The events of setting the commit mode: the one statement, when there is
    a connection to send it on. *)
Definition SetEvents (bTransact : bool) (conn : option Conn)
    (sc : list Event) : Prop :=
  OpEvents conn sc /\
  executions sc = match conn with
                  | Some c => [(c, setCommitSql bTransact, [])]
                  | None => []
                  end.

(** The events of asking the pool for a connection. *)
Definition ConnectEvents (err : option Error) (conn : option Conn)
    (gc : list Event) : Prop :=
  (gc = [] /\ conn = None /\ err = Some ErrNullPool) \/
  exists p, gc = [EvGetConnection p err conn].

(** [BodyPath bTransact outcome evs]: the events [evs] of a finalization from
    [getConnection] on, by the way it ends: [outcome] is the error handed to
    the callback, or nothing when an exception escapes. *)
Inductive BodyPath (bTransact : bool)
  : option (option Error) -> list Event -> Prop :=
| bp_no_pool e :
    BodyPath bTransact (Some (Some e)) []
| bp_no_connection e conn gc fin :
    ConnectEvents (Some e) conn gc -> FinalEvents conn false fin ->
    BodyPath bTransact (Some (Some e)) (gc ++ fin)
| bp_set_failed conn gc sc e fin :
    ConnectEvents None conn gc -> SetEvents bTransact conn sc ->
    OpTrace conn e sc -> FinalEvents conn false fin ->
    BodyPath bTransact (Some (Some e)) (gc ++ sc ++ fin)
| bp_set_thrown conn gc sc :
    ConnectEvents None conn gc -> SetEvents bTransact conn sc ->
    BodyPath bTransact None (gc ++ sc)
| bp_begin_failed c gc sc e fin :
    bTransact = true ->
    ConnectEvents None (Some c) gc -> SetEvents bTransact (Some c) sc ->
    Quiet sc -> FinalEvents (Some c) false fin ->
    BodyPath bTransact (Some (Some e))
             (gc ++ sc ++ [EvBegin c (Some e)] ++ fin)
| bp_failed_in_transaction c gc sc fl e fin :
    bTransact = true ->
    ConnectEvents None (Some c) gc -> SetEvents bTransact (Some c) sc ->
    Quiet sc -> OpEvents (Some c) fl -> OpTrace (Some c) e fl ->
    FinalEvents (Some c) true fin ->
    BodyPath bTransact (Some (Some e))
             (gc ++ sc ++ [EvBegin c None] ++ fl ++ fin)
| bp_thrown_in_transaction c gc sc fl :
    bTransact = true ->
    ConnectEvents None (Some c) gc -> SetEvents bTransact (Some c) sc ->
    Quiet sc -> OpEvents (Some c) fl ->
    BodyPath bTransact None (gc ++ sc ++ [EvBegin c None] ++ fl)
| bp_committed c gc sc fl err fin :
    bTransact = true ->
    ConnectEvents None (Some c) gc -> SetEvents bTransact (Some c) sc ->
    Quiet sc -> OpEvents (Some c) fl -> Quiet fl ->
    FinalEvents (Some c) true fin ->
    BodyPath bTransact (Some err)
             (gc ++ sc ++ [EvBegin c None] ++ fl ++ [EvCommit c err] ++ fin)
| bp_failed conn gc sc fl e fin :
    bTransact = false ->
    ConnectEvents None conn gc -> SetEvents bTransact conn sc ->
    Quiet sc -> OpEvents conn fl -> OpTrace conn e fl ->
    FinalEvents conn false fin ->
    BodyPath bTransact (Some (Some e)) (gc ++ sc ++ fl ++ fin)
| bp_thrown conn gc sc fl :
    bTransact = false ->
    ConnectEvents None conn gc -> SetEvents bTransact conn sc ->
    Quiet sc -> OpEvents conn fl ->
    BodyPath bTransact None (gc ++ sc ++ fl)
| bp_done conn gc sc fl fin :
    bTransact = false ->
    ConnectEvents None conn gc -> SetEvents bTransact conn sc ->
    Quiet sc -> OpEvents conn fl -> Quiet fl ->
    FinalEvents conn false fin ->
    BodyPath bTransact (Some None) (gc ++ sc ++ fl ++ fin).

(** The outcome of a finalization, for [BodyPath]. *)
Definition outcome_of (r : Res Outcome) : option (option Error) :=
  match r with
  | Ok (Delivered err _) => Some err
  | Throw _ => None
  end.

Section PoolSteps.

Variable DB : Type.
Variable rt : Runtime.

(** [PoolStep dbcfg w pe w']: what [getPool] has done between [w] and [w']:
    nothing when the configuration is missing or its pool is in the
    registry; one [createPool] otherwise, whose pool is stored under the key
    of the configuration if there is one. *)
Definition PoolStep (dbcfg : Value) (w : World DB) (pe : list Event)
    (w' : World DB) : Prop :=
  (pe = [] /\ w_pools w' = w_pools w /\
   (truthy dbcfg = false \/
    exists p, lookup_pool (pool_key rt dbcfg) (w_pools w) = Some p)) \/
  (truthy dbcfg = true /\
   lookup_pool (pool_key rt dbcfg) (w_pools w) = None /\
   exists r, pe = [EvCreatePool dbcfg r] /\
     w_pools w' = match r with
                  | Ok pool => store_pool (pool_key rt dbcfg) pool (w_pools w)
                  | Throw _ => w_pools w
                  end).

End PoolSteps.

Arguments PoolStep {DB} rt dbcfg w pe w'.

(** ** Further notions: the registry, the shutdown and the queues *)

(** The pools ended with [pool.end], in order. *)
Fixpoint ended (evs : list Event) : list Pool :=
  match evs with
  | [] => []
  | EvEnd p :: rest => p :: ended rest
  | _ :: rest => ended rest
  end.

(** The pools of the registry, in the order of its keys. *)
Definition pools_of (pools : list (string * option Pool)) : list Pool :=
  flat_map (fun kp => match snd kp with Some p => [p] | None => [] end) pools.

(** No key of the registry holds a value that is no pool. *)
Definition all_pools (pools : list (string * option Pool)) : Prop :=
  Forall (fun kp => snd kp <> None) pools.

(** The number of times [x] occurs in [l]. *)
Fixpoint occurrences (x : Pool) (l : list Pool) : nat :=
  match l with
  | [] => 0
  | y :: rest => (if (x =? y)%nat then 1 else 0) + occurrences x rest
  end.

(** What a call adds to the queue of the stage [this]: the operation of an
    [execute] or a query on that stage that [doAction] accepts. *)
Definition added (this : StageRef) (a : Action) : list Op :=
  match a with
  | ActAdd t opcode sql params dflt =>
    if (t =? this)%nat
    then match doAction opcode sql params dflt with
         | Ok op => [op]
         | Throw _ => []
         end
    else []
  | _ => []
  end.

(** A stage whose one operation is a [query] of a statement that returns no
    rows. *)
Definition demoThrowing : World nat :=
  run demoDriver demoRuntime
      [ActStage demoCfg;
       ActAdd 0 OpQ (VStr "insert into test(col1, col2) values (1,2)")
              VUndef VNull]
      demoWorld.

(** * Proofs *)

(** ** Strings *)

Lemma substring_0_0 (s : string) : substring 0 0 s = "".
Proof. destruct s; reflexivity. Qed.

Lemma substring_all (s : string) : substring 0 (String.length s) s = s.
Proof. induction s as [|c s IH]; simpl; [reflexivity | now rewrite IH]. Qed.

Lemma charAt0_String (c : ascii) (s : string) :
  charAt0 (String c s) = String c "".
Proof. unfold charAt0; simpl. now rewrite substring_0_0. Qed.

Lemma substring1_String (c : ascii) (s : string) :
  substring1 (String c s) = s.
Proof.
  unfold substring1; simpl. rewrite Nat.sub_0_r. apply substring_all.
Qed.

(** ** The scan *)

Lemma take_drop_while p s : s = take_while p s ++ drop_while p s.
Proof.
  induction s as [|c s IH]; simpl; [reflexivity|].
  destruct (p c); simpl; [now rewrite <- IH | reflexivity].
Qed.

Lemma take_while_all p s : forallb p (take_while p s) = true.
Proof.
  induction s as [|c s IH]; simpl; [reflexivity|].
  destruct (p c) eqn:E; simpl; [now rewrite E | reflexivity].
Qed.

Lemma drop_while_stops p s : stops p (drop_while p s).
Proof.
  induction s as [|c s IH]; simpl; [exact I|].
  destruct (p c) eqn:E; [exact IH | exact E].
Qed.

Lemma drop_while_length p s : List.length (drop_while p s) <= List.length s.
Proof.
  induction s as [|c s IH]; simpl; [lia|].
  destruct (p c); simpl; lia.
Qed.

Lemma take_while_run p run rest :
  forallb p run = true -> stops p rest -> take_while p (run ++ rest) = run.
Proof.
  induction run as [|c run IH]; simpl; intros Hall Hstop.
  - destruct rest as [|c rest]; simpl; [reflexivity|].
    simpl in Hstop. now rewrite Hstop.
  - apply andb_true_iff in Hall as [Hc Hall]. rewrite Hc.
    now rewrite IH.
Qed.

Lemma scan_skip pre rest :
  scan (List.length pre) (pre ++ rest) = scan 0 rest.
Proof. induction pre as [|c pre IH]; simpl; [reflexivity | exact IH]. Qed.

Lemma scan_after_run p s :
  scan (List.length (take_while p s)) s = scan 0 (drop_while p s).
Proof.
  rewrite (take_drop_while p s) at 2. apply scan_skip.
Qed.

Lemma no_token_plain c s m rest :
  Ascii.eqb c ":" = false -> Ascii.eqb c "?" = false ->
  Ascii.eqb c "$" = false -> ~ TokenAt (c :: s) m rest.
Proof.
  intros H1 H2 H3 H. inversion H; subst;
    (rewrite Ascii.eqb_refl in H1 || rewrite Ascii.eqb_refl in H2
     || rewrite Ascii.eqb_refl in H3); discriminate.
Qed.

Lemma take_while_nonempty p run rest :
  run <> [] -> forallb p run = true -> take_while p (run ++ rest) <> [].
Proof.
  destruct run as [|c run]; [congruence|]. simpl. intros _ Hall.
  apply andb_true_iff in Hall as [Hc _]. rewrite Hc. discriminate.
Qed.

Lemma scan_colon s :
  scan 0 (":"%char :: s) =
  match take_while is_ident s with
  | [] => Lit ":" :: scan 0 s
  | name => Match (string_of_list_ascii (":"%char :: name))
              :: scan 0 (drop_while is_ident s)
  end.
Proof.
  rewrite <- scan_after_run. cbn [scan Ascii.eqb Bool.eqb].
  destruct (take_while is_ident s); reflexivity.
Qed.

Lemma scan_dollar s :
  scan 0 ("$"%char :: s) =
  match take_while is_digit s with
  | [] => Lit "$" :: scan 0 s
  | ds => Match (string_of_list_ascii ("$"%char :: ds))
            :: scan 0 (drop_while is_digit s)
  end.
Proof.
  rewrite <- scan_after_run. cbn [scan Ascii.eqb Bool.eqb].
  destruct (take_while is_digit s); reflexivity.
Qed.

Lemma scan_question s : scan 0 ("?"%char :: s) = Match "?" :: scan 0 s.
Proof. reflexivity. Qed.

Lemma scan_plain c s :
  Ascii.eqb c ":" = false -> Ascii.eqb c "?" = false ->
  Ascii.eqb c "$" = false -> scan 0 (c :: s) = Lit c :: scan 0 s.
Proof. intros H1 H2 H3. cbn [scan]. now rewrite H1, H2, H3. Qed.

Lemma scan_lexes_bound n : forall s, List.length s <= n -> Lexes s (scan 0 s).
Proof.
  induction n as [|n IH]; intros s Hlen.
  - destruct s; [constructor | simpl in Hlen; lia].
  - destruct s as [|c s]; [constructor|]. simpl in Hlen.
    assert (Hdrop : forall p, List.length (drop_while p s) <= n)
      by (intro p; pose proof (drop_while_length p s); lia).
    destruct (Ascii.eqb c ":") eqn:Ecolon.
    { apply Ascii.eqb_eq in Ecolon; subst c. rewrite scan_colon.
      destruct (take_while is_ident s) as [|a name] eqn:Ename.
      - apply lex_skip; [|apply IH; lia].
        intros m rest H. inversion H; subst.
        eapply take_while_nonempty; eauto.
      - eapply lex_token; [|apply IH, Hdrop].
        rewrite (take_drop_while is_ident s) at 1. rewrite Ename.
        apply tok_named.
        + discriminate.
        + rewrite <- Ename. apply take_while_all.
        + apply drop_while_stops. }
    destruct (Ascii.eqb c "?") eqn:Eq.
    { apply Ascii.eqb_eq in Eq; subst c. rewrite scan_question.
      eapply lex_token; [apply tok_positional | apply IH; lia]. }
    destruct (Ascii.eqb c "$") eqn:Edollar.
    { apply Ascii.eqb_eq in Edollar; subst c. rewrite scan_dollar.
      destruct (take_while is_digit s) as [|a ds] eqn:Eds.
      - apply lex_skip; [|apply IH; lia].
        intros m rest H. inversion H; subst.
        eapply take_while_nonempty; eauto.
      - eapply lex_token; [|apply IH, Hdrop].
        rewrite (take_drop_while is_digit s) at 1. rewrite Eds.
        apply tok_cross.
        + discriminate.
        + rewrite <- Eds. apply take_while_all.
        + apply drop_while_stops. }
    rewrite scan_plain by assumption.
    apply lex_skip; [|apply IH; lia].
    intros m rest. now apply no_token_plain.
Qed.

Lemma scan_lexes s : Lexes s (scan 0 s).
Proof. now apply (scan_lexes_bound (List.length s)). Qed.

Lemma drop_while_run p run rest :
  forallb p run = true -> stops p rest -> drop_while p (run ++ rest) = rest.
Proof.
  induction run as [|c run IH]; simpl; intros Hall Hstop.
  - destruct rest as [|c rest]; simpl; [reflexivity|].
    simpl in Hstop. now rewrite Hstop.
  - apply andb_true_iff in Hall as [Hc Hall]. rewrite Hc. now apply IH.
Qed.

Lemma scan_token s m rest :
  TokenAt s m rest -> scan 0 s = Match m :: scan 0 rest.
Proof.
  intros H. destruct H as [name rest Hne Hall Hstop| rest |ds rest Hne Hall Hstop].
  - rewrite scan_colon, take_while_run, drop_while_run by assumption.
    destruct name; [congruence | reflexivity].
  - apply scan_question.
  - rewrite scan_dollar, take_while_run, drop_while_run by assumption.
    destruct ds; [congruence | reflexivity].
Qed.

Lemma take_while_head p c s :
  take_while p (c :: s) = [] -> p c = false.
Proof. simpl. destruct (p c); [discriminate | reflexivity]. Qed.

Lemma token_colon s a name :
  take_while is_ident s = a :: name ->
  TokenAt (":"%char :: s) (string_of_list_ascii (":"%char :: a :: name))
          (drop_while is_ident s).
Proof.
  intros E. pose proof (take_drop_while is_ident s) as Hs. rewrite E in Hs.
  rewrite Hs at 1. apply tok_named;
    [discriminate | rewrite <- E; apply take_while_all | apply drop_while_stops].
Qed.

Lemma token_dollar s a ds :
  take_while is_digit s = a :: ds ->
  TokenAt ("$"%char :: s) (string_of_list_ascii ("$"%char :: a :: ds))
          (drop_while is_digit s).
Proof.
  intros E. pose proof (take_drop_while is_digit s) as Hs. rewrite E in Hs.
  rewrite Hs at 1. apply tok_cross;
    [discriminate | rewrite <- E; apply take_while_all | apply drop_while_stops].
Qed.

Lemma scan_no_token c s :
  (forall m rest, ~ TokenAt (c :: s) m rest) ->
  scan 0 (c :: s) = Lit c :: scan 0 s.
Proof.
  intros Hno.
  destruct (Ascii.eqb c ":") eqn:Ecolon.
  { apply Ascii.eqb_eq in Ecolon; subst c. rewrite scan_colon.
    destruct (take_while is_ident s) as [|a name] eqn:Ename; [reflexivity|].
    exfalso. eapply Hno, token_colon, Ename. }
  destruct (Ascii.eqb c "?") eqn:Eq.
  { apply Ascii.eqb_eq in Eq; subst c. exfalso. eapply Hno, tok_positional. }
  destruct (Ascii.eqb c "$") eqn:Edollar.
  { apply Ascii.eqb_eq in Edollar; subst c. rewrite scan_dollar.
    destruct (take_while is_digit s) as [|a ds] eqn:Eds; [reflexivity|].
    exfalso. eapply Hno, token_dollar, Eds. }
  now apply scan_plain.
Qed.

(** The reading is unique: the grammar leaves the scan no choice. *)
Lemma lexes_unique s ps : Lexes s ps -> ps = scan 0 s.
Proof.
  induction 1 as [|s m rest ps Htok _ IH|c s ps Hno _ IH].
  - reflexivity.
  - rewrite (scan_token _ _ _ Htok). now rewrite IH.
  - rewrite (scan_no_token _ _ Hno). now rewrite IH.
Qed.

(** ** The loop of [parseSql] *)

Lemma lexes_tokens s ps : Lexes s ps -> Forall IsToken (matches_of ps).
Proof.
  induction 1 as [|s m rest ps Htok _ IH|c s ps _ _ IH]; simpl.
  - constructor.
  - constructor; [now exists s, rest | exact IH].
  - exact IH.
Qed.

Lemma parseInt10_digits ds :
  ds <> [] -> forallb is_digit ds = true ->
  parseInt10 (string_of_list_ascii ds) = RIndex (decimal_value ds).
Proof.
  intros Hne Hall. unfold parseInt10.
  rewrite list_ascii_of_string_of_list_ascii.
  rewrite <- (app_nil_r ds) at 1.
  rewrite take_while_run by (assumption || exact I).
  destruct ds; [congruence | reflexivity].
Qed.

(** One turn of the loop on a token. *)
Lemma token_resolves i m :
  IsToken m ->
  exists r t,
    Resolves i m r t /\ charAt0 m = t /\
    (if t =? ":" then Ok (RName (substring1 m))
     else if t =? "$" then Ok (parseInt10 (substring1 m))
     else if t =? "?" then Ok (RIndex i)
     else Throw ErrParse) = Ok r.
Proof.
  intros (s & rest & H).
  destruct H as [name rest Hne Hall Hstop| rest |ds rest Hne Hall Hstop].
  - exists (RName (string_of_list_ascii name)), ":". simpl string_of_list_ascii.
    rewrite charAt0_String, substring1_String.
    repeat split. constructor.
  - exists (RIndex i), "?". repeat split. constructor.
  - exists (RIndex (decimal_value ds)), "$". simpl string_of_list_ascii.
    rewrite charAt0_String, substring1_String.
    repeat split; [now constructor|].
    simpl. now rewrite parseInt10_digits.
Qed.

Lemma parseMatches_spec ms :
  Forall IsToken ms ->
  forall i, exists refs types,
    parseMatches i ms = Ok (refs, types, types) /\
    List.length refs = List.length ms /\
    List.length types = List.length ms /\
    forall j m, nth_error ms j = Some m ->
      exists r t, nth_error refs j = Some r /\ nth_error types j = Some t /\
                  Resolves (i + j) m r t.
Proof.
  induction 1 as [|m ms Hm _ IH]; intros i.
  - exists [], []. repeat split; try reflexivity.
    intros [|j] m H; discriminate.
  - destruct (token_resolves i m Hm) as (r & t & Hres & Ht & Hbody).
    destruct (IH (S i)) as (refs & types & Hrun & Hlr & Hlt & Hnth).
    exists (r :: refs), (t :: types).
    cbn [parseMatches]. rewrite Ht, Hbody, Hrun.
    repeat split; simpl; try congruence.
    intros [|j] m' Hj; simpl in Hj.
    + inversion Hj; subst m'. exists r, t. rewrite Nat.add_0_r. now repeat split.
    + destruct (Hnth j m' Hj) as (r' & t' & ? & ? & Hres').
      exists r', t'. rewrite Nat.add_succ_r. now repeat split.
Qed.

Lemma pieces_lexes sql : Lexes (list_ascii_of_string sql) (pieces sql).
Proof. apply scan_lexes. Qed.

Lemma sql_match_matches sql :
  match sql_match sql with None => [] | Some ms => ms end
  = matches_of (pieces sql).
Proof. unfold sql_match. now destruct (matches_of (pieces sql)). Qed.

(** What [parseSql] returns, against the reading of the text. *)
Lemma parseSql_reading (sql : string) :
  exists p,
    parseSql sql = Ok p /\
    Lexes (list_ascii_of_string sql) (pieces sql) /\
    p_sql p = render "?" (pieces sql) /\
    List.length (p_paramRefs p) = List.length (p_paramTypes p) /\
    List.length (p_paramRefs p) = List.length (matches_of (pieces sql)) /\
    forall i m, nth_error (matches_of (pieces sql)) i = Some m ->
      exists r t,
        nth_error (p_paramRefs p) i = Some r /\
        nth_error (p_paramTypes p) i = Some t /\
        Resolves i m r t.
Proof.
  pose proof (pieces_lexes sql) as Hlex.
  destruct (parseMatches_spec _ (lexes_tokens _ _ Hlex) 0)
    as (refs & types & Hrun & Hlr & Hlt & Hnth).
  unfold parseSql. rewrite sql_match_matches, Hrun.
  eexists. split; [reflexivity|]. cbn [p_sql p_paramRefs p_paramTypes].
  repeat split; try assumption; try congruence.
Qed.


(** ** Operation construction *)

Lemma parseSql_styles sql p :
  parseSql sql = Ok p -> p_bindStyles p = p_paramTypes p.
Proof.
  pose proof (pieces_lexes sql) as Hlex.
  destruct (parseMatches_spec _ (lexes_tokens _ _ Hlex) 0)
    as (refs & types & Hrun & _).
  unfold parseSql. rewrite sql_match_matches, Hrun.
  intros H; inversion H; reflexivity.
Qed.

Lemma has_style_In styles k : In k styles -> has_style styles k = true.
Proof.
  intros H. apply existsb_exists. exists k. split; [exact H|].
  apply String.eqb_refl.
Qed.

Lemma In_matches m ps : In (Match m) ps -> In m (matches_of ps).
Proof.
  induction ps as [|[c|m'] ps IH]; simpl; intros H.
  - contradiction.
  - destruct H as [H|H]; [discriminate | auto].
  - destruct H as [H|H]; [inversion H; now left | right; auto].
Qed.

(** A token of a statement sets its style. *)
Lemma token_style sql p m r t i :
  parseSql sql = Ok p ->
  In (Match m) (pieces sql) -> Resolves i m r t ->
  has_style (p_bindStyles p) t = true.
Proof.
  intros Hp Hin Hres.
  destruct (parseSql_reading sql) as (p' & Hp' & _ & _ & _ & _ & Hnth).
  rewrite Hp in Hp'; inversion Hp'; subst p'.
  apply In_matches, In_nth_error in Hin as (j & Hj).
  destruct (Hnth j m Hj) as (r' & t' & _ & Ht & Hres').
  assert (t' = t) by (inversion Hres; subst; inversion Hres'; reflexivity).
  subst t'. rewrite (parseSql_styles _ _ Hp).
  apply has_style_In. eapply nth_error_In; eauto.
Qed.

Lemma pieces_nonempty sql m : In (Match m) (pieces sql) -> truthy (VStr sql) = true.
Proof. destruct sql; simpl; [contradiction | reflexivity]. Qed.

Section Construction.

Variable DB : Type.

Lemma stageAction_throws this opcode sql params dflt e (w : World DB) :
  doAction opcode sql params dflt = Throw e ->
  stageAction this opcode sql params dflt w = (Throw e, w).
Proof. intros H. unfold stageAction. now rewrite H. Qed.

(** C6. A statement whose reading has a [:identifier] token and a [?] token
    is refused by [doAction] with the mixed-styles error, a usage error,
    whatever the opcode and the parameters; each of the five staging
    methods throws it to its caller and leaves the world as it was: no
    stage has changed and no call has reached the driver. *)
Theorem mixed_styles_rejected (sql name : string) (ps : list Piece) :
  Lexes (list_ascii_of_string sql) ps ->
  In (Match (String ":" name)) ps ->
  In (Match "?") ps ->
  forall (opcode : Opcode) (params dflt : Value),
    doAction opcode (VStr sql) params dflt = Throw (ErrMixedStyles sql) /\
    error_class (ErrMixedStyles sql) = UsageError /\
    forall (this : StageRef) (w : World DB),
      stage_execute this (VStr sql) params w = (Throw (ErrMixedStyles sql), w) /\
      stage_query this (VStr sql) params w = (Throw (ErrMixedStyles sql), w) /\
      stage_queryInt this (VStr sql) params dflt w = (Throw (ErrMixedStyles sql), w) /\
      stage_queryFloat this (VStr sql) params dflt w = (Throw (ErrMixedStyles sql), w) /\
      stage_queryString this (VStr sql) params dflt w = (Throw (ErrMixedStyles sql), w).
Proof.
  intros Hlex Hnamed Hpos.
  apply lexes_unique in Hlex. fold (pieces sql) in Hlex. subst ps.
  assert (Hthrow : forall opcode params dflt,
             doAction opcode (VStr sql) params dflt = Throw (ErrMixedStyles sql)).
  { intros opcode params dflt. unfold doAction.
    rewrite (pieces_nonempty _ _ Hnamed). cbn [negb].
    destruct (parseSql_reading sql) as (p & Hp & _). rewrite Hp.
    rewrite (token_style sql p _ _ _ 0 Hp Hnamed (res_named 0 name)).
    rewrite (token_style sql p _ _ _ 0 Hp Hpos (res_positional 0)).
    reflexivity. }
  intros opcode params dflt. split; [apply Hthrow|]. split; [reflexivity|].
  intros this w.
  unfold stage_execute, stage_query, stage_queryInt, stage_queryFloat,
    stage_queryString.
  repeat split; apply stageAction_throws, Hthrow.
Qed.

End Construction.

Lemma mixed_styles_rejected_witness :
  Lexes (list_ascii_of_string "select :a, ?") (pieces "select :a, ?") /\
  In (Match ":a") (pieces "select :a, ?") /\
  In (Match "?") (pieces "select :a, ?") /\
  doAction OpQ (VStr "select :a, ?") (VArr [num_of_Z 1; num_of_Z 2]) VNull
  = Throw (ErrMixedStyles "select :a, ?").
Proof.
  assert (H1 : Lexes (list_ascii_of_string "select :a, ?") (pieces "select :a, ?"))
    by apply pieces_lexes.
  assert (H2 : In (Match ":a") (pieces "select :a, ?"))
    by (vm_compute; auto 20).
  assert (H3 : In (Match "?") (pieces "select :a, ?"))
    by (vm_compute; auto 20).
  split; [exact H1|]. split; [exact H2|]. split; [exact H3|].
  exact (proj1 (mixed_styles_rejected unit "select :a, ?" "a" _ H1 H2 H3
                  OpQ (VArr [num_of_Z 1; num_of_Z 2]) VNull)).
Defined.

(** ** Binding *)

Lemma bind_parsed explicitParams prior ms :
  Forall IsToken ms ->
  forall i refs types styles,
    parseMatches i ms = Ok (refs, types, styles) ->
    exists args,
      bindArgs refs types explicitParams prior = Ok args /\
      List.length args = List.length ms /\
      forall j m, nth_error ms j = Some m ->
        exists r t, Resolves (i + j) m r t /\
          nth_error args j = Some (get_ref (source_of t explicitParams prior) r).
Proof.
  induction 1 as [|m ms Hm Hms IH]; intros i refs types styles Hrun.
  - inversion Hrun; subst. exists []. repeat split.
    intros [|j] m H; discriminate.
  - destruct (token_resolves i m Hm) as (r & t & Hres & Ht & Hbody).
    destruct (parseMatches_spec ms Hms (S i)) as (refs' & types' & Hrun' & _).
    cbn [parseMatches] in Hrun. rewrite Ht, Hbody, Hrun' in Hrun.
    inversion Hrun; subst refs types styles.
    destruct (IH (S i) _ _ _ Hrun') as (args & Hbind & Hlen & Hnth).
    exists (get_ref (source_of t explicitParams prior) r :: args).
    split; [|split].
    + cbn [bindArgs]. rewrite Hbind.
      inversion Hres; subst; reflexivity.
    + simpl. congruence.
    + intros [|j] m' Hj; simpl in Hj.
      * inversion Hj; subst m'. exists r, t. rewrite Nat.add_0_r. now split.
      * destruct (Hnth j m' Hj) as (r' & t' & Hres' & Hj').
        exists r', t'. rewrite Nat.add_succ_r. now split.
Qed.

(** C10. In a statement whatever, the [?] token that is the [i]-th of all the
    placeholder tokens, [$digits] and [:name] tokens counted, binds element
    [i] of the array of explicit parameters ([undefined] beyond its end),
    while a [$digits] token binds the prior result the digits name.  So in
    [select $0 + ?] the only [?] is token 1 and receives the second element
    of the array, not the first. *)
Theorem positional_binds_token_index (sql : string) :
  exists p,
    parseSql sql = Ok p /\
    forall (xs prior : list Value),
    exists args,
      makeArgs (p_paramRefs p) (p_paramTypes p) (VArr xs) prior = Ok args /\
      List.length args = List.length (matches_of (pieces sql)) /\
      (forall i, nth_error (matches_of (pieces sql)) i = Some "?" ->
                 nth_error args i = Some (nth i xs VUndef)) /\
      (forall i ds, ds <> [] -> forallb is_digit ds = true ->
                 nth_error (matches_of (pieces sql)) i
                 = Some (String "$" (string_of_list_ascii ds)) ->
                 nth_error args i = Some (nth (decimal_value ds) prior VUndef)).
Proof.
  destruct (parseSql_reading sql) as (p & Hp & Hlex & _ & Hlen & _).
  exists p. split; [exact Hp|]. intros xs prior.
  pose proof (lexes_tokens _ _ Hlex) as Htok.
  destruct (parseMatches_spec _ Htok 0) as (refs & types & Hrun & _).
  destruct (bind_parsed (VArr xs) prior _ Htok 0 _ _ _ Hrun)
    as (args & Hbind & Hargs & Hnth).
  assert (Hrefs : p_paramRefs p = refs /\ p_paramTypes p = types).
  { unfold parseSql in Hp. rewrite sql_match_matches, Hrun in Hp.
    inversion Hp; split; reflexivity. }
  destruct Hrefs as [Hr Ht].
  exists args. unfold makeArgs. rewrite Hlen, Nat.eqb_refl. cbn [negb is_nullish].
  rewrite Hr, Ht. split; [exact Hbind|]. split; [exact Hargs|]. split.
  - intros i Hi. destruct (Hnth i _ Hi) as (r & t & Hres & Harg).
    rewrite Harg. inversion Hres; subst. reflexivity.
  - intros i ds Hne Hall Hi. destruct (Hnth i _ Hi) as (r & t & Hres & Harg).
    rewrite Harg. inversion Hres as [| |ds' Hne' Hall' Heq]; subst.
    apply (f_equal list_ascii_of_string) in Heq.
    rewrite !list_ascii_of_string_of_list_ascii in Heq. subst ds'.
    reflexivity.
Qed.

Example cross_reference_shifts_positional :
  exists p,
    parseSql "select $0 + ?" = Ok p /\
    makeArgs (p_paramRefs p) (p_paramTypes p)
             (VArr [VStr "first"; VStr "second"]) [num_of_Z 41]
    = Ok [num_of_Z 41; VStr "second"].
Proof. eexists. split; reflexivity. Qed.

(** ** The result coercer *)

Section Coercion.

Variable rt : Runtime.




End Coercion.

(** ** Traces *)

Lemma acquired_app a b : acquired (a ++ b) = acquired a ++ acquired b.
Proof.
  induction a as [|ev a IH]; simpl; [reflexivity|].
  destruct ev as [| ? ? [c|] | | | | | | |]; simpl; now rewrite IH.
Qed.

Lemma released_app a b : released (a ++ b) = released a ++ released b.
Proof.
  induction a as [|ev a IH]; simpl; [reflexivity|].
  destruct ev; simpl; now rewrite IH.
Qed.

Lemma executions_app a b : executions (a ++ b) = executions a ++ executions b.
Proof.
  induction a as [|ev a IH]; simpl; [reflexivity|].
  destruct ev; simpl; now rewrite IH.
Qed.

Lemma begun_app a b : begun (a ++ b) = begun a || begun b.
Proof. apply existsb_app. Qed.

Lemma after_failure_app a b :
  after_failure (a ++ b) =
  match after_failure a with
  | Some (c, e, post) => Some (c, e, post ++ b)
  | None => after_failure b
  end.
Proof.
  induction a as [|ev a IH]; simpl; [reflexivity|].
  destruct ev as [| | ? ? ? [e|] ? | | | | | |]; simpl; auto.
Qed.

Lemma Quiet_nil : Quiet [].
Proof. now repeat split. Qed.

Lemma Quiet_app a b : Quiet a -> Quiet b -> Quiet (a ++ b).
Proof.
  intros (A1 & A2 & A3 & A4) (B1 & B2 & B3 & B4). unfold Quiet.
  rewrite acquired_app, released_app, begun_app, after_failure_app.
  rewrite A1, A2, A3, A4, B1, B2, B3, B4. now repeat split.
Qed.

Lemma Quiet_OpTrace conn err evs : Quiet evs -> OpTrace conn err evs.
Proof. intros (A1 & A2 & A3 & A4). repeat split; auto. Qed.

Lemma OpTrace_app conn err a b :
  Quiet a -> OpTrace conn err b -> OpTrace conn err (a ++ b).
Proof.
  intros (A1 & A2 & A3 & A4) (B1 & B2 & B3 & B4). unfold OpTrace.
  rewrite acquired_app, released_app, begun_app, after_failure_app.
  rewrite A1, A2, A3, A4, B1, B2, B3. now repeat split.
Qed.

Section Orchestrator.

Variable DB : Type.
Variable drv : Driver DB.
Variable rt : Runtime.

Lemma Extends_refl (w : World DB) : Extends w w [].
Proof. unfold Extends. now rewrite app_nil_r. Qed.

Lemma Extends_trans (w w1 w2 : World DB) a b :
  Extends w w1 a -> Extends w1 w2 b -> Extends w w2 (a ++ b).
Proof.
  intros (A1 & A2 & A3) (B1 & B2 & B3). unfold Extends.
  rewrite B1, A1, B2, A2, B3, A3, app_assoc. now repeat split.
Qed.

Lemma run_ret {A} (a : A) (w : World DB) r w' :
  ret a w = (r, w') -> r = Ok a /\ w' = w.
Proof. unfold ret. intros H; inversion H; auto. Qed.

Lemma run_throw {A} e (w : World DB) (r : Res A) w' :
  throw e w = (r, w') -> r = Throw e /\ w' = w.
Proof. unfold throw. intros H; inversion H; auto. Qed.

Lemma run_bind {A B} (m : M DB A) (k : A -> M DB B) w r w' :
  bind m k w = (r, w') ->
  (exists a w1, m w = (Ok a, w1) /\ k a w1 = (r, w')) \/
  (exists e, m w = (Throw e, w') /\ r = Throw e).
Proof.
  unfold bind. destruct (m w) as [[a|e] w1]; intros H.
  - left. now exists a, w1.
  - right. inversion H; subst. now exists e.
Qed.

Lemma run_call {A} (ev : A -> Event) (f : DB -> A * DB) w r w' :
  call ev f w = (r, w') ->
  exists a, r = Ok a /\ f (w_db w) = (a, w_db w') /\ Extends w w' [ev a] /\
            w_pools w' = w_pools w.
Proof.
  unfold call. destruct (f (w_db w)) as [a db'] eqn:E. intros H.
  inversion H; subst; clear H. exists a. unfold Extends; simpl.
  repeat split; reflexivity.
Qed.

Lemma run_echo dbcfg verb sql args (w : World DB) r w' :
  echo dbcfg verb sql args w = (r, w') ->
  r = Ok tt /\ exists evs, Extends w w' evs /\ Quiet evs /\ executions evs = [] /\
                           w_db w' = w_db w /\ w_pools w' = w_pools w.
Proof.
  unfold echo, emit, ret. destruct (truthy (get_prop dbcfg "echo"));
    intros H; inversion H; subst; clear H; (split; [reflexivity|]).
  - exists [EvLog verb sql args]. unfold Extends; simpl. now repeat split.
  - exists []. split; [apply Extends_refl|]. now repeat split.
Qed.

Lemma run_escape {A} caught e (w : World DB) (r : Res (Error + A)) w' :
  escape caught e w = (r, w') ->
  w' = w /\ (r = Ok (inl e) \/ r = Throw e).
Proof.
  unfold escape, ret, throw. destruct caught; intros H; inversion H; auto.
Qed.

Lemma Quiet_exec_ok c sql args raw : Quiet [EvExecute c sql args None raw].
Proof. now repeat split. Qed.

Lemma OpTrace_exec_failed c sql args e raw :
  OpTrace (Some c) e [EvExecute c sql args (Some e) raw].
Proof. repeat split. right. now exists c. Qed.

Lemma OpResult_app {A} conn (r : Res (Error + A)) a b :
  Quiet a -> OpResult conn r b -> OpResult conn r (a ++ b).
Proof.
  intros Ha. destruct r as [[e|v]|e]; simpl; auto using Quiet_app, OpTrace_app.
Qed.

Lemma execLoop_trace conn dbcfg op prior rows :
  forall caught total w r w',
    execLoop drv conn dbcfg op prior caught rows total w = (r, w') ->
    exists evs, Extends w w' evs /\ w_pools w' = w_pools w /\ OpResult conn r evs.
Proof.
  induction rows as [|pv rows IH]; intros caught total w r w' H; cbn [execLoop] in H.
  - apply run_ret in H as [-> ->]. exists []. split; [apply Extends_refl|].
    split; [reflexivity | apply Quiet_nil].
  - destruct (makeArgs (paramRefs op) (paramTypes op) pv prior) as [args|e].
    2:{ apply run_escape in H as [-> [-> | ->]]; exists [];
        (split; [apply Extends_refl|]); (split; [reflexivity|]); simpl; auto.
        apply Quiet_OpTrace, Quiet_nil. }
    apply run_bind in H as [(u & w1 & Hecho & H)|(e & Hecho & _)].
    2:{ apply run_echo in Hecho as [? _]; discriminate. }
    apply run_echo in Hecho as (_ & evs1 & Hext1 & Hq1 & _ & _ & Hp1).
    destruct conn as [c|].
    2:{ apply run_escape in H as [-> [-> | ->]]; exists evs1;
        (split; [exact Hext1|]); (split; [exact Hp1|]); simpl; auto.
        now apply Quiet_OpTrace. }
    apply run_bind in H as [(a & w2 & Hcall & H)|(e & Hcall & _)].
    2:{ apply run_call in Hcall as (? & ? & _); discriminate. }
    apply run_call in Hcall as (a' & Ha & _ & Hext2 & Hp2).
    inversion Ha; subst a'; clear Ha.
    destruct a as [[e|] raw]; cbn [fst snd] in Hext2.
    + apply run_ret in H as [-> ->].
      exists (evs1 ++ [EvExecute c (sql op) args (Some e) raw]).
      split; [eapply Extends_trans; eauto|]. split; [congruence|].
      apply (@OpResult_app Value); [exact Hq1 | apply OpTrace_exec_failed].
    + apply IH in H as (evs3 & Hext3 & Hp3 & Hres).
      exists (evs1 ++ [EvExecute c (sql op) args None raw] ++ evs3).
      split; [eapply Extends_trans; [eauto|eapply Extends_trans; eauto]|].
      split; [congruence|].
      apply OpResult_app; [exact Hq1|].
      apply OpResult_app; [apply Quiet_exec_ok | exact Hres].
Qed.

Lemma queryLoop_trace conn dbcfg op prior rows :
  forall caught acc w r w',
    queryLoop drv rt conn dbcfg op prior caught rows acc w = (r, w') ->
    exists evs, Extends w w' evs /\ w_pools w' = w_pools w /\ OpResult conn r evs.
Proof.
  induction rows as [|pv rows IH]; intros caught acc w r w' H; cbn [queryLoop] in H.
  - apply run_ret in H as [-> ->]. exists []. split; [apply Extends_refl|].
    split; [reflexivity | apply Quiet_nil].
  - destruct (makeArgs (paramRefs op) (paramTypes op) pv prior) as [args|e].
    2:{ apply run_escape in H as [-> [-> | ->]]; exists [];
        (split; [apply Extends_refl|]); (split; [reflexivity|]); simpl; auto.
        apply Quiet_OpTrace, Quiet_nil. }
    apply run_bind in H as [(u & w1 & Hecho & H)|(e & Hecho & _)].
    2:{ apply run_echo in Hecho as [? _]; discriminate. }
    apply run_echo in Hecho as (_ & evs1 & Hext1 & Hq1 & _ & _ & Hp1).
    destruct conn as [c|].
    2:{ apply run_escape in H as [-> [-> | ->]]; exists evs1;
        (split; [exact Hext1|]); (split; [exact Hp1|]); simpl; auto.
        now apply Quiet_OpTrace. }
    apply run_bind in H as [(a & w2 & Hcall & H)|(e & Hcall & _)].
    2:{ apply run_call in Hcall as (? & ? & _); discriminate. }
    apply run_call in Hcall as (a' & Ha & _ & Hext2 & Hp2).
    inversion Ha; subst a'; clear Ha.
    destruct a as [[e|] raw]; cbn [fst snd] in Hext2.
    + apply run_ret in H as [-> ->].
      exists (evs1 ++ [EvExecute c (sql op) args (Some e) raw]).
      split; [eapply Extends_trans; eauto|]. split; [congruence|].
      apply (@OpResult_app Value); [exact Hq1 | apply OpTrace_exec_failed].
    + destruct (formatResult rt op raw) as [v|e].
      2:{ apply run_throw in H as [-> ->].
          exists (evs1 ++ [EvExecute c (sql op) args None raw]).
          split; [eapply Extends_trans; eauto|]. split; [congruence|].
          exact I. }
      apply IH in H as (evs3 & Hext3 & Hp3 & Hres).
      exists (evs1 ++ [EvExecute c (sql op) args None raw] ++ evs3).
      split; [eapply Extends_trans; [eauto|eapply Extends_trans; eauto]|].
      split; [congruence|].
      apply OpResult_app; [exact Hq1|].
      apply OpResult_app; [apply Quiet_exec_ok | exact Hres].
Qed.

Lemma runOp_trace conn dbcfg op prior w r w' :
  runOp drv rt conn dbcfg op prior w = (r, w') ->
  exists evs, Extends w w' evs /\ w_pools w' = w_pools w /\ OpResult conn r evs.
Proof.
  unfold runOp, doExecute, doQuery.
  destruct (opcode op); eauto using execLoop_trace, queryLoop_trace.
Qed.

Lemma fillInResults_spec conn dbcfg ops :
  forall prior w r w',
    fillInResults drv rt conn dbcfg ops prior w = (r, w') ->
    exists evs, Extends w w' evs /\
      match r with
      | Ok (None, out) =>
        Quiet evs /\
        exists rs, out = prior ++ rs /\
                   RunsInOrder drv rt conn dbcfg ops prior w rs w'
      | Ok (Some e, _) => OpTrace conn e evs
      | Throw _ => True
      end.
Proof.
  induction ops as [|op ops IH]; intros prior w r w' H; cbn [fillInResults] in H.
  - apply run_ret in H as [-> ->]. exists []. split; [apply Extends_refl|].
    split; [apply Quiet_nil|]. exists []. rewrite app_nil_r. split; [reflexivity|].
    constructor.
  - apply run_bind in H as [(a & w1 & Hop & H)|(e & Hop & ->)].
    2:{ apply runOp_trace in Hop as (evs & Hext & _). now exists evs. }
    pose proof Hop as Hop'.
    apply runOp_trace in Hop' as (evs1 & Hext1 & _ & Hres1).
    destruct a as [e|v].
    + apply run_ret in H as [-> ->]. exists evs1. split; [exact Hext1|].
      exact Hres1.
    + apply IH in H as (evs2 & Hext2 & Hres2). exists (evs1 ++ evs2).
      split; [eapply Extends_trans; eauto|]. simpl in Hres1.
      destruct r as [[[e|] out]|e]; [| |exact I].
      * now apply OpTrace_app.
      * destruct Hres2 as (Hq2 & rs & -> & Hruns).
        split; [now apply Quiet_app|]. exists (v :: rs).
        rewrite <- app_assoc. split; [reflexivity|].
        econstructor; eauto.
Qed.


Lemma finalize_spec singular results started conn err w r w' :
  finalize drv singular results started conn err w = (r, w') ->
  r = Ok (Delivered err (if singular then nth 0 results VUndef else VArr results))
  /\ exists fin, Extends w w' fin /\ FinalEvents conn started fin.
Proof.
  unfold finalize, releaseConnection. intros H. destruct conn as [c|].
  2:{ apply run_ret in H as [-> ->]. split; [reflexivity|].
      exists []. split; [apply Extends_refl | reflexivity]. }
  destruct started.
  - unfold bind, call, ret in H.
    destruct (rollback drv c (w_db w)) as [re db1]. cbn in H.
    destruct (release drv c db1) as [rl db2]. cbn in H.
    inversion H; subst; clear H. split; [reflexivity|].
    eexists. split; [|exists rl, re; reflexivity].
    unfold Extends; simpl. rewrite <- app_assoc. now repeat split.
  - unfold bind, call, ret in H. cbn in H.
    destruct (release drv c (w_db w)) as [rl db2]. cbn in H.
    inversion H; subst; clear H. split; [reflexivity|].
    eexists. split; [|exists rl; reflexivity].
    unfold Extends; simpl. now repeat split.
Qed.

Lemma begun_final conn started fin :
  FinalEvents conn started fin -> begun fin = false.
Proof.
  destruct conn as [c|]; simpl; [|intros ->; reflexivity].
  intros (rl & H). destruct started; [destruct H as (re & ->)|subst fin];
    reflexivity.
Qed.

Lemma PreTrace_final conn started err pre fin :
  PreTrace conn started err pre -> FinalEvents conn started fin ->
  FinaleTrace err (pre ++ fin).
Proof.
  intros (Hrel & Hacq & Hbeg & Hfail) Hfin.
  pose proof (begun_final _ _ _ Hfin) as Hbf.
  unfold FinaleTrace.
  rewrite acquired_app, released_app, begun_app, after_failure_app.
  rewrite Hrel, Hacq, Hbeg, Hbf, orb_false_r.
  destruct conn as [c|]; simpl in Hfin.
  - destruct Hfin as (rl & Hfin).
    assert (Hshape : exists rb, fin = rb ++ [EvRelease c rl] /\
                       released fin = [c] /\ acquired fin = [] /\
                       after_failure fin = None /\
                       (started = true -> exists re, rb = [EvRollback c re]) /\
                       (started = false -> rb = [])).
    { destruct started.
      - destruct Hfin as (re & ->). exists [EvRollback c re].
        repeat split; try reflexivity; [now exists re | discriminate].
      - subst fin. exists []. repeat split; try reflexivity. discriminate. }
    destruct Hshape as (rb & Hfin' & Hr & Ha & Haf & Hst & Hnst).
    rewrite Hr, Ha, Haf. split; [reflexivity|]. split.
    + intros c' [<-|[]]. exists (pre ++ rb), rl. rewrite Hfin'.
      now rewrite app_assoc.
    + intros c' e post Hpost.
      destruct Hfail as [Hnone|(c0 & e0 & Hc0 & -> & Hsome)].
      * rewrite Hnone in Hpost. discriminate.
      * rewrite Hsome in Hpost. cbn [app] in Hpost.
        injection Hpost as Hc' He Hp. subst e post.
        assert (c0 = c') by congruence. subst c0.
        assert (c' = c) by congruence. subst c'.
        split; [reflexivity|]. exists rl. rewrite Hfin'.
        destruct started.
        -- left. split; [reflexivity|]. destruct (Hst eq_refl) as (re & ->).
           now exists re.
        -- right. split; [reflexivity|]. now rewrite (Hnst eq_refl).
  - subst fin. simpl. split; [reflexivity|]. split; [intros c []|].
    intros c e post Hpost.
    destruct Hfail as [Hnone|(c0 & e0 & Hc0 & _)]; [|discriminate].
    rewrite Hnone in Hpost. discriminate.
Qed.

Lemma getPool_spec dbcfg w r w' :
  getPool drv rt dbcfg w = (r, w') ->
  exists a, r = Ok a /\ exists evs, Extends w w' evs /\ Quiet evs.
Proof.
  unfold getPool. destruct (negb (truthy dbcfg)).
  { intros H. apply run_ret in H as [-> ->]. eexists. split; [reflexivity|].
    exists []. split; [apply Extends_refl | apply Quiet_nil]. }
  unfold bind, world.
  destruct (lookup_pool (pool_key rt dbcfg) (w_pools w)) as [pool|].
  { intros H. apply run_ret in H as [-> ->]. eexists. split; [reflexivity|].
    exists []. split; [apply Extends_refl | apply Quiet_nil]. }
  unfold call. destruct (createPool drv dbcfg (w_db w)) as [[pool|e] db'].
  - unfold set_db_pools, ret. intros H; inversion H; subst; clear H.
    eexists. split; [reflexivity|]. exists [EvCreatePool dbcfg (Ok pool)].
    split; [|now repeat split]. unfold Extends; simpl. now repeat split.
  - unfold ret. intros H; inversion H; subst; clear H.
    eexists. split; [reflexivity|]. exists [EvCreatePool dbcfg (Throw e)].
    split; [|now repeat split]. unfold Extends; simpl. now repeat split.
Qed.

Lemma getConnectionOf_spec pool w r w' :
  getConnectionOf drv pool w = (r, w') ->
  exists err conn, r = Ok (err, conn) /\
    exists evs, Extends w w' evs /\
      released evs = [] /\ begun evs = false /\ after_failure evs = None /\
      acquired evs = match conn with Some c => [c] | None => [] end.
Proof.
  unfold getConnectionOf. destruct pool as [p|].
  - intros H. apply run_call in H as ([err conn] & -> & _ & Hext & _).
    exists err, conn. split; [reflexivity|]. eexists. split; [exact Hext|].
    cbn [fst snd]. destruct conn; now repeat split.
  - intros H. apply run_ret in H as [-> ->]. exists (Some ErrNullPool), None.
    split; [reflexivity|]. exists []. split; [apply Extends_refl|].
    now repeat split.
Qed.

Lemma PreTrace_app conn st err pre b :
  PreTrace conn st None pre ->
  released b = [] -> acquired b = [] -> after_failure b = None ->
  PreTrace conn (st || begun b) err (pre ++ b).
Proof.
  intros (Hrel & Hacq & Hbeg & Hfail) B1 B2 B3. unfold PreTrace.
  rewrite acquired_app, released_app, begun_app, after_failure_app.
  rewrite Hrel, Hacq, Hbeg, B1, B2, B3, !app_nil_r.
  split; [reflexivity|]. split; [reflexivity|]. split; [reflexivity|]. left.
  destruct Hfail as [->|(c & e & _ & He & _)]; [reflexivity | discriminate].
Qed.

Lemma PreTrace_quiet conn st err pre b :
  PreTrace conn st None pre -> Quiet b -> PreTrace conn st err (pre ++ b).
Proof.
  intros Hpre (B1 & B2 & B3 & B4).
  rewrite <- (orb_false_r st), <- B3. now apply PreTrace_app.
Qed.

Lemma PreTrace_op conn st e pre b :
  PreTrace conn st None pre -> OpTrace conn e b ->
  PreTrace conn st (Some e) (pre ++ b).
Proof.
  intros (Hrel & Hacq & Hbeg & Hfail) (B1 & B2 & B3 & B4). unfold PreTrace.
  rewrite acquired_app, released_app, begun_app, after_failure_app.
  rewrite Hrel, Hacq, Hbeg, B1, B2, B3, !app_nil_r, orb_false_r.
  split; [reflexivity|]. split; [reflexivity|]. split; [reflexivity|].
  destruct Hfail as [->|(c & e' & _ & He & _)]; [|discriminate].
  destruct B4 as [->|(c & -> & ->)]; [now left|].
  right. now exists c, e.
Qed.

Lemma PreTrace_weaken conn st err pre :
  PreTrace conn st None pre -> PreTrace conn st err pre.
Proof.
  intros H. rewrite <- (app_nil_r pre). apply PreTrace_quiet; [exact H|].
  apply Quiet_nil.
Qed.

Lemma PreTrace_connect conn pe gc :
  Quiet pe ->
  released gc = [] -> begun gc = false -> after_failure gc = None ->
  acquired gc = match conn with Some c => [c] | None => [] end ->
  PreTrace conn false None (pe ++ gc).
Proof.
  intros (A1 & A2 & A3 & A4) B1 B2 B3 B4. unfold PreTrace.
  rewrite acquired_app, released_app, begun_app, after_failure_app.
  rewrite A1, A2, A3, A4, B1, B2, B3, B4.
  split; [reflexivity|]. split; [reflexivity|]. split; [reflexivity|]. now left.
Qed.

(** A leaf of [runFinale]: [finalize] after a trace [pre] that has failed. *)
Lemma leaf_failed dbcfg ops singular results started conn e w wk w' r pre :
  Extends w wk pre ->
  PreTrace conn started (Some e) pre ->
  finalize drv singular results started conn (Some e) wk = (r, w') ->
  FinaleSpec drv rt dbcfg ops w w' r.
Proof.
  intros Hext Hpre H. apply finalize_spec in H as (-> & fin & Hextf & Hfin).
  exists (pre ++ fin). split; [eapply Extends_trans; eauto|].
  intros err rv Heq. inversion Heq; subst; clear Heq.
  split; [|discriminate]. eapply PreTrace_final; eauto.
Qed.

Lemma leaf_thrown dbcfg ops w wk e pre :
  Extends w wk pre -> FinaleSpec drv rt dbcfg ops w wk (Throw e).
Proof. intros Hext. exists pre. split; [exact Hext|]. discriminate. Qed.

Lemma runFinale_spec dbcfg bTransact ops w r w' :
  runFinale drv rt dbcfg bTransact ops w = (r, w') ->
  FinaleSpec drv rt dbcfg ops w w' r.
Proof.
  unfold runFinale. intros H.
  apply run_bind in H as [(a & w1 & Hpool & H)|(e & Hpool & ->)].
  2:{ apply getPool_spec in Hpool as (a & Ha & _). discriminate. }
  apply getPool_spec in Hpool as (a' & Ha & pe & Hext1 & Hq1).
  inversion Ha; subst a'; clear Ha.
  destruct a as [[e|] pool].
  { eapply leaf_failed; [exact Hext1| |exact H].
    rewrite <- (app_nil_r pe). apply PreTrace_weaken.
    now apply PreTrace_connect. }
  apply run_bind in H as [(a & w2 & Hconn & H)|(e & Hconn & ->)].
  2:{ apply getConnectionOf_spec in Hconn as (? & ? & Ha & _). discriminate. }
  apply getConnectionOf_spec in Hconn
    as (err0 & conn & Ha & gc & Hext2 & G1 & G2 & G3 & G4).
  inversion Ha; subst a; clear Ha.
  pose proof (Extends_trans _ _ _ _ _ Hext1 Hext2) as Hext.
  pose proof (PreTrace_connect conn pe gc Hq1 G1 G2 G3 G4) as Hpre.
  clear Hext1 Hext2 Hq1 G1 G2 G3 G4.
  destruct err0 as [e|].
  { eapply leaf_failed; [exact Hext| |exact H]. now apply PreTrace_weaken. }
  destruct (doAction OpE (VStr (setCommitSql bTransact)) VUndef VUndef)
    as [setCommitOp|e].
  2:{ apply run_throw in H as [-> ->]. eapply leaf_thrown, Hext. }
  apply run_bind in H as [(a & w3 & Hset & H)|(e & Hset & ->)].
  2:{ apply execLoop_trace in Hset as (evs & Hext3 & _).
      eapply leaf_thrown, Extends_trans; eauto. }
  apply execLoop_trace in Hset as (sc & Hext3 & _ & Hres3).
  pose proof (Extends_trans _ _ _ _ _ Hext Hext3) as Hext'.
  clear Hext Hext3.
  destruct a as [e|v]; simpl in Hres3.
  { eapply leaf_failed; [exact Hext'| |exact H]. now apply PreTrace_op. }
  pose proof (PreTrace_quiet conn false None _ _ Hpre Hres3) as Hpre'.
  clear Hpre Hres3.
  destruct bTransact.
  - destruct conn as [c|].
    2:{ apply run_throw in H as [-> ->]. eapply leaf_thrown, Hext'. }
    apply run_bind in H as [(berr & w4 & Hbegin & H)|(e & Hbegin & ->)].
    2:{ apply run_call in Hbegin as (? & ? & _); discriminate. }
    apply run_call in Hbegin as (a' & Ha & _ & Hext4 & _).
    inversion Ha; subst a'; clear Ha.
    pose proof (Extends_trans _ _ _ _ _ Hext' Hext4) as Hext.
    clear Hext' Hext4.
    destruct berr as [e|].
    { eapply leaf_failed; [exact Hext| |exact H].
      now apply (PreTrace_app (Some c) false (Some e) _ [EvBegin c (Some e)]). }
    assert (Hpre : PreTrace (Some c) true None
                     (((pe ++ gc) ++ sc) ++ [EvBegin c None]))
      by now apply (PreTrace_app (Some c) false None _ [EvBegin c None]).
    clear Hpre'.
    apply run_bind in H as [(a & w5 & Hfill & H)|(e & Hfill & ->)].
    2:{ apply fillInResults_spec in Hfill as (evs & Hext5 & _).
        eapply leaf_thrown, Extends_trans; eauto. }
    pose proof Hfill as Hfill'.
    apply fillInResults_spec in Hfill' as (fl & Hext5 & Hres5).
    pose proof (Extends_trans _ _ _ _ _ Hext Hext5) as Hext'.
    pose proof Hext as Hstart. clear Hext Hext5.
    destruct a as [[e|] results].
    { eapply leaf_failed; [exact Hext'| |exact H]. now apply PreTrace_op. }
    destruct Hres5 as (Hq5 & rs & Hrs & Hruns). simpl in Hrs. subst results.
    apply run_bind in H as [(cerr & w6 & Hcommit & H)|(e & Hcommit & ->)].
    2:{ apply run_call in Hcommit as (? & ? & _); discriminate. }
    apply run_call in Hcommit as (a' & Ha & _ & Hext6 & _).
    inversion Ha; subst a'; clear Ha.
    pose proof (Extends_trans _ _ _ _ _ Hext' Hext6) as Hext.
    apply finalize_spec in H as (-> & fin & Hextf & Hfin).
    eexists. split; [eapply Extends_trans; [exact Hext | exact Hextf]|].
    intros err rv Heq. inversion Heq; subst; clear Heq. split.
    + eapply PreTrace_final; [|exact Hfin].
      apply (PreTrace_app (Some c) true err _ [EvCommit c err]);
        try reflexivity.
      now apply PreTrace_quiet.
    + intros _. exists (Some c), w4, w5, rs. do 2 eexists.
      split; [exact Hstart|]. split; [exact Hruns|].
      split; [eapply Extends_trans; [exact Hext6 | exact Hextf] | reflexivity].
  - apply run_bind in H as [(a & w5 & Hfill & H)|(e & Hfill & ->)].
    2:{ apply fillInResults_spec in Hfill as (evs & Hext5 & _).
        eapply leaf_thrown, Extends_trans; eauto. }
    pose proof Hfill as Hfill'.
    apply fillInResults_spec in Hfill' as (fl & Hext5 & Hres5).
    pose proof (Extends_trans _ _ _ _ _ Hext' Hext5) as Hext.
    pose proof Hext' as Hstart. clear Hext' Hext5.
    destruct a as [[e|] results]; cbn [fst snd] in H.
    { eapply leaf_failed; [exact Hext| |exact H]. now apply PreTrace_op. }
    destruct Hres5 as (Hq5 & rs & Hrs & Hruns). simpl in Hrs. subst results.
    apply finalize_spec in H as (-> & fin & Hextf & Hfin).
    eexists. split; [eapply Extends_trans; [exact Hext | exact Hextf]|].
    intros err rv Heq. inversion Heq; subst; clear Heq. split.
    + eapply PreTrace_final; [|exact Hfin]. now apply PreTrace_quiet.
    + intros _. exists conn, w3, w5, rs. do 2 eexists.
      split; [exact Hstart|]. split; [exact Hruns|].
      split; [exact Hextf | reflexivity].
Qed.

(** ** The guards of [doFinale] *)

Lemma doFinale_unfold dbcfg bTransact ops cb w :
  doFinale drv rt dbcfg bTransact ops cb w =
  if w_closing w then invoke cb ErrClosing w
  else if negb (truthy dbcfg) then invoke cb ErrNoConfig w
  else match nth_error (w_stages w) ops with
       | None => invoke cb ErrNoOps w
       | Some st =>
         match cb with
         | CbValue _ => invoke cb ErrNoCallback w
         | CbFunction =>
           if st_finaleComplete st then invoke cb ErrAlreadyFinalized w
           else runFinale drv rt dbcfg bTransact (st_ops st) (mark ops w)
         end
       end.
Proof.
  unfold doFinale, bind, isClosing, world.
  destruct (w_closing w); [reflexivity|].
  destruct (negb (truthy dbcfg)); [reflexivity|].
  destruct (nth_error (w_stages w) ops) as [st|]; [|reflexivity].
  destruct cb; [|reflexivity].
  destruct (st_finaleComplete st); reflexivity.
Qed.

Lemma invoke_function e (w : World DB) :
  invoke CbFunction e w = (Ok (Delivered (Some e) VUndef), w).
Proof. reflexivity. Qed.

Lemma invoke_value v e (w : World DB) :
  invoke (CbValue v) e w = (Throw not_a_function, w).
Proof. reflexivity. Qed.

(** Every run of [doFinale]: a guard answers and the world stays as it is,
    or the stage is marked and [runFinale] runs. *)
Lemma doFinale_spec dbcfg bTransact ops cb w r w' :
  doFinale drv rt dbcfg bTransact ops cb w = (r, w') ->
  (w' = w /\
   (r = Throw not_a_function \/
    exists e, r = Ok (Delivered (Some e) VUndef))) \/
  (exists st, nth_error (w_stages w) ops = Some st /\
              w_closing w = false /\ truthy dbcfg = true /\
              st_finaleComplete st = false /\ cb = CbFunction /\
              FinaleSpec drv rt dbcfg (st_ops st) (mark ops w) w' r).
Proof.
  rewrite doFinale_unfold. intros H.
  assert (Hguard : forall e, invoke cb e w = (r, w') ->
            w' = w /\ (r = Throw not_a_function \/
                       exists e, r = Ok (Delivered (Some e) VUndef))).
  { intros e He. destruct cb; inversion He; subst; split; eauto. }
  destruct (w_closing w) eqn:Hc; [left; eauto|].
  destruct (truthy dbcfg) eqn:Ht; cbn [negb] in H; [|left; eauto].
  destruct (nth_error (w_stages w) ops) as [st|] eqn:Hst; [|left; eauto].
  destruct cb as [|v]; [|left; eauto].
  destruct (st_finaleComplete st) eqn:Hf; [left; eauto|].
  right. exists st. repeat split; auto. eapply runFinale_spec, H.
Qed.

Lemma mark_trace ops (w : World DB) : w_trace (mark ops w) = w_trace w.
Proof. reflexivity. Qed.



(** C9 (the code at a call without callback). Whatever the state, a
    finalization whose callback is not a function ends in the [TypeError] of
    calling it: [doFinale] hands the error it has made to the very value it
    found not to be a function.  No callback is reached and nothing else
    happens. *)
Theorem finale_without_callback dbcfg bTransact ops v w :
  doFinale drv rt dbcfg bTransact ops (CbValue v) w = (Throw not_a_function, w).
Proof.
  rewrite doFinale_unfold.
  destruct (w_closing w); [reflexivity|].
  destruct (negb (truthy dbcfg)); [reflexivity|].
  destruct (nth_error (w_stages w) ops); reflexivity.
Qed.

(** ** What later calls preserve *)

Lemma Later_refl (w : World DB) : Later w w.
Proof. split; [|auto]. intros i st H. now exists st. Qed.

Lemma Later_trans (w1 w2 w3 : World DB) :
  Later w1 w2 -> Later w2 w3 -> Later w1 w3.
Proof.
  intros [A1 A2] [B1 B2]. split; [|auto].
  intros i st H. destruct (A1 i st H) as (st' & H' & Hc & Hf).
  destruct (B1 i st' H') as (st'' & H'' & Hc' & Hf').
  exists st''. repeat split; [assumption | congruence | auto].
Qed.

Lemma Later_same (w w' : World DB) :
  w_stages w' = w_stages w -> w_closing w' = w_closing w -> Later w w'.
Proof.
  intros Hs Hc. split; [|congruence]. intros i st H. exists st.
  rewrite Hs. auto.
Qed.

Lemma mark_finale_nth sts : forall i j st,
  nth_error sts j = Some st ->
  exists st', nth_error (mark_finale i sts) j = Some st' /\
              st_cfg st' = st_cfg st /\
              (st_finaleComplete st = true -> st_finaleComplete st' = true) /\
              (i = j -> st_finaleComplete st' = true).
Proof.
  induction sts as [|s0 sts IH]; intros i j st H.
  - destruct j; discriminate.
  - destruct i as [|i], j as [|j]; simpl in H |- *.
    + inversion H; subst. eexists. split; [reflexivity|]. simpl. auto.
    + exists st. repeat split; auto. discriminate.
    + inversion H; subst. exists st. repeat split; auto. discriminate.
    + destruct (IH i j st H) as (st' & H' & Hc & Hf & Hm).
      exists st'. repeat split; auto.
Qed.

Lemma push_op_nth op sts : forall i j st,
  nth_error sts j = Some st ->
  exists st', nth_error (push_op i op sts) j = Some st' /\
              st_cfg st' = st_cfg st /\
              st_finaleComplete st' = st_finaleComplete st.
Proof.
  induction sts as [|s0 sts IH]; intros i j st H.
  - destruct j; discriminate.
  - destruct i as [|i], j as [|j]; simpl in H |- *.
    + inversion H; subst. eexists. split; [reflexivity|]. simpl. auto.
    + exists st. auto.
    + inversion H; subst. exists st. auto.
    + apply IH, H.
Qed.

Lemma Later_mark ops (w : World DB) : Later w (mark ops w).
Proof.
  split; [|auto]. intros i st H.
  destruct (mark_finale_nth _ ops i st H) as (st' & H' & Hc & Hf & _).
  now exists st'.
Qed.

Lemma Extends_Later (w w' : World DB) evs : Extends w w' evs -> Later w w'.
Proof. intros (_ & Hs & Hc). now apply Later_same. Qed.

Lemma closeNextPool_frame callback pools :
  forall w r w', closeNextPool drv callback pools w = (r, w') ->
                 w_stages w' = w_stages w /\ w_closing w' = w_closing w.
Proof.
  induction pools as [|[p|] pools IH]; intros w r w' H; cbn [closeNextPool] in H.
  - destruct callback; inversion H; auto.
  - apply run_bind in H as [(u & w1 & Hcall & H)|(e & Hcall & _)].
    + apply run_call in Hcall as (_ & _ & _ & (_ & Hs & Hc) & _).
      apply IH in H as [Hs' Hc']. split; congruence.
    + apply run_call in Hcall as (? & ? & _). discriminate.
  - inversion H; auto.
Qed.

Lemma curtains_closing callback w :
  w_closing (snd (curtains drv callback w)) = true /\
  w_stages (snd (curtains drv callback w)) = w_stages w.
Proof.
  unfold curtains, doCurtains, bind, set_closing, world.
  match goal with
  | |- context [closeNextPool drv ?cb ?ps ?w0] =>
    destruct (closeNextPool drv cb ps w0) as [r w'] eqn:E
  end.
  apply closeNextPool_frame in E as [Hs Hc]. simpl in Hs, Hc. simpl. auto.
Qed.

Lemma doFinale_Later dbcfg bTransact ops cb w :
  Later w (snd (doFinale drv rt dbcfg bTransact ops cb w)).
Proof.
  destruct (doFinale drv rt dbcfg bTransact ops cb w) as [r w'] eqn:E.
  apply doFinale_spec in E as [(-> & _)|(st & _ & _ & _ & _ & _ & evs & Hext & _)].
  - apply Later_refl.
  - simpl. eapply Later_trans; [apply Later_mark | eapply Extends_Later, Hext].
Qed.

Lemma stage_finale_unfold this callback autocommit w st :
  nth_error (w_stages w) this = Some st ->
  stage_finale drv rt this callback autocommit w =
  doFinale drv rt (st_cfg st) (negb (truthy autocommit)) this callback w.
Proof. intros H. unfold stage_finale, bind, world. now rewrite H. Qed.

Lemma step_Later a w : Later w (step drv rt a w).
Proof.
  destruct a as [cfg|this opcode sql params dflt|this callback autocommit|callback];
    cbn [step].
  - unfold stage, bind, world, set_stages, ret. simpl. split; [|auto].
    intros i st H. exists st. simpl. repeat split; auto.
    rewrite nth_error_app1; [exact H|]. apply nth_error_Some. congruence.
  - unfold stageAction. destruct (doAction opcode sql params dflt) as [op|e].
    + unfold bind, world, set_stages. simpl. split; [|auto].
      intros i st H. simpl.
      destruct (push_op_nth op _ this i st H) as (st' & H' & Hc & Hf).
      exists st'. repeat split; auto. congruence.
    + apply Later_refl.
  - destruct (nth_error (w_stages w) this) as [st|] eqn:Hst.
    + rewrite (stage_finale_unfold _ _ _ _ _ Hst). apply doFinale_Later.
    + unfold stage_finale, bind, world. rewrite Hst. apply Later_refl.
  - destruct (curtains_closing callback w) as [Hc Hs].
    split; [|auto]. intros i st H. exists st. rewrite Hs. auto.
Qed.

Lemma run_Later acts : forall w, Later w (run drv rt acts w).
Proof.
  induction acts as [|a acts IH]; intros w.
  - apply Later_refl.
  - eapply Later_trans; [apply step_Later | apply IH].
Qed.

(** C8. Once [curtains] has been called, in every state reached by further
    calls of the library whatever, a finalization returns at its first
    guard: the world is as it was before it, so no pool is looked up or
    created and no connection is asked for, and what is handed to the
    callback is the shutdown error.  (Handed to a value that is not a
    function, the hand-over itself throws, as in every other guard.) *)
Theorem no_finale_after_curtains w callback acts :
  let w1 := run drv rt acts (step drv rt (ActCurtains callback) w) in
  w_closing w1 = true /\
  error_class ErrClosing = ShutdownError /\
  (forall dbcfg bTransact ops cb,
     doFinale drv rt dbcfg bTransact ops cb w1 = invoke cb ErrClosing w1 /\
     snd (doFinale drv rt dbcfg bTransact ops cb w1) = w1) /\
  (forall dbcfg bTransact ops,
     doFinale drv rt dbcfg bTransact ops CbFunction w1
     = (Ok (Delivered (Some ErrClosing) VUndef), w1)) /\
  (forall this st autocommit,
     nth_error (w_stages w1) this = Some st ->
     stage_finale drv rt this CbFunction autocommit w1
     = (Ok (Delivered (Some ErrClosing) VUndef), w1)).
Proof.
  intros w1.
  assert (Hc : w_closing w1 = true).
  { apply (run_Later acts). cbn [step]. apply curtains_closing. }
  assert (Hd : forall dbcfg bTransact ops cb,
             doFinale drv rt dbcfg bTransact ops cb w1 = invoke cb ErrClosing w1).
  { intros. rewrite doFinale_unfold, Hc. reflexivity. }
  split; [exact Hc|]. split; [reflexivity|]. split; [|split].
  - intros. split; [apply Hd|]. rewrite Hd. now destruct cb.
  - intros. now rewrite Hd.
  - intros this st autocommit Hst.
    now rewrite (stage_finale_unfold _ _ _ _ _ Hst), Hd.
Qed.

(** C7, amended. Once a stage with a configuration has been through a
    finalization with a callback, then, whatever calls of the library come
    in between, a further finalization of it returns at a guard: the world
    is as it was before it, so no pool and no connection is touched, and its
    callback gets the already-finalized usage error, or, when the shutdown
    has been signalled by then, the shutdown error. *)
Theorem second_finale_rejected w this st autocommit1 acts autocommit2 :
  nth_error (w_stages w) this = Some st ->
  truthy (st_cfg st) = true ->
  let w1 := run drv rt acts (step drv rt (ActFinale this CbFunction autocommit1) w) in
  stage_finale drv rt this CbFunction autocommit2 w1
  = (Ok (Delivered (Some (if w_closing w1 then ErrClosing
                          else ErrAlreadyFinalized)) VUndef), w1) /\
  error_class ErrAlreadyFinalized = UsageError /\
  error_class ErrClosing = ShutdownError.
Proof.
  intros Hst Hcfg w1. split; [|split; reflexivity].
  set (w0 := step drv rt (ActFinale this CbFunction autocommit1) w) in *.
  assert (H0 : exists st0, nth_error (w_stages w0) this = Some st0 /\
                 st_cfg st0 = st_cfg st /\
                 (w_closing w0 = true \/ st_finaleComplete st0 = true)).
  { subst w0. cbn [step]. rewrite (stage_finale_unfold _ _ _ _ _ Hst).
    destruct (doFinale drv rt (st_cfg st) (negb (truthy autocommit1)) this
                CbFunction w) as [r w'] eqn:E. cbn [snd].
    rewrite doFinale_unfold, Hcfg, Hst in E. cbn [negb] in E.
    destruct (w_closing w) eqn:Hc.
    { inversion E; subst. exists st. auto. }
    destruct (st_finaleComplete st) eqn:Hf.
    { inversion E; subst. exists st. auto. }
    apply runFinale_spec in E as (evs & (_ & Hs & _) & _).
    destruct (mark_finale_nth _ this this st Hst) as (st' & H' & Hc' & _ & Hm).
    exists st'. rewrite Hs. auto. }
  destruct H0 as (st0 & Hst0 & Hcfg0 & Hflag).
  destruct (run_Later acts w0) as [Hstages Hclosing].
  destruct (Hstages this st0 Hst0) as (st1 & Hst1 & Hcfg1 & Hf1).
  fold w1 in Hst1, Hclosing.
  rewrite (stage_finale_unfold _ _ _ _ _ Hst1), doFinale_unfold.
  destruct (w_closing w1) eqn:Hc1; [reflexivity|].
  rewrite Hcfg1, Hcfg0, Hcfg, Hst1. cbn [negb].
  destruct Hflag as [Hc0|Hf0].
  - discriminate (Hclosing Hc0).
  - now rewrite (Hf1 Hf0).
Qed.

(** ** Multi-row operations *)


Lemma ExecRows_length c op prior rows db answers db' :
  ExecRows drv c op prior rows db answers db' ->
  List.length answers = List.length rows.
Proof. induction 1; simpl; congruence. Qed.

End Orchestrator.

Lemma doAction_fields opcode0 sql0 params dflt0 op :
  doAction opcode0 sql0 params dflt0 = Ok op ->
  opcode op = opcode0 /\ dflt op = dflt0 /\
  paramVals op = jsonClone (if truthy params then params else VNull) /\
  paramShape op = computeParamShape (paramVals op) /\
  isMulti op = is_multi_shape (paramShape op) /\
  exists s p, sql0 = VStr s /\ parseSql s = Ok p /\ sql op = p_sql p /\
              paramRefs op = p_paramRefs p /\ paramTypes op = p_paramTypes p.
Proof.
  unfold doAction. destruct (negb (truthy sql0)); [discriminate|].
  destruct sql0 as [| | | |s| |]; try discriminate.
  destruct (parseSql s) as [p|e] eqn:Hp; [|discriminate].
  repeat match goal with
         | |- context [if ?b then Throw _ else _] => destruct b; [discriminate|]
         end.
  intros H; inversion H; subst; clear H. cbn.
  repeat split. now exists s, p.
Qed.

Lemma multi_shape_array v :
  is_multi_shape (computeParamShape (jsonClone (if truthy v then v else VNull)))
  = true ->
  exists xs, v = VArr xs /\
             jsonClone (if truthy v then v else VNull) = VArr (map jsonClone xs).
Proof.
  destruct v as [| |b|n|s|xs|ps]; cbn; try discriminate.
  - destruct b; discriminate.
  - destruct n as [| |q]; cbn; try discriminate.
    destruct (negb (Qnum q =? 0)%Z); discriminate.
  - destruct (negb (s =? "")); discriminate.
  - intros _. now exists xs.
Qed.

Section MultiRow.

Variable DB : Type.
Variable drv : Driver DB.


End MultiRow.

(** * Runs on the example driver *)



(** The failing run in full: the four inserts, the statement that fails, the
    rollback, whose failure goes nowhere, and the release. *)
Example doomed_trace :
  let r := doFinale demoDriver demoRuntime demoCfg true 0 CbFunction demoDoomed in
  fst r = Ok (Delivered (Some (ErrDriver "You have an error in your SQL syntax"))
                        (VArr [num_of_Z 4])) /\
  after_failure (w_trace (snd r))
  = Some (7, ErrDriver "You have an error in your SQL syntax",
          [EvRollback 7 (Some (ErrDriver "rollback failed")); EvRelease 7 None]).
Proof. vm_compute. split; reflexivity. Qed.



(** The tests [castFloatFails], [castIntegerFails] and [tablelessQuery]. *)
Example cast_tests :
  coerce demoRuntime OpQF (VNum (Fin (425 # 10))) (VStr "stringlike")
  = VNum (Fin (425 # 10)) /\
  coerce demoRuntime OpQI (num_of_Z 3) (VStr "42.5") = num_of_Z 3 /\
  coerce demoRuntime OpQI VUndef (num_of_Z 2) = num_of_Z 2.
Proof. repeat split. Qed.

Lemma second_finale_rejected_witness :
  exists st,
    nth_error (w_stages demoStaged) 0 = Some st /\
    truthy (st_cfg st) = true /\
    stage_finale demoDriver demoRuntime 0 CbFunction VUndef
      (run demoDriver demoRuntime []
         (step demoDriver demoRuntime (ActFinale 0 CbFunction VUndef) demoStaged))
    = (Ok (Delivered (Some ErrAlreadyFinalized) VUndef),
       run demoDriver demoRuntime []
         (step demoDriver demoRuntime (ActFinale 0 CbFunction VUndef) demoStaged)).
Proof.
  eexists.
  assert (Hst : nth_error (w_stages demoStaged) 0 = Some _) by reflexivity.
  split; [exact Hst|]. split; [reflexivity|].
  exact (proj1 (second_finale_rejected nat demoDriver demoRuntime demoStaged 0 _
                  VUndef [] VUndef Hst eq_refl)).
Defined.

(** C7 as stated fails: this stage has been finalized, the shutdown has been
    signalled since, and what a further finalization hands to its callback
    is the shutdown error, which is no usage error. *)
Lemma second_finale_after_curtains :
  option_map st_finaleComplete (nth_error (w_stages demoAfterCurtains) 0)
  = Some true /\
  stage_finale demoDriver demoRuntime 0 CbFunction VUndef demoAfterCurtains
  = (Ok (Delivered (Some ErrClosing) VUndef), demoAfterCurtains) /\
  error_class ErrClosing <> UsageError.
Proof.
  split; [vm_compute; reflexivity|].
  split; [vm_compute; reflexivity | discriminate].
Qed.

(** C9 at [db.stage(cfg)...finale()]: the call throws. *)
Example finale_undefined_callback :
  stage_finale demoDriver demoRuntime 0 (CbValue VUndef) VUndef demoStaged
  = (Throw (TypeError "cb is not a function"), demoStaged).
Proof. vm_compute. reflexivity. Qed.

(** * Further properties *)

(** ** Operation construction *)

Lemma parseSql_types sql p :
  parseSql sql = Ok p ->
  List.length (p_paramRefs p) = List.length (p_paramTypes p) /\
  Forall valid_type (p_paramTypes p) /\
  p_bindStyles p = p_paramTypes p.
Proof.
  intros Hp.
  destruct (parseSql_reading sql) as (p' & Hp' & _ & _ & Hlen & Hms & Hnth).
  rewrite Hp in Hp'. inversion Hp'; subst p'; clear Hp'.
  split; [exact Hlen|]. split; [|now apply (parseSql_styles sql)].
  apply Forall_forall. intros t Ht.
  apply In_nth_error in Ht as (i & Hi).
  assert (Hlt : i < List.length (matches_of (pieces sql))).
  { rewrite <- Hms, Hlen. apply nth_error_Some. congruence. }
  destruct (nth_error (matches_of (pieces sql)) i) as [m|] eqn:Hm.
  2:{ apply nth_error_None in Hm. lia. }
  destruct (Hnth i m Hm) as (r & t' & _ & Ht' & Hres).
  assert (t' = t) by congruence. subst t'.
  unfold valid_type. inversion Hres; auto.
Qed.

Lemma doAction_unfold opcode0 s params dflt0 :
  doAction opcode0 (VStr s) params dflt0 =
  if negb (truthy (VStr s)) then Throw ErrBlankSql
  else match parseSql s with
       | Throw e => Throw e
       | Ok p =>
         let params' := jsonClone (if truthy params then params else VNull) in
         let shape := computeParamShape params' in
         if has_style (p_bindStyles p) ":" && has_style (p_bindStyles p) "?"
         then Throw (ErrMixedStyles s)
         else if has_style (p_bindStyles p) "?" && negb (is_positional_shape shape)
         then Throw (ErrPositionalShape s)
         else if has_style (p_bindStyles p) ":" && negb (is_named_shape shape)
         then Throw (ErrNamedShape s)
         else if has_null_param params' then Throw ErrNullParam
         else Ok {| rawSql := p_rawSql p; sql := p_sql p;
                    paramRefs := p_paramRefs p; paramTypes := p_paramTypes p;
                    bindStyles := p_bindStyles p; opcode := opcode0;
                    dflt := dflt0; paramVals := params';
                    paramShape := shape; isMulti := is_multi_shape shape |}
       end.
Proof. reflexivity. Qed.

Lemma doAction_invariant opcode0 sql0 params dflt0 op :
  doAction opcode0 sql0 params dflt0 = Ok op -> WellFormed op.
Proof.
  intros H. unfold doAction in H.
  destruct (negb (truthy sql0)); [discriminate|].
  destruct sql0 as [| | | |s| |]; try discriminate.
  destruct (parseSql s) as [p|e] eqn:Hp; [|discriminate].
  destruct (parseSql_types _ _ Hp) as (Hlen & Htypes & Hst).
  destruct (has_style (p_bindStyles p) ":" && has_style (p_bindStyles p) "?")
    eqn:Hmix; [discriminate|].
  destruct (has_style (p_bindStyles p) "?" && negb _) eqn:Hpos; [discriminate|].
  destruct (has_style (p_bindStyles p) ":" && negb _) eqn:Hnam; [discriminate|].
  destruct (has_null_param _) eqn:Hnull; [discriminate|].
  inversion H; subst op; clear H. unfold WellFormed.
  cbn [rawSql sql paramRefs paramTypes bindStyles opcode dflt paramVals
       paramShape isMulti].
  repeat (split; [assumption|]). split; [|split]; [| |auto].
  - intros Hq. rewrite Hq in Hpos. cbn in Hpos.
    now apply negb_false_iff in Hpos.
  - intros Hc. rewrite Hc in Hnam. cbn in Hnam.
    now apply negb_false_iff in Hnam.
Qed.

(** X1. Every operation that [doAction] returns keeps the invariant of
    operations: as many references as type tags, each tag one of the three,
    never both the named and the positional style, parameters of the shape
    the style asks for, no null leaf, and [isMulti] as the shape says.  It
    carries the opcode and the default it was built with, and a multi-row
    operation has a non-empty array of parameters. *)
Theorem doAction_wellformed opcode0 sql0 params dflt0 op :
  doAction opcode0 sql0 params dflt0 = Ok op ->
  WellFormed op /\ opcode op = opcode0 /\ dflt op = dflt0 /\
  (isMulti op = true -> exists x xs, paramVals op = VArr (x :: xs)).
Proof.
  intros H. split; [exact (doAction_invariant _ _ _ _ _ H)|].
  destruct (doAction_fields _ _ _ _ _ H) as (Ho & Hd & Hv & Hs & Hm & _).
  split; [exact Ho|]. split; [exact Hd|].
  rewrite Hm, Hs. unfold computeParamShape.
  destruct (paramVals op) as [| |b|n|s|[|x xs]|ps]; cbn; try discriminate.
  intros _. now exists x, xs.
Qed.

Lemma doAction_wellformed_witness :
  exists op, doAction OpE (VStr insertSql) insertRows VNull = Ok op /\ WellFormed op.
Proof.
  eexists. assert (H : doAction OpE (VStr insertSql) insertRows VNull = Ok _)
    by reflexivity.
  split; [exact H | exact (proj1 (doAction_wellformed _ _ _ _ _ H))].
Defined.

Lemma bindArgs_total explicitParams prior types :
  Forall valid_type types ->
  forall refs, List.length refs = List.length types ->
    exists args, bindArgs refs types explicitParams prior = Ok args /\
                 List.length args = List.length refs.
Proof.
  induction 1 as [|t types Ht _ IH]; intros [|r refs] Hlen; try discriminate.
  - now exists [].
  - simpl in Hlen. destruct (IH refs (eq_add_S _ _ Hlen)) as (args & Hargs & Hl).
    cbn [bindArgs]. rewrite Hargs.
    destruct Ht as [-> | [-> | ->]]; cbn; eexists; split; try reflexivity;
      simpl; congruence.
Qed.

(** X2. Binding never fails on an operation that [doAction] has returned:
    whatever the element of the parameters and the prior results, [makeArgs]
    returns one argument per reference. *)
Theorem constructed_op_binds opcode0 sql0 params dflt0 op :
  doAction opcode0 sql0 params dflt0 = Ok op ->
  forall explicitParams prior,
    exists args,
      makeArgs (paramRefs op) (paramTypes op) explicitParams prior = Ok args /\
      List.length args = List.length (paramRefs op).
Proof.
  intros H explicitParams prior.
  destruct (doAction_invariant _ _ _ _ _ H) as (Hlen & Htypes & _).
  unfold makeArgs. rewrite Hlen, Nat.eqb_refl. cbn [negb].
  rewrite <- Hlen. now apply bindArgs_total.
Qed.

Lemma constructed_op_binds_witness :
  exists op args,
    doAction OpE (VStr insertSql) insertRows VNull = Ok op /\
    makeArgs (paramRefs op) (paramTypes op) (VStr "no array") [] = Ok args /\
    List.length args = 2.
Proof.
  eexists. assert (H : doAction OpE (VStr insertSql) insertRows VNull = Ok _)
    by reflexivity.
  destruct (constructed_op_binds _ _ _ _ _ H (VStr "no array") [])
    as (args & Hargs & Hlen).
  exists args. split; [exact H|]. split; [exact Hargs | exact Hlen].
Defined.



Lemma no_style_without_token sql p t :
  parseSql sql = Ok p ->
  (forall m r i, In (Match m) (pieces sql) -> ~ Resolves i m r t) ->
  has_style (p_bindStyles p) t = false.
Proof.
  intros Hp Hno.
  destruct (has_style (p_bindStyles p) t) eqn:E; [|reflexivity].
  exfalso. apply existsb_exists in E as (t' & Hin & Heq).
  apply String.eqb_eq in Heq. subst t'.
  rewrite (parseSql_styles _ _ Hp) in Hin.
  apply In_nth_error in Hin as (i & Hi).
  destruct (parseSql_reading sql) as (p' & Hp' & _ & _ & Hlen & Hms & Hnth).
  rewrite Hp in Hp'. inversion Hp'; subst p'; clear Hp'.
  assert (Hlt : i < List.length (matches_of (pieces sql))).
  { rewrite <- Hms, Hlen. apply nth_error_Some. congruence. }
  destruct (nth_error (matches_of (pieces sql)) i) as [m|] eqn:Hm.
  2:{ apply nth_error_None in Hm. lia. }
  destruct (Hnth i m Hm) as (r & t' & _ & Ht' & Hres).
  assert (t' = t) by congruence. subst t'.
  apply (Hno m r i); [|exact Hres].
  apply nth_error_In in Hm. clear - Hm.
  induction (pieces sql) as [|[c|m'] ps IH]; simpl in *;
    [contradiction | auto | destruct Hm as [->|]; auto].
Qed.

Section Shapes.

Variable DB : Type.

(** X4. A statement with a [?] token whose parameters are not of the shape
    "array" or "array of arrays" (nothing, a scalar, an object, an array of
    objects) is refused when it is staged, with the error about [?]
    placeholders, or with the mixed-styles error when it has a [:name] token
    as well; the world is left as it was. *)
Theorem positional_needs_array (sql : string) (params : Value) :
  In (Match "?") (pieces sql) ->
  is_positional_shape (paramShapeOf params) = false ->
  forall opcode0 dflt0,
    (doAction opcode0 (VStr sql) params dflt0 = Throw (ErrPositionalShape sql) \/
     doAction opcode0 (VStr sql) params dflt0 = Throw (ErrMixedStyles sql)) /\
    ((forall name, ~ In (Match (String ":" name)) (pieces sql)) ->
     doAction opcode0 (VStr sql) params dflt0 = Throw (ErrPositionalShape sql)) /\
    forall this (w : World DB),
      exists e, stageAction this opcode0 (VStr sql) params dflt0 w = (Throw e, w).
Proof.
  intros Hq Hshape opcode0 dflt0.
  destruct (parseSql_reading sql) as (p & Hp & _).
  pose proof (token_style sql p _ _ _ 0 Hp Hq (res_positional 0)) as Hs.
  assert (Hrun : doAction opcode0 (VStr sql) params dflt0 =
                 if has_style (p_bindStyles p) ":"
                 then Throw (ErrMixedStyles sql)
                 else Throw (ErrPositionalShape sql)).
  { rewrite doAction_unfold, (pieces_nonempty _ _ Hq), Hp. cbn [negb].
    rewrite Hs. fold (paramShapeOf params). rewrite Hshape.
    destruct (has_style (p_bindStyles p) ":"); reflexivity. }
  split; [|split].
  - rewrite Hrun. destruct (has_style (p_bindStyles p) ":"); auto.
  - intros Hnone. rewrite Hrun.
    rewrite (no_style_without_token sql p ":" Hp); [reflexivity|].
    intros m r i Hin Hres. inversion Hres; subst. now apply (Hnone name).
  - intros this w. destruct (has_style (p_bindStyles p) ":");
      eexists; apply stageAction_throws; exact Hrun.
Qed.

(** X5. A statement with a [:name] token and no [?] token whose parameters are
    not of the shape "object" or "array of objects" is refused when it is
    staged, with the error about [:] placeholders. *)
Theorem named_needs_object (sql name : string) (params : Value) :
  In (Match (String ":" name)) (pieces sql) ->
  ~ In (Match "?") (pieces sql) ->
  is_named_shape (paramShapeOf params) = false ->
  forall opcode0 dflt0,
    doAction opcode0 (VStr sql) params dflt0 = Throw (ErrNamedShape sql) /\
    forall this (w : World DB),
      stageAction this opcode0 (VStr sql) params dflt0 w
      = (Throw (ErrNamedShape sql), w).
Proof.
  intros Hn Hnq Hshape opcode0 dflt0.
  destruct (parseSql_reading sql) as (p & Hp & _).
  pose proof (token_style sql p _ _ _ 0 Hp Hn (res_named 0 name)) as Hs.
  assert (Hq : has_style (p_bindStyles p) "?" = false).
  { apply (no_style_without_token sql p "?" Hp).
    intros m r i Hin Hres. inversion Hres; subst. contradiction. }
  assert (Hrun : doAction opcode0 (VStr sql) params dflt0
                 = Throw (ErrNamedShape sql)).
  { rewrite doAction_unfold, (pieces_nonempty _ _ Hn), Hp. cbn [negb].
    rewrite Hs, Hq. fold (paramShapeOf params). rewrite Hshape. reflexivity. }
  split; [exact Hrun|]. intros this w. now apply stageAction_throws.
Qed.

End Shapes.

Lemma positional_needs_array_witness :
  In (Match "?") (pieces "select ?") /\
  is_positional_shape (paramShapeOf (num_of_Z 12)) = false /\
  doAction OpQI (VStr "select ?") (num_of_Z 12) VUndef
  = Throw (ErrPositionalShape "select ?").
Proof.
  assert (H1 : In (Match "?") (pieces "select ?")) by (vm_compute; auto 20).
  assert (H2 : is_positional_shape (paramShapeOf (num_of_Z 12)) = false)
    by reflexivity.
  split; [exact H1|]. split; [exact H2|].
  apply (proj1 (proj2 (positional_needs_array unit _ _ H1 H2 OpQI VUndef))).
  intros name Hin. vm_compute in Hin.
  repeat (destruct Hin as [Hin|Hin]; [discriminate|]). exact Hin.
Defined.

Lemma named_needs_object_witness :
  In (Match ":id") (pieces "select :id") /\
  ~ In (Match "?") (pieces "select :id") /\
  is_named_shape (paramShapeOf (VArr [num_of_Z 1])) = false /\
  doAction OpQ (VStr "select :id") (VArr [num_of_Z 1]) VNull
  = Throw (ErrNamedShape "select :id").
Proof.
  assert (H1 : In (Match ":id") (pieces "select :id")) by (vm_compute; auto 20).
  assert (H2 : ~ In (Match "?") (pieces "select :id")).
  { intros Hin. vm_compute in Hin.
    repeat (destruct Hin as [Hin|Hin]; [discriminate|]). exact Hin. }
  assert (H3 : is_named_shape (paramShapeOf (VArr [num_of_Z 1])) = false)
    by reflexivity.
  split; [exact H1|]. split; [exact H2|]. split; [exact H3|].
  exact (proj1 (named_needs_object unit _ _ _ H1 H2 H3 OpQ VNull)).
Defined.

(** ** The copy of the parameters *)

Lemma jsonClone_defined v : jsonClone v <> VUndef.
Proof.
  destruct v as [| |b|n|s|xs|ps]; try discriminate.
  destruct n; discriminate.
Qed.

Lemma Value_eq_undef (v : Value) : v = VUndef \/ v <> VUndef.
Proof. destruct v; (now left) || (right; discriminate). Qed.

Lemma jsonClone_obj ps : jsonClone (VObj ps) = VObj (cloneProps ps).
Proof.
  reflexivity.
Qed.

Lemma cloneProps_cons k y rest :
  y <> VUndef -> cloneProps ((k, y) :: rest) = (k, jsonClone y) :: cloneProps rest.
Proof. destruct y; try reflexivity. congruence. Qed.

Lemma jsonClone_idem : forall v, jsonClone (jsonClone v) = jsonClone v.
Proof.
  apply Value_induction; try reflexivity.
  - intros [| |q]; reflexivity.
  - intros xs Hxs. cbn [jsonClone]. f_equal.
    induction Hxs as [|x xs Hx _ IH]; [reflexivity|].
    cbn [map]. now rewrite Hx, IH.
  - intros ps Hps. rewrite !jsonClone_obj. f_equal.
    induction Hps as [|[k x] ps Hx _ IH]; [reflexivity|].
    cbn [snd] in Hx.
    destruct (Value_eq_undef x) as [->|Hdef]; [exact IH|].
    rewrite (cloneProps_cons k x ps Hdef).
    rewrite (cloneProps_cons k _ _ (jsonClone_defined x)).
    now rewrite Hx, IH.
Qed.

Lemma clone_image p :
  jsonClone (if truthy (jsonClone p) then jsonClone p else VNull)
  = jsonClone (if truthy p then p else VNull).
Proof.
  destruct p as [| |b|n|s|xs|ps]; try reflexivity.
  - destruct n as [| |q]; reflexivity.
  - change (jsonClone (jsonClone (VArr xs)) = jsonClone (VArr xs)).
    apply jsonClone_idem.
  - change (jsonClone (jsonClone (VObj ps)) = jsonClone (VObj ps)).
    apply jsonClone_idem.
Qed.

Lemma doAction_params opcode0 sql0 p q dflt0 :
  jsonClone (if truthy p then p else VNull)
  = jsonClone (if truthy q then q else VNull) ->
  doAction opcode0 sql0 p dflt0 = doAction opcode0 sql0 q dflt0.
Proof. intros H. unfold doAction. now rewrite H. Qed.

Lemma cloneProps_app ps qs :
  cloneProps (ps ++ qs) = cloneProps ps ++ cloneProps qs.
Proof.
  induction ps as [|[k x] ps IH]; [reflexivity|].
  cbn [app cloneProps]. rewrite IH. destruct x; reflexivity.
Qed.

(** X6. [doAction] sees the parameters through their JSON copy only: staged
    with the copy, the operation or the error is the same.  So a property of
    an object whose value is [undefined] is dropped before the null check
    and not refused, while an [undefined] element of an array counts as
    [null]. *)
Theorem params_seen_through_json opcode0 sql0 dflt0 :
  (forall p,
     doAction opcode0 sql0 p dflt0 = doAction opcode0 sql0 (jsonClone p) dflt0) /\
  (forall ps k qs,
     doAction opcode0 sql0 (VObj (ps ++ (k, VUndef) :: qs)) dflt0
     = doAction opcode0 sql0 (VObj (ps ++ qs)) dflt0) /\
  (forall xs ys,
     doAction opcode0 sql0 (VArr (xs ++ VUndef :: ys)) dflt0
     = doAction opcode0 sql0 (VArr (xs ++ VNull :: ys)) dflt0).
Proof.
  split; [|split].
  - intros p. apply doAction_params. symmetry. apply clone_image.
  - intros ps k qs. apply doAction_params. cbn [truthy].
    rewrite !jsonClone_obj, !cloneProps_app. reflexivity.
  - intros xs ys. apply doAction_params. cbn [truthy jsonClone].
    rewrite !map_app. reflexivity.
Qed.






(** ** Binding *)

Lemma parse_and_bind sql explicitParams prior :
  exists p args,
    parseSql sql = Ok p /\
    makeArgs (p_paramRefs p) (p_paramTypes p) explicitParams prior = Ok args /\
    List.length args = List.length (matches_of (pieces sql)) /\
    forall j m, nth_error (matches_of (pieces sql)) j = Some m ->
      exists r t, Resolves j m r t /\
        nth_error args j
        = Some (get_ref (source_of t (if is_nullish explicitParams then VArr []
                                      else explicitParams) prior) r).
Proof.
  destruct (parseSql_reading sql) as (p & Hp & Hlex & _ & Hlen & _).
  pose proof (lexes_tokens _ _ Hlex) as Htok.
  destruct (parseMatches_spec _ Htok 0) as (refs & types & Hrun & _).
  destruct (bind_parsed (if is_nullish explicitParams then VArr []
                         else explicitParams) prior _ Htok 0 _ _ _ Hrun)
    as (args & Hbind & Hargs & Hnth).
  assert (Hrefs : p_paramRefs p = refs /\ p_paramTypes p = types).
  { unfold parseSql in Hp. rewrite sql_match_matches, Hrun in Hp.
    inversion Hp; split; reflexivity. }
  destruct Hrefs as [Hr Ht].
  exists p, args. split; [exact Hp|]. unfold makeArgs.
  rewrite Hlen, Nat.eqb_refl. cbn [negb]. rewrite Hr, Ht.
  split; [exact Hbind|]. split; [exact Hargs|]. exact Hnth.
Qed.

(** X8. A [:name] token, of a name that objects do not inherit, binds the
    property of that name of the object of explicit parameters, and
    [undefined] when the object has no such property: a missing name is no
    error, neither when the operation is staged nor when it is bound. *)
Theorem named_binds_property (sql : string) (props : list (string * Value))
    (prior : list Value) :
  exists p args,
    parseSql sql = Ok p /\
    makeArgs (p_paramRefs p) (p_paramTypes p) (VObj props) prior = Ok args /\
    forall j name,
      inherited_name name = false ->
      nth_error (matches_of (pieces sql)) j = Some (String ":" name) ->
      nth_error args j
      = Some (match assoc name props with Some v => v | None => VUndef end).
Proof.
  destruct (parse_and_bind sql (VObj props) prior)
    as (p & args & Hp & Hargs & _ & Hnth).
  exists p, args. split; [exact Hp|]. split; [exact Hargs|].
  intros j name _ Hj. destruct (Hnth j _ Hj) as (r & t & Hres & Harg).
  rewrite Harg. inversion Hres; subst. reflexivity.
Qed.

Lemma nth_firstn {A} (d : A) (l : list A) : forall k i,
  nth i (firstn k l) d = if (i <? k)%nat then nth i l d else d.
Proof.
  induction l as [|a l IH]; intros k i.
  - rewrite firstn_nil. destruct i; destruct (_ <? _)%nat; reflexivity.
  - destruct k as [|k]; [destruct i; reflexivity|].
    destruct i as [|i]; [reflexivity|]. cbn [firstn nth]. rewrite IH.
    reflexivity.
Qed.

(** X9. In the operation that runs after [k] others, a [$digits] token binds the
    result of the operation the digits number when that is one of the [k],
    and [undefined] when it is the operation itself or a later one. *)
Theorem cross_reference_binds_earlier (sql : string) (explicitParams : Value)
    (rs : list Value) (k : nat) :
  exists p args,
    parseSql sql = Ok p /\
    makeArgs (p_paramRefs p) (p_paramTypes p) explicitParams (firstn k rs)
    = Ok args /\
    forall j ds,
      ds <> [] -> forallb is_digit ds = true ->
      nth_error (matches_of (pieces sql)) j
      = Some (String "$" (string_of_list_ascii ds)) ->
      nth_error args j
      = Some (if (decimal_value ds <? k)%nat
              then nth (decimal_value ds) rs VUndef else VUndef).
Proof.
  destruct (parse_and_bind sql explicitParams (firstn k rs))
    as (p & args & Hp & Hargs & _ & Hnth).
  exists p, args. split; [exact Hp|]. split; [exact Hargs|].
  intros j ds Hne Hall Hj. destruct (Hnth j _ Hj) as (r & t & Hres & Harg).
  rewrite Harg. inversion Hres as [| |ds' Hne' Hall' Heq]; subst.
  apply (f_equal list_ascii_of_string) in Heq.
  rewrite !list_ascii_of_string_of_list_ascii in Heq. subst ds'.
  cbn [source_of String.eqb Ascii.eqb Bool.eqb get_ref get_index].
  apply f_equal, nth_firstn.
Qed.

Section Prior.

Variable DB : Type.
Variable drv : Driver DB.
Variable rt : Runtime.

Lemma RunsInOrder_prior conn dbcfg ops prior w rs w' :
  RunsInOrder drv rt conn dbcfg ops prior w rs w' ->
  forall k op, nth_error ops k = Some op ->
    exists r wk wk',
      nth_error rs k = Some r /\
      runOp drv rt conn dbcfg op (prior ++ firstn k rs) wk = (Ok (inr r), wk').
Proof.
  induction 1 as [|op0 ops prior w r w1 rs w2 Hrun _ IH]; intros k op Hk.
  - destruct k; discriminate.
  - destruct k as [|k]; simpl in Hk.
    + inversion Hk; subst op0. exists r, w, w1. rewrite app_nil_r. now split.
    + destruct (IH k op Hk) as (r' & wk & wk' & Hr & Hop).
      exists r', wk, wk'. split; [exact Hr|].
      cbn [firstn]. rewrite <- app_assoc in Hop. exact Hop.
Qed.

(** X10. In a finalization that calls back without error, the operation at index
    [k] of the stage was run with the results of the operations before it,
    and only those, as prior results, and what it called back with is the
    result at index [k]. *)
Theorem operation_sees_earlier_results dbcfg bTransact ops cb w rv w' :
  doFinale drv rt dbcfg bTransact ops cb w = (Ok (Delivered None rv), w') ->
  exists st conn rs,
    nth_error (w_stages w) ops = Some st /\
    rv = rv_of (st_ops st) rs /\
    forall k op, nth_error (st_ops st) k = Some op ->
      exists r wk wk',
        nth_error rs k = Some r /\
        runOp drv rt conn dbcfg op (firstn k rs) wk = (Ok (inr r), wk').
Proof.
  intros H. apply doFinale_spec in H as [(_ & [H|(e & H)])|H];
    try discriminate.
  destruct H as (st & Hst & _ & _ & _ & _ & evs & _ & Hspec).
  destruct (Hspec None rv eq_refl) as (_ & Hok).
  destruct (Hok eq_refl) as (conn & w1 & w2 & rs & pre & post & _ & Hruns & _ & Hrv).
  exists st, conn, rs. split; [exact Hst|]. split; [exact Hrv|].
  intros k op Hk. exact (RunsInOrder_prior _ _ _ _ _ _ _ Hruns k op Hk).
Qed.

End Prior.

Lemma operation_sees_earlier_results_witness :
  exists rs,
    doFinale demoDriver demoRuntime demoCfg true 0 CbFunction demoStaged
    = (Ok (Delivered None (VArr [num_of_Z 4; num_of_Z 4])),
       snd (doFinale demoDriver demoRuntime demoCfg true 0 CbFunction demoStaged))
    /\ VArr [num_of_Z 4; num_of_Z 4] = VArr rs.
Proof.
  assert (H : doFinale demoDriver demoRuntime demoCfg true 0 CbFunction demoStaged
              = (Ok (Delivered None (VArr [num_of_Z 4; num_of_Z 4])),
                 snd (doFinale demoDriver demoRuntime demoCfg true 0 CbFunction
                        demoStaged)))
    by (vm_compute; reflexivity).
  destruct (operation_sees_earlier_results _ demoDriver demoRuntime _ _ _ _ _ _ _ H)
    as (st & conn & rs & Hst & Hrv & _).
  exists rs. split; [exact H|].
  vm_compute in Hst. inversion Hst; subst st. exact Hrv.
Defined.

(** ** Readings *)

Lemma list_ascii_app s t :
  list_ascii_of_string (s ++ t) = list_ascii_of_string s ++ list_ascii_of_string t.
Proof. induction s as [|c s IH]; simpl; [reflexivity | now rewrite IH]. Qed.

Lemma token_text s m rest :
  TokenAt s m rest -> list_ascii_of_string m ++ rest = s.
Proof.
  intros H. destruct H; rewrite ?list_ascii_of_string_of_list_ascii;
    reflexivity.
Qed.

Lemma lexes_unparse s ps :
  Lexes s ps -> list_ascii_of_string (unparse ps) = s.
Proof.
  induction 1 as [|s m rest ps Htok _ IH|c s ps _ _ IH]; cbn [unparse].
  - reflexivity.
  - rewrite list_ascii_app, IH. now apply token_text.
  - simpl. now rewrite IH.
Qed.

(** X11. The reading of a text loses nothing: written out again, piece after
    piece, it is the text. *)
Theorem unparse_pieces (sql : string) : unparse (pieces sql) = sql.
Proof.
  rewrite <- (string_of_list_ascii_of_string (unparse (pieces sql))).
  rewrite (lexes_unparse _ _ (pieces_lexes sql)).
  apply string_of_list_ascii_of_string.
Qed.

Lemma token_head s m rest :
  TokenAt s m rest -> exists c s', s = c :: s' /\ plain_char c = false.
Proof. intros H. destruct H; eexists _, _; split; reflexivity. Qed.

(** The clean text of a reading starts with a character that is neither a
    letter, a digit nor an underscore when the text read does. *)
Lemma clean_head p s ps :
  (forall c, plain_char c = false -> p c = false) ->
  p "?"%char = false ->
  Lexes s ps -> stops p s ->
  stops p (list_ascii_of_string (render "?" ps)).
Proof.
  intros Hspecial Hq Hlex Hstop.
  destruct Hlex as [|s m rest ps Htok _|c s ps _ _]; cbn [render].
  - exact I.
  - simpl. exact Hq.
  - simpl. exact Hstop.
Qed.

Lemma special_not_ident c : plain_char c = false -> is_ident c = false.
Proof.
  unfold plain_char. intros H.
  destruct (Ascii.eqb c ":") eqn:E1;
    [apply Ascii.eqb_eq in E1; subst; reflexivity|].
  destruct (Ascii.eqb c "?") eqn:E2;
    [apply Ascii.eqb_eq in E2; subst; reflexivity|].
  destruct (Ascii.eqb c "$") eqn:E3;
    [apply Ascii.eqb_eq in E3; subst; reflexivity|].
  discriminate.
Qed.

Lemma special_not_digit c : plain_char c = false -> is_digit c = false.
Proof.
  unfold plain_char. intros H.
  destruct (Ascii.eqb c ":") eqn:E1;
    [apply Ascii.eqb_eq in E1; subst; reflexivity|].
  destruct (Ascii.eqb c "?") eqn:E2;
    [apply Ascii.eqb_eq in E2; subst; reflexivity|].
  destruct (Ascii.eqb c "$") eqn:E3;
    [apply Ascii.eqb_eq in E3; subst; reflexivity|].
  discriminate.
Qed.

Lemma no_token_stops_ident s :
  (forall m rest, ~ TokenAt (":"%char :: s) m rest) -> stops is_ident s.
Proof.
  intros Hno. destruct s as [|c s]; [exact I|]. simpl.
  destruct (is_ident c) eqn:E; [|reflexivity]. exfalso.
  destruct (take_while is_ident (c :: s)) as [|a name] eqn:Et.
  - simpl in Et. rewrite E in Et. discriminate.
  - eapply Hno, token_colon, Et.
Qed.

Lemma no_token_stops_digit s :
  (forall m rest, ~ TokenAt ("$"%char :: s) m rest) -> stops is_digit s.
Proof.
  intros Hno. destruct s as [|c s]; [exact I|]. simpl.
  destruct (is_digit c) eqn:E; [|reflexivity]. exfalso.
  destruct (take_while is_digit (c :: s)) as [|a ds] eqn:Et.
  - simpl in Et. rewrite E in Et. discriminate.
  - eapply Hno, token_dollar, Et.
Qed.

Lemma lexes_clean s ps :
  Lexes s ps ->
  Lexes (list_ascii_of_string (render "?" ps)) (map clean_piece ps).
Proof.
  induction 1 as [|s m rest ps Htok Hlex IH|c s ps Hno Hlex IH];
    cbn [render map clean_piece].
  - constructor.
  - simpl. eapply lex_token; [apply tok_positional | exact IH].
  - simpl. apply lex_skip; [|exact IH].
    assert (Hq : Ascii.eqb c "?" = false).
    { destruct (Ascii.eqb c "?") eqn:E; [|reflexivity].
      apply Ascii.eqb_eq in E. subst c. exfalso.
      eapply Hno, tok_positional. }
    destruct (Ascii.eqb c ":") eqn:Ec.
    { apply Ascii.eqb_eq in Ec. subst c.
      intros m rest H.
      inversion H as [name rest' Hne Hall _ Heq| |]; subst.
      destruct name as [|a name]; [congruence|]. simpl in Hall.
      apply andb_true_iff in Hall as [Ha _].
      pose proof (clean_head is_ident s ps special_not_ident eq_refl Hlex
                    (no_token_stops_ident _ Hno)) as Hstop.
      rewrite <- Heq in Hstop. simpl in Hstop. congruence. }
    destruct (Ascii.eqb c "$") eqn:Ed.
    { apply Ascii.eqb_eq in Ed. subst c.
      intros m rest H.
      inversion H as [| |ds rest' Hne Hall _ Heq]; subst.
      destruct ds as [|a ds]; [congruence|]. simpl in Hall.
      apply andb_true_iff in Hall as [Ha _].
      pose proof (clean_head is_digit s ps special_not_digit eq_refl Hlex
                    (no_token_stops_digit _ Hno)) as Hstop.
      rewrite <- Heq in Hstop. simpl in Hstop. congruence. }
    intros m rest. now apply no_token_plain.
Qed.

Lemma matches_clean ps :
  matches_of (map clean_piece ps) = repeat "?" (List.length (matches_of ps)).
Proof.
  induction ps as [|[c|m] ps IH]; simpl; [reflexivity | exact IH | now rewrite IH].
Qed.

Lemma render_clean ps : render "?" (map clean_piece ps) = render "?" ps.
Proof.
  induction ps as [|[c|m] ps IH]; simpl; [reflexivity | now rewrite IH | now rewrite IH].
Qed.

(** X12. The clean SQL carries one bind marker per reference and nothing else
    that reads as a placeholder: its tokens are as many [?] as the statement
    has references, so the driver is asked for exactly the arguments
    [makeArgs] supplies; and cleaning it again changes nothing. *)
Theorem clean_sql_markers (sql : string) :
  exists p,
    parseSql sql = Ok p /\
    pieces (p_sql p) = map clean_piece (pieces sql) /\
    matches_of (pieces (p_sql p)) = repeat "?" (List.length (p_paramRefs p)) /\
    sql_replace (p_sql p) "?" = p_sql p /\
    exists p',
      parseSql (p_sql p) = Ok p' /\ p_sql p' = p_sql p /\
      List.length (p_paramRefs p') = List.length (p_paramRefs p).
Proof.
  destruct (parseSql_reading sql) as (p & Hp & Hlex & Hsql & _ & Hms & _).
  assert (Hpieces : pieces (p_sql p) = map clean_piece (pieces sql)).
  { symmetry. rewrite Hsql. eapply lexes_unique, lexes_clean, Hlex. }
  assert (Hclean : sql_replace (p_sql p) "?" = p_sql p).
  { unfold sql_replace. now rewrite Hpieces, render_clean. }
  exists p. split; [exact Hp|]. split; [exact Hpieces|].
  split; [now rewrite Hpieces, matches_clean, Hms|].
  split; [exact Hclean|].
  destruct (parseSql_reading (p_sql p)) as (p' & Hp' & _ & Hsql' & _ & Hms' & _).
  exists p'. split; [exact Hp'|]. split.
  - rewrite Hsql'. exact Hclean.
  - rewrite Hms', Hpieces, matches_clean, repeat_length. now symmetry.
Qed.

Lemma scan_plain_text s :
  forallb plain_char s = true -> scan 0 s = map Lit s.
Proof.
  induction s as [|c s IH]; [reflexivity|]. cbn [forallb]. intros H.
  apply andb_true_iff in H as [Hc Hs]. unfold plain_char in Hc.
  apply andb_true_iff in Hc as [Hc H3]. apply andb_true_iff in Hc as [H1 H2].
  apply negb_true_iff in H1, H2, H3.
  rewrite scan_plain by assumption. cbn [map]. now rewrite IH.
Qed.

Lemma render_literals rep s :
  render rep (map Lit s) = string_of_list_ascii s.
Proof. induction s as [|c s IH]; simpl; [reflexivity | now rewrite IH]. Qed.

Lemma matches_literals s : matches_of (map Lit s) = [].
Proof. induction s as [|c s IH]; [reflexivity | exact IH]. Qed.

(** X13. A statement in which no [:], [?] or [$] occurs has no placeholder: its
    clean SQL is the statement itself and it has no reference; the empty
    text among them. *)
Theorem parseSql_without_placeholders (sql : string) :
  forallb plain_char (list_ascii_of_string sql) = true ->
  parseSql sql = Ok {| p_rawSql := sql; p_sql := sql; p_paramRefs := [];
                       p_paramTypes := []; p_bindStyles := [] |}.
Proof.
  intros H. unfold parseSql, sql_match, sql_replace, pieces.
  rewrite (scan_plain_text _ H), render_literals,
    string_of_list_ascii_of_string.
  rewrite matches_literals. reflexivity.
Qed.

Lemma parseSql_without_placeholders_witness :
  forallb plain_char (list_ascii_of_string "select count(*) from test") = true /\
  parseSql "select count(*) from test"
  = Ok {| p_rawSql := "select count(*) from test";
          p_sql := "select count(*) from test"; p_paramRefs := [];
          p_paramTypes := []; p_bindStyles := [] |}.
Proof.
  assert (H : forallb plain_char
                (list_ascii_of_string "select count(*) from test") = true)
    by reflexivity.
  split; [exact H | exact (parseSql_without_placeholders _ H)].
Defined.

(** ** Results *)

Section Results.

Variable DB : Type.
Variable drv : Driver DB.
Variable rt : Runtime.



Lemma Forall2_cons_inv {A B} (R : A -> B -> Prop) a l b l' :
  Forall2 R (a :: l) (b :: l') -> R a b /\ Forall2 R l l'.
Proof. intros H. inversion H; auto. Qed.

Lemma queryLoop_rows c dbcfg op prior rows db answers db' :
  ExecRows drv c op prior rows db answers db' ->
  forall vs, Forall2 (fun a v => formatResult rt op (snd a) = Ok v) answers vs ->
  forall caught acc w, w_db w = db ->
    exists w' evs,
      queryLoop drv rt (Some c) dbcfg op prior caught rows acc w
      = (Ok (inr (if negb (isMulti op) then nth 0 (acc ++ vs) VUndef
                  else VArr (acc ++ vs))), w') /\
      Extends w w' evs /\ w_db w' = db' /\
      executions evs = map (fun a => (c, sql op, fst a)) answers.
Proof.
  induction 1 as [db|row rows db args raw db1 answers db2 Hargs Hexec _ IH];
    intros vs Hvs caught acc w Hdb.
  - destruct vs as [|v vs]; [|inversion Hvs].
    exists w, []. cbn [queryLoop]. rewrite app_nil_r.
    repeat split; auto. apply Extends_refl.
  - destruct vs as [|v vs']; [inversion Hvs|].
    apply Forall2_cons_inv in Hvs as [Hv Hrest]. cbn [snd] in Hv.
    cbn [queryLoop]. rewrite Hargs.
    destruct (echo dbcfg "querying" (sql op) args w) as [r1 w1] eqn:Eecho.
    pose proof Eecho as Hecho.
    apply run_echo in Hecho as (-> & evs1 & Hext1 & _ & Hex1 & Hdb1 & _).
    unfold bind at 1. rewrite Eecho.
    unfold bind at 1. unfold call at 1. rewrite Hdb1, Hdb, Hexec.
    cbn [fst snd]. rewrite Hv.
    set (w2 := mkWorld (w_stages w1) (w_pools w1) (w_closing w1) db1
                 (w_trace w1 ++ [EvExecute c (sql op) args None raw])).
    destruct (IH vs' Hrest false (acc ++ [v]) w2 eq_refl)
      as (w' & evs3 & Hrun & Hext3 & Hdb3 & Hex3).
    exists w', (evs1 ++ [EvExecute c (sql op) args None raw] ++ evs3).
    rewrite Hrun.
    split; [rewrite <- app_assoc; reflexivity|]. split; [|split].
    + eapply Extends_trans; [exact Hext1|].
      eapply Extends_trans; [|exact Hext3].
      unfold Extends, w2; simpl. auto.
    + exact Hdb3.
    + rewrite !executions_app, Hex1, Hex3. reflexivity.
Qed.

(** X16. A query operation whose parameters are an array of arrays or of objects
    sends its statement once per element, in the order of the array, and its
    result is the array of the formatted results, one per element in that
    order: row sets for [query], scalars for the scalar queries. *)
Theorem multi_row_query_collects opcode0 sql0 params dflt0 op :
  doAction opcode0 sql0 params dflt0 = Ok op ->
  paramShape op = ShArrayArray \/ paramShape op = ShArrayObject ->
  exists xs,
    params = VArr xs /\
    forall c dbcfg prior (w : World DB) answers db' vs,
      ExecRows drv c op prior (map jsonClone xs) (w_db w) answers db' ->
      Forall2 (fun a v => formatResult rt op (snd a) = Ok v) answers vs ->
      exists w' evs,
        doQuery drv rt (Some c) dbcfg op prior w = (Ok (inr (VArr vs)), w') /\
        w_trace w' = w_trace w ++ evs /\
        executions evs = map (fun a => (c, sql op, fst a)) answers /\
        List.length vs = List.length xs.
Proof.
  intros Hop Hshape.
  destruct (doAction_fields _ _ _ _ _ Hop) as (_ & _ & Hvals & Hsh & Hmulti & _).
  assert (Hm : isMulti op = true)
    by (rewrite Hmulti; destruct Hshape as [-> | ->]; reflexivity).
  pose proof Hm as Hm'. rewrite Hmulti, Hsh, Hvals in Hm'.
  destruct (multi_shape_array _ Hm') as (xs & -> & Hclone).
  rewrite Hclone in Hvals. exists xs. split; [reflexivity|].
  intros c dbcfg prior w answers db' vs Hrows Hvs.
  destruct (queryLoop_rows c dbcfg op prior _ _ _ _ Hrows vs Hvs true [] w eq_refl)
    as (w' & evs & Hrun & Hext & _ & Hex).
  exists w', evs. unfold doQuery, execParams. rewrite Hm, Hvals. cbn [negb].
  rewrite Hm in Hrun. cbn [negb app] in Hrun.
  split; [exact Hrun|]. split; [apply Hext|]. split; [exact Hex|].
  pose proof (ExecRows_length _ drv _ _ _ _ _ _ _ Hrows) as Hlen.
  rewrite length_map in Hlen. rewrite <- Hlen. symmetry.
  eapply Forall2_length, Hvs.
Qed.

Lemma one_execution c dbcfg op prior caught pv total (w : World DB) args err raw db' :
  makeArgs (paramRefs op) (paramTypes op) pv prior = Ok args ->
  execute drv c (sql op) args (w_db w) = ((err, raw), db') ->
  exists w' evs,
    execLoop drv (Some c) dbcfg op prior caught [pv] total w
    = (Ok (match err with
           | Some e => inl e
           | None => inr (num_of_Z (total + rowsAffected raw))
           end), w') /\
    Extends w w' evs /\ w_db w' = db' /\
    executions evs = [(c, sql op, args)].
Proof.
  intros Hargs Hexec. cbn [execLoop]. rewrite Hargs.
  destruct (echo dbcfg "executing" (sql op) args w) as [r1 w1] eqn:Eecho.
  pose proof Eecho as Hecho.
  apply run_echo in Hecho as (-> & evs1 & Hext1 & _ & Hex1 & Hdb1 & _).
  unfold bind at 1. rewrite Eecho.
  unfold bind at 1. unfold call at 1. rewrite Hdb1, Hexec. cbn [fst snd].
  eexists _, (evs1 ++ [EvExecute c (sql op) args err raw]).
  split; [destruct err; reflexivity|]. split; [|split].
  - eapply Extends_trans; [exact Hext1|]. unfold Extends; simpl. auto.
  - reflexivity.
  - now rewrite executions_app, Hex1.
Qed.

Lemma one_query c dbcfg op prior caught pv (w : World DB) args err raw db' :
  makeArgs (paramRefs op) (paramTypes op) pv prior = Ok args ->
  execute drv c (sql op) args (w_db w) = ((err, raw), db') ->
  exists w' evs,
    queryLoop drv rt (Some c) dbcfg op prior caught [pv] [] w
    = (match err, formatResult rt op raw with
       | Some e, _ => Ok (inl e)
       | None, Ok v => Ok (inr (if negb (isMulti op) then v else VArr [v]))
       | None, Throw e => Throw e
       end, w') /\
    Extends w w' evs /\ w_db w' = db' /\
    executions evs = [(c, sql op, args)] /\ released evs = [].
Proof.
  intros Hargs Hexec. cbn [queryLoop]. rewrite Hargs.
  destruct (echo dbcfg "querying" (sql op) args w) as [r1 w1] eqn:Eecho.
  pose proof Eecho as Hecho.
  apply run_echo in Hecho as (-> & evs1 & Hext1 & (_ & Hrel1 & _) & Hex1 & Hdb1 & _).
  unfold bind at 1. rewrite Eecho.
  unfold bind at 1. unfold call at 1. rewrite Hdb1, Hexec. cbn [fst snd].
  eexists _, (evs1 ++ [EvExecute c (sql op) args err raw]).
  split; [destruct err; [reflexivity|];
          destruct (formatResult rt op raw); reflexivity|].
  split; [|split; [|split]].
  - eapply Extends_trans; [exact Hext1|]. unfold Extends; simpl. auto.
  - reflexivity.
  - now rewrite executions_app, Hex1.
  - now rewrite released_app, Hrel1.
Qed.

(** X17. An operation that is not multi-row sends its statement once, bound to
    the parameters as a whole.  Answered without error, [execute] yields the
    affected-row count of the answer, 0 when the answer has none (a row set,
    nothing), and a query yields the formatted result itself, not an array
    around it.  Answered with an error, both call back with that error. *)
Theorem single_row_operation (op : Op) c dbcfg prior (w : World DB) args :
  isMulti op = false ->
  makeArgs (paramRefs op) (paramTypes op) (paramVals op) prior = Ok args ->
  forall err raw db',
    execute drv c (sql op) args (w_db w) = ((err, raw), db') ->
    (exists w' evs,
       doExecute drv (Some c) dbcfg op prior w
       = (Ok (match err with
              | Some e => inl e
              | None => inr (num_of_Z (rowsAffected raw))
              end), w') /\
       w_trace w' = w_trace w ++ evs /\ w_db w' = db' /\
       executions evs = [(c, sql op, args)]) /\
    (forall v, formatResult rt op raw = Ok v ->
       exists w' evs,
         doQuery drv rt (Some c) dbcfg op prior w
         = (Ok (match err with Some e => inl e | None => inr v end), w') /\
         w_trace w' = w_trace w ++ evs /\ w_db w' = db' /\
         executions evs = [(c, sql op, args)]) /\
    (forall rows, raw = RRows rows -> rowsAffected raw = 0%Z) /\
    (raw = RUndef -> rowsAffected raw = 0%Z).
Proof.
  intros Hm Hargs err raw db' Hexec.
  unfold doExecute, doQuery, execParams. rewrite Hm. cbn [negb].
  split; [|split; [|split]].
  - destruct (one_execution c dbcfg op prior true _ 0%Z w args err raw db'
                Hargs Hexec) as (w' & evs & Hrun & Hext & Hdb & Hex).
    exists w', evs. rewrite Hrun. cbn [Z.add].
    split; [reflexivity|]. split; [apply Hext|]. now split.
  - intros v Hv.
    destruct (one_query c dbcfg op prior true _ w args err raw db' Hargs Hexec)
      as (w' & evs & Hrun & Hext & Hdb & Hex & _).
    exists w', evs. rewrite Hrun, Hv, Hm. cbn [negb].
    split; [destruct err; reflexivity|]. split; [apply Hext|]. now split.
  - intros rows ->. reflexivity.
  - intros ->. reflexivity.
Qed.

(** X18. A [query] operation whose statement is answered with something that is
    not an array of rows ends in an exception that nothing catches: the
    [TypeError] of [formatResult] is thrown inside the driver's callback, so
    the operation never calls back, and the connection it runs on is not
    released. *)
Theorem query_without_rows_throws (op : Op) c dbcfg prior (w : World DB) args :
  opcode op = OpQ -> isMulti op = false ->
  makeArgs (paramRefs op) (paramTypes op) (paramVals op) prior = Ok args ->
  forall raw db',
    execute drv c (sql op) args (w_db w) = ((None, raw), db') ->
    (forall rows, raw <> RRows rows) ->
    exists msg w' evs,
      runOp drv rt (Some c) dbcfg op prior w = (Throw (TypeError msg), w') /\
      w_trace w' = w_trace w ++ evs /\
      executions evs = [(c, sql op, args)] /\ released evs = [] /\
      forall ops,
        fillInResults drv rt (Some c) dbcfg (op :: ops) prior w
        = (Throw (TypeError msg), w').
Proof.
  intros Hop Hm Hargs raw db' Hexec Hraw.
  destruct (one_query c dbcfg op prior true _ w args None raw db' Hargs Hexec)
    as (w' & evs & Hrun & Hext & _ & Hex & Hrel).
  assert (Hthrow : exists msg, formatResult rt op raw = Throw (TypeError msg)).
  { unfold formatResult. rewrite Hop. destruct raw; eauto.
    exfalso. now apply (Hraw rows). }
  destruct Hthrow as (msg & Hthrow). rewrite Hthrow in Hrun.
  assert (Hop' : runOp drv rt (Some c) dbcfg op prior w
                 = (Throw (TypeError msg), w')).
  { unfold runOp, doQuery, execParams. rewrite Hop, Hm. exact Hrun. }
  exists msg, w', evs. split; [exact Hop'|].
  split; [apply Hext|]. split; [exact Hex|]. split; [exact Hrel|].
  intros ops. cbn [fillInResults]. unfold bind. now rewrite Hop'.
Qed.

End Results.


Lemma multi_row_query_collects_witness :
  exists op w',
    doAction OpQI (VStr "select count(*) from test where col1 = ? and col2 = ?")
             insertRows (VNum (Fin 0)) = Ok op /\
    paramShape op = ShArrayArray /\
    doQuery demoDriver demoRuntime (Some 7) demoCfg op [] demoWorld
    = (Ok (inr (VArr [num_of_nat 0; num_of_nat 0; num_of_nat 0; num_of_nat 0])),
       w').
Proof.
  eexists.
  assert (Hop : doAction OpQI
                  (VStr "select count(*) from test where col1 = ? and col2 = ?")
                  insertRows (VNum (Fin 0)) = Ok _)
    by reflexivity.
  destruct (multi_row_query_collects nat demoDriver demoRuntime _ _ _ _ _ Hop
              (or_introl eq_refl))
    as (xs & Hxs & Hrun).
  unfold insertRows in Hxs. injection Hxs as Hxs. subst xs.
  edestruct (Hrun 7 demoCfg [] demoWorld) as (w' & evs & Hquery & _).
  { repeat (econstructor; try reflexivity). }
  { repeat (econstructor; try reflexivity). }
  exists w'. split; [exact Hop|]. split; [reflexivity|]. exact Hquery.
Defined.

Lemma single_row_operation_witness :
  exists op w',
    doAction OpQI (VStr "select count(*) from test") VUndef VUndef = Ok op /\
    isMulti op = false /\
    doQuery demoDriver demoRuntime (Some 7) demoCfg op [] demoWorld
    = (Ok (inr (num_of_nat 0)), w').
Proof.
  pose (op := {| rawSql := "select count(*) from test";
                 sql := "select count(*) from test";
                 paramRefs := []; paramTypes := []; bindStyles := [];
                 opcode := OpQI; dflt := VUndef; paramVals := VNull;
                 paramShape := ShFalse; isMulti := false |}).
  assert (Hop : doAction OpQI (VStr "select count(*) from test") VUndef VUndef
                = Ok op) by reflexivity.
  assert (Hargs : makeArgs (paramRefs op) (paramTypes op) (paramVals op) []
                  = Ok []) by reflexivity.
  destruct (single_row_operation nat demoDriver demoRuntime op 7 demoCfg []
              demoWorld [] eq_refl Hargs
              None (RRows [VObj [("count(*)", num_of_nat 0)]]) 0 eq_refl)
    as (_ & Hquery & _).
  destruct (Hquery (num_of_nat 0) eq_refl) as (w' & evs & Hrun & _).
  exists op, w'. split; [exact Hop|]. split; [reflexivity|]. exact Hrun.
Defined.

Lemma query_without_rows_throws_witness :
  exists op msg w',
    doAction OpQ (VStr "insert into test(col1, col2) values (1,2)") VUndef VNull
    = Ok op /\
    opcode op = OpQ /\
    runOp demoDriver demoRuntime (Some 7) demoCfg op [] demoWorld
    = (Throw (TypeError msg), w') /\
    w_db w' = 1.
Proof.
  pose (op := {| rawSql := "insert into test(col1, col2) values (1,2)";
                 sql := "insert into test(col1, col2) values (1,2)";
                 paramRefs := []; paramTypes := []; bindStyles := [];
                 opcode := OpQ; dflt := VNull; paramVals := VNull;
                 paramShape := ShFalse; isMulti := false |}).
  assert (Hop : doAction OpQ (VStr "insert into test(col1, col2) values (1,2)")
                         VUndef VNull = Ok op) by reflexivity.
  assert (Hargs : makeArgs (paramRefs op) (paramTypes op) (paramVals op) []
                  = Ok []) by reflexivity.
  destruct (query_without_rows_throws nat demoDriver demoRuntime op 7 demoCfg []
              demoWorld [] eq_refl eq_refl Hargs (RHeader 1) 1 eq_refl)
    as (msg & w' & evs & Hrun & _).
  { intros rows H. discriminate H. }
  exists op, msg, w'. split; [exact Hop|]. split; [reflexivity|].
  split; [exact Hrun|].
  vm_compute in Hrun. now injection Hrun as _ <-.
Defined.

(** ** The path of a finalization *)

Lemma txcalls_app a b : txcalls (a ++ b) = txcalls a ++ txcalls b.
Proof.
  induction a as [|ev a IH]; [reflexivity|].
  destruct ev; simpl; rewrite ?IH; reflexivity.
Qed.

Lemma creations_app a b : creations (a ++ b) = creations a ++ creations b.
Proof.
  induction a as [|ev a IH]; [reflexivity|].
  destruct ev; simpl; rewrite ?IH; reflexivity.
Qed.

Lemma OpEvents_nil conn : OpEvents conn [].
Proof. constructor. Qed.

Lemma OpEvents_app conn a b :
  OpEvents conn a -> OpEvents conn b -> OpEvents conn (a ++ b).
Proof. intros Ha Hb. apply Forall_app. now split. Qed.

Lemma OpEvents_projections conn evs :
  OpEvents conn evs ->
  txcalls evs = [] /\ creations evs = [] /\ acquired evs = [] /\
  released evs = [] /\
  forall c s a, In (c, s, a) (executions evs) -> conn = Some c.
Proof.
  induction 1 as [|ev evs Hev _ IH].
  - repeat split; try reflexivity. intros c s a [].
  - destruct IH as (I1 & I2 & I3 & I4 & I5).
    destruct ev; simpl in Hev; try contradiction; simpl;
      (repeat split; try assumption).
    intros c0 s a [Heq|Hin]; [now inversion Heq; subst | eauto].
Qed.

Lemma lookup_store key pool pools :
  lookup_pool key (store_pool key pool pools) = pool.
Proof.
  induction pools as [|[k p] rest IH]; simpl.
  - now rewrite String.eqb_refl.
  - destruct (k =? key)%string eqn:E; simpl; rewrite E; [reflexivity | exact IH].
Qed.

Lemma lookup_store_other key key' pool pools :
  key' <> key ->
  lookup_pool key' (store_pool key pool pools) = lookup_pool key' pools.
Proof.
  intros Hne. induction pools as [|[k p] rest IH]; simpl.
  - destruct (key =? key')%string eqn:E; [|reflexivity].
    apply String.eqb_eq in E. congruence.
  - destruct (k =? key)%string eqn:E; simpl.
    + apply String.eqb_eq in E. subst k.
      destruct (key =? key')%string eqn:E'; [|reflexivity].
      apply String.eqb_eq in E'. congruence.
    + now rewrite IH.
Qed.

Section Paths.

Variable DB : Type.
Variable drv : Driver DB.
Variable rt : Runtime.

Lemma trace_unique (w w' : World DB) a b :
  Extends w w' a -> Extends w w' b -> a = b.
Proof.
  intros (Ha & _) (Hb & _). rewrite Ha in Hb. now apply app_inv_head in Hb.
Qed.

Lemma echo_events conn dbcfg verb sql args (w : World DB) r w' :
  echo dbcfg verb sql args w = (r, w') ->
  exists evs, Extends w w' evs /\ OpEvents conn evs.
Proof.
  unfold echo, emit, ret. destruct (truthy (get_prop dbcfg "echo"));
    intros H; inversion H; subst; clear H.
  - exists [EvLog verb sql args]. split; [|repeat constructor].
    unfold Extends; simpl. now repeat split.
  - exists []. split; [apply Extends_refl | constructor].
Qed.

Lemma execLoop_events conn dbcfg op prior rows :
  forall caught total (w : World DB) r w',
    execLoop drv conn dbcfg op prior caught rows total w = (r, w') ->
    exists evs, Extends w w' evs /\ OpEvents conn evs.
Proof.
  induction rows as [|pv rows IH]; intros caught total w r w' H; cbn [execLoop] in H.
  - apply run_ret in H as [-> ->]. exists []. split; [apply Extends_refl|constructor].
  - destruct (makeArgs (paramRefs op) (paramTypes op) pv prior) as [args|e].
    2:{ apply run_escape in H as [-> _]. exists [].
        split; [apply Extends_refl|constructor]. }
    apply run_bind in H as [(u & w1 & Hecho & H)|(e & Hecho & _)].
    2:{ exact (echo_events conn _ _ _ _ _ _ _ Hecho). }
    apply (echo_events conn) in Hecho as (evs1 & Hext1 & Hev1).
    destruct conn as [c|].
    2:{ apply run_escape in H as [-> _]. now exists evs1. }
    apply run_bind in H as [(a & w2 & Hcall & H)|(e & Hcall & _)].
    2:{ apply run_call in Hcall as (? & ? & _); discriminate. }
    apply run_call in Hcall as (a' & Ha & _ & Hext2 & _).
    inversion Ha; subst a'; clear Ha.
    assert (Hev2 : OpEvents (Some c)
                     [EvExecute c (sql op) args (fst a) (snd a)])
      by (repeat constructor).
    destruct a as [[e|] raw].
    + apply run_ret in H as [-> ->]. eexists.
      split; [eapply Extends_trans; eauto|]. now apply OpEvents_app.
    + apply IH in H as (evs3 & Hext3 & Hev3). eexists.
      split; [eapply Extends_trans; [eauto|eapply Extends_trans; eauto]|].
      apply OpEvents_app; [assumption|]. now apply OpEvents_app.
Qed.

Lemma queryLoop_events conn dbcfg op prior rows :
  forall caught acc (w : World DB) r w',
    queryLoop drv rt conn dbcfg op prior caught rows acc w = (r, w') ->
    exists evs, Extends w w' evs /\ OpEvents conn evs.
Proof.
  induction rows as [|pv rows IH]; intros caught acc w r w' H; cbn [queryLoop] in H.
  - apply run_ret in H as [-> ->]. exists []. split; [apply Extends_refl|constructor].
  - destruct (makeArgs (paramRefs op) (paramTypes op) pv prior) as [args|e].
    2:{ apply run_escape in H as [-> _]. exists [].
        split; [apply Extends_refl|constructor]. }
    apply run_bind in H as [(u & w1 & Hecho & H)|(e & Hecho & _)].
    2:{ exact (echo_events conn _ _ _ _ _ _ _ Hecho). }
    apply (echo_events conn) in Hecho as (evs1 & Hext1 & Hev1).
    destruct conn as [c|].
    2:{ apply run_escape in H as [-> _]. now exists evs1. }
    apply run_bind in H as [(a & w2 & Hcall & H)|(e & Hcall & _)].
    2:{ apply run_call in Hcall as (? & ? & _); discriminate. }
    apply run_call in Hcall as (a' & Ha & _ & Hext2 & _).
    inversion Ha; subst a'; clear Ha.
    assert (Hev2 : OpEvents (Some c)
                     [EvExecute c (sql op) args (fst a) (snd a)])
      by (repeat constructor).
    destruct a as [[e|] raw].
    + apply run_ret in H as [-> ->]. eexists.
      split; [eapply Extends_trans; eauto|]. now apply OpEvents_app.
    + destruct (formatResult rt op raw) as [v|e].
      2:{ apply run_throw in H as [-> ->]. eexists.
          split; [eapply Extends_trans; eauto|]. now apply OpEvents_app. }
      apply IH in H as (evs3 & Hext3 & Hev3). eexists.
      split; [eapply Extends_trans; [eauto|eapply Extends_trans; eauto]|].
      apply OpEvents_app; [assumption|]. now apply OpEvents_app.
Qed.

Lemma runOp_path conn dbcfg op prior (w : World DB) r w' :
  runOp drv rt conn dbcfg op prior w = (r, w') ->
  exists evs, Extends w w' evs /\ w_pools w' = w_pools w /\
              OpResult conn r evs /\ OpEvents conn evs.
Proof.
  intros H. pose proof H as H'.
  apply runOp_trace in H as (evs & Hext & Hp & Hres).
  exists evs. split; [exact Hext|]. split; [exact Hp|]. split; [exact Hres|].
  assert (Hev : exists evs', Extends w w' evs' /\ OpEvents conn evs').
  { unfold runOp, doExecute, doQuery in H'.
    destruct (opcode op); eauto using execLoop_events, queryLoop_events. }
  destruct Hev as (evs' & Hext' & Hev).
  now rewrite (trace_unique _ _ _ _ Hext Hext').
Qed.

Lemma fillInResults_events conn dbcfg ops :
  forall prior (w : World DB) r w',
    fillInResults drv rt conn dbcfg ops prior w = (r, w') ->
    exists evs, Extends w w' evs /\ w_pools w' = w_pools w /\
                OpEvents conn evs.
Proof.
  induction ops as [|op ops IH]; intros prior w r w' H; cbn [fillInResults] in H.
  - apply run_ret in H as [-> ->]. exists [].
    split; [apply Extends_refl|]. split; [reflexivity | constructor].
  - apply run_bind in H as [(a & w1 & Hop & H)|(e & Hop & ->)].
    2:{ apply runOp_path in Hop as (evs & Hext & Hp & _ & Hev). now exists evs. }
    apply runOp_path in Hop as (evs1 & Hext1 & Hp1 & _ & Hev1).
    destruct a as [e|v].
    + apply run_ret in H as [-> ->]. now exists evs1.
    + apply IH in H as (evs2 & Hext2 & Hp2 & Hev2). exists (evs1 ++ evs2).
      split; [eapply Extends_trans; eauto|]. split; [congruence|].
      now apply OpEvents_app.
Qed.

Lemma fillInResults_path conn dbcfg ops prior (w : World DB) r w' :
  fillInResults drv rt conn dbcfg ops prior w = (r, w') ->
  exists evs, Extends w w' evs /\ w_pools w' = w_pools w /\
    OpEvents conn evs /\
    match r with
    | Ok (None, _) => Quiet evs
    | Ok (Some e, _) => OpTrace conn e evs
    | Throw _ => True
    end.
Proof.
  intros H. pose proof H as H'.
  apply fillInResults_events in H as (evs & Hext & Hp & Hev).
  apply fillInResults_spec in H' as (evs' & Hext' & Hres).
  rewrite <- (trace_unique _ _ _ _ Hext Hext') in Hres.
  exists evs. repeat (split; [assumption|]).
  destruct r as [[[e|] out]|e]; [exact Hres | apply Hres | exact I].
Qed.

Lemma getPool_path dbcfg (w : World DB) r w1 :
  getPool drv rt dbcfg w = (r, w1) ->
  exists a pe, r = Ok a /\ Extends w w1 pe /\ PoolStep rt dbcfg w pe w1 /\
    forall pool, a = (None, pool) ->
      truthy dbcfg = true /\
      lookup_pool (pool_key rt dbcfg) (w_pools w1) = pool.
Proof.
  unfold getPool. destruct (truthy dbcfg) eqn:Ht; cbn [negb].
  2:{ intros H. apply run_ret in H as [-> ->]. do 2 eexists.
      split; [reflexivity|]. split; [apply Extends_refl|].
      split; [left; auto | discriminate]. }
  unfold bind, world.
  destruct (lookup_pool (pool_key rt dbcfg) (w_pools w)) as [pool|] eqn:Hl.
  { intros H. apply run_ret in H as [-> ->]. do 2 eexists.
    split; [reflexivity|]. split; [apply Extends_refl|].
    split; [left; eauto|].
    intros pool0 Heq. inversion Heq; subst. auto. }
  unfold call. destruct (createPool drv dbcfg (w_db w)) as [[pool|e] db'].
  - unfold set_db_pools, ret. intros H; inversion H; subst; clear H.
    exists (None, pool), [EvCreatePool dbcfg (Ok pool)].
    split; [reflexivity|]. split; [unfold Extends; simpl; now repeat split|].
    split.
    + right. split; [exact Ht|]. split; [exact Hl|].
      exists (Ok pool). split; reflexivity.
    + intros pool0 Heq. inversion Heq; subst. split; [reflexivity|].
      simpl. apply lookup_store.
  - unfold ret. intros H; inversion H; subst; clear H.
    exists (Some e, None), [EvCreatePool dbcfg (Throw e)].
    split; [reflexivity|]. split; [unfold Extends; simpl; now repeat split|].
    split; [|discriminate].
    right. split; [exact Ht|]. split; [exact Hl|].
    exists (Throw e). split; reflexivity.
Qed.

Lemma PoolStep_frame dbcfg (w w1 w' : World DB) pe :
  PoolStep rt dbcfg w pe w1 -> w_pools w' = w_pools w1 ->
  PoolStep rt dbcfg w pe w'.
Proof. unfold PoolStep. intros H Hp. rewrite Hp. exact H. Qed.

Lemma getConnectionOf_path pool (w : World DB) r w' :
  getConnectionOf drv pool w = (r, w') ->
  exists err conn gc, r = Ok (err, conn) /\ Extends w w' gc /\
    w_pools w' = w_pools w /\ ConnectEvents err conn gc.
Proof.
  unfold getConnectionOf. destruct pool as [p|].
  - intros H. apply run_call in H as ([err conn] & -> & _ & Hext & Hp).
    exists err, conn. eexists. split; [reflexivity|]. split; [exact Hext|].
    split; [exact Hp|]. right. exists p. reflexivity.
  - intros H. apply run_ret in H as [-> ->]. exists (Some ErrNullPool), None, [].
    split; [reflexivity|]. split; [apply Extends_refl|].
    split; [reflexivity|]. left. auto.
Qed.

Lemma finalize_pools singular results started conn err (w : World DB) r w' :
  finalize drv singular results started conn err w = (r, w') ->
  w_pools w' = w_pools w.
Proof.
  unfold finalize, releaseConnection, bind, call, ret.
  destruct conn as [c|]; [|intros H; now inversion H].
  destruct started.
  - destruct (rollback drv c (w_db w)) as [re db1]. cbn.
    destruct (release drv c db1) as [rl db2]. cbn.
    intros H; now inversion H.
  - cbn. destruct (release drv c (w_db w)) as [rl db2]. cbn.
    intros H; now inversion H.
Qed.

Lemma setCommitOp_eq bTransact :
  doAction OpE (VStr (setCommitSql bTransact)) VUndef VUndef
  = Ok {| rawSql := setCommitSql bTransact; sql := setCommitSql bTransact;
          paramRefs := []; paramTypes := []; bindStyles := [];
          opcode := OpE; dflt := VUndef; paramVals := VNull;
          paramShape := ShFalse; isMulti := false |}.
Proof. destruct bTransact; reflexivity. Qed.

Lemma set_path bTransact conn dbcfg op (w : World DB) r w' :
  doAction OpE (VStr (setCommitSql bTransact)) VUndef VUndef = Ok op ->
  doExecute drv conn dbcfg op [] w = (r, w') ->
  exists sc, Extends w w' sc /\ w_pools w' = w_pools w /\
             SetEvents bTransact conn sc /\ OpResult conn r sc.
Proof.
  rewrite setCommitOp_eq. intros Hop H. inversion Hop; subst op; clear Hop.
  unfold doExecute, execParams in H. cbn [isMulti negb paramVals] in H.
  pose proof H as H1. pose proof H as H2.
  apply execLoop_trace in H1 as (sc & Hext & Hp & Hres).
  apply execLoop_events in H2 as (sc' & Hext' & Hev).
  rewrite <- (trace_unique _ _ _ _ Hext Hext') in Hev. clear Hext' sc'.
  exists sc. split; [exact Hext|]. split; [exact Hp|]. split; [|exact Hres].
  split; [exact Hev|].
  destruct conn as [c|].
  - destruct (execute drv c (setCommitSql bTransact) [] (w_db w))
      as [[err raw] db'] eqn:E.
    destruct (one_execution DB drv c dbcfg
                {| rawSql := setCommitSql bTransact;
                   sql := setCommitSql bTransact;
                   paramRefs := []; paramTypes := []; bindStyles := [];
                   opcode := OpE; dflt := VUndef; paramVals := VNull;
                   paramShape := ShFalse; isMulti := false |}
                [] true VNull 0%Z w [] err raw db' eq_refl E)
      as (w'' & evs & Hrun & Hext'' & _ & Hex).
    rewrite Hrun in H. inversion H; subst w''.
    now rewrite (trace_unique _ _ _ _ Hext Hext'').
  - cbn [execLoop paramRefs paramTypes] in H.
    change (makeArgs [] [] VNull []) with (Ok (@nil Value)) in H.
    apply run_bind in H as [(u & w1 & Hecho & H)|(e & Hecho & _)].
    2:{ apply run_echo in Hecho as [? _]; discriminate. }
    apply run_echo in Hecho as (_ & evs1 & Hext1 & _ & Hex1 & _).
    apply run_escape in H as [-> _].
    now rewrite (trace_unique _ _ _ _ Hext Hext1).
Qed.

Ltac chain :=
  solve [ eassumption
        | apply Extends_refl
        | eapply Extends_trans; [eassumption | chain] ].

(** Every run of [runFinale]: what [getPool] does, the path from
    [getConnection] on, and where the value handed to the callback comes
    from. *)
Lemma runFinale_path dbcfg bTransact ops (w : World DB) r w' :
  runFinale drv rt dbcfg bTransact ops w = (r, w') ->
  exists pe body,
    Extends w w' (pe ++ body) /\ PoolStep rt dbcfg w pe w' /\
    BodyPath bTransact (outcome_of r) body /\
    forall err rv, r = Ok (Delivered err rv) ->
      exists results,
        rv = rv_of ops results /\
        (results = [] \/
         exists conn w1 w2 e,
           fillInResults drv rt conn dbcfg ops [] w1 = (Ok (e, results), w2) /\
           (e = err \/ (e = None /\ bTransact = true))).
Proof.
  unfold runFinale. intros H.
  apply run_bind in H as [(a & w1 & Hpool & H)|(e & Hpool & ->)].
  2:{ apply getPool_path in Hpool as (a & ? & Ha & _). discriminate. }
  apply getPool_path in Hpool as (a' & pe & Ha & Hext1 & Hstep & _).
  inversion Ha; subst a'; clear Ha.
  destruct a as [[e|] pool].
  { pose proof (finalize_pools _ _ _ _ _ _ _ _ H) as Hp.
    apply finalize_spec in H as (-> & fin & Hextf & Hfin).
    simpl in Hfin. subst fin.
    exists pe, []. split; [chain|]. split; [eapply PoolStep_frame; eauto|].
    split; [apply bp_no_pool|].
    intros err rv Heq. inversion Heq; subst. exists []. auto. }
  apply run_bind in H as [(a & w2 & Hconn & H)|(e & Hconn & ->)].
  2:{ apply getConnectionOf_path in Hconn as (? & ? & ? & Ha & _). discriminate. }
  apply getConnectionOf_path in Hconn
    as (err0 & conn & gc & Ha & Hext2 & Hp2 & Hgc).
  inversion Ha; subst a; clear Ha.
  destruct err0 as [e|].
  { pose proof (finalize_pools _ _ _ _ _ _ _ _ H) as Hp.
    apply finalize_spec in H as (-> & fin & Hextf & Hfin).
    exists pe, (gc ++ fin). split; [chain|].
    split; [eapply PoolStep_frame; [eauto | congruence]|].
    split; [eapply bp_no_connection; eauto|].
    intros err rv Heq. inversion Heq; subst. exists []. auto. }
  destruct (doAction OpE (VStr (setCommitSql bTransact)) VUndef VUndef)
    as [setCommitOp|e] eqn:Hop.
  2:{ rewrite setCommitOp_eq in Hop. discriminate. }
  apply run_bind in H as [(a & w3 & Hset & H)|(e & Hset & ->)].
  2:{ apply (set_path bTransact _ _ _ _ _ _ Hop) in Hset
        as (sc & Hext3 & Hp3 & Hev & _).
      exists pe, (gc ++ sc). split; [chain|].
      split; [eapply PoolStep_frame; [eauto | congruence]|].
      split; [eapply bp_set_thrown; eauto | discriminate]. }
  apply (set_path bTransact _ _ _ _ _ _ Hop) in Hset
    as (sc & Hext3 & Hp3 & Hsc & Hres3).
  destruct a as [e|v]; simpl in Hres3.
  { pose proof (finalize_pools _ _ _ _ _ _ _ _ H) as Hp.
    apply finalize_spec in H as (-> & fin & Hextf & Hfin).
    exists pe, (gc ++ sc ++ fin). split; [chain|].
    split; [eapply PoolStep_frame; [eauto | congruence]|].
    split; [eapply bp_set_failed; eauto|].
    intros err rv Heq. inversion Heq; subst. exists []. auto. }
  destruct bTransact.
  - destruct conn as [c|].
    2:{ apply run_throw in H as [-> ->].
        exists pe, (gc ++ sc). split; [chain|].
        split; [eapply PoolStep_frame; [eauto | congruence]|].
        split; [eapply bp_set_thrown; eassumption | discriminate]. }
    apply run_bind in H as [(berr & w4 & Hbegin & H)|(e & Hbegin & ->)].
    2:{ apply run_call in Hbegin as (? & ? & _); discriminate. }
    apply run_call in Hbegin as (a' & Ha & _ & Hext4 & Hp4).
    inversion Ha; subst a'; clear Ha.
    destruct berr as [e|].
    { pose proof (finalize_pools _ _ _ _ _ _ _ _ H) as Hp.
      apply finalize_spec in H as (-> & fin & Hextf & Hfin).
      exists pe, (gc ++ sc ++ [EvBegin c (Some e)] ++ fin). split; [chain|].
      split; [eapply PoolStep_frame; [eauto | congruence]|].
      split; [eapply bp_begin_failed; eauto|].
      intros err rv Heq. inversion Heq; subst. exists []. auto. }
    apply run_bind in H as [(a & w5 & Hfill & H)|(e & Hfill & ->)].
    2:{ apply fillInResults_path in Hfill as (fl & Hext5 & Hp5 & Hev5 & _).
        exists pe, (gc ++ sc ++ [EvBegin c None] ++ fl). split; [chain|].
        split; [eapply PoolStep_frame; [eauto | congruence]|].
        split; [eapply bp_thrown_in_transaction; eauto | discriminate]. }
    pose proof Hfill as Hfill'.
    apply fillInResults_path in Hfill' as (fl & Hext5 & Hp5 & Hev5 & Hres5).
    destruct a as [[e|] results].
    { pose proof (finalize_pools _ _ _ _ _ _ _ _ H) as Hp.
      apply finalize_spec in H as (-> & fin & Hextf & Hfin).
      exists pe, (gc ++ sc ++ [EvBegin c None] ++ fl ++ fin). split; [chain|].
      split; [eapply PoolStep_frame; [eauto | congruence]|].
      split; [eapply bp_failed_in_transaction; eauto|].
      intros err rv Heq. inversion Heq; subst. exists results.
      split; [reflexivity|]. right. do 4 eexists. split; [eassumption|]. auto. }
    apply run_bind in H as [(cerr & w6 & Hcommit & H)|(e & Hcommit & ->)].
    2:{ apply run_call in Hcommit as (? & ? & _); discriminate. }
    apply run_call in Hcommit as (a' & Ha & _ & Hext6 & Hp6).
    inversion Ha; subst a'; clear Ha.
    pose proof (finalize_pools _ _ _ _ _ _ _ _ H) as Hp.
    apply finalize_spec in H as (-> & fin & Hextf & Hfin).
    exists pe, (gc ++ sc ++ [EvBegin c None] ++ fl ++ [EvCommit c cerr] ++ fin).
    split; [chain|].
    split; [eapply PoolStep_frame; [eauto | congruence]|].
    split; [eapply bp_committed; eauto|].
    intros err rv Heq. inversion Heq; subst. exists results.
    split; [reflexivity|]. right. do 4 eexists. split; [eassumption|]. auto.
  - apply run_bind in H as [(a & w5 & Hfill & H)|(e & Hfill & ->)].
    2:{ apply fillInResults_path in Hfill as (fl & Hext5 & Hp5 & Hev5 & _).
        exists pe, (gc ++ sc ++ fl). split; [chain|].
        split; [eapply PoolStep_frame; [eauto | congruence]|].
        split; [eapply bp_thrown; eauto | discriminate]. }
    pose proof Hfill as Hfill'.
    apply fillInResults_path in Hfill' as (fl & Hext5 & Hp5 & Hev5 & Hres5).
    pose proof (finalize_pools _ _ _ _ _ _ _ _ H) as Hp.
    apply finalize_spec in H as (-> & fin & Hextf & Hfin).
    exists pe, (gc ++ sc ++ fl ++ fin). split; [chain|].
    split; [eapply PoolStep_frame; [eauto | congruence]|].
    destruct a as [[e|] results]; cbn [fst snd] in *.
    + split; [eapply bp_failed; eauto|].
      intros err rv Heq. inversion Heq; subst. exists results.
      split; [reflexivity|]. right. do 4 eexists. split; [eassumption|]. auto.
    + split; [eapply bp_done; eauto|].
      intros err rv Heq. inversion Heq; subst. exists results.
      split; [reflexivity|]. right. do 4 eexists. split; [eassumption|]. auto.
Qed.

End Paths.

Lemma ConnectEvents_projections err conn gc :
  ConnectEvents err conn gc ->
  txcalls gc = [] /\ creations gc = [] /\ executions gc = [] /\
  released gc = [] /\
  acquired gc = match conn with Some c => [c] | None => [] end.
Proof.
  intros [(-> & -> & _)|(p & ->)]; [now repeat split|].
  destruct conn; now repeat split.
Qed.

Lemma FinalEvents_projections conn started fin :
  FinalEvents conn started fin ->
  creations fin = [] /\ executions fin = [] /\ acquired fin = [] /\
  released fin = match conn with Some c => [c] | None => [] end /\
  match conn, started with
  | Some c, true => exists re, txcalls fin = [EvRollback c re]
  | _, _ => txcalls fin = []
  end.
Proof.
  destruct conn as [c|]; simpl; [|intros ->; now repeat split].
  intros (rl & H). destruct started; [destruct H as (re & ->)|subst fin];
    simpl; repeat split; eauto.
Qed.

Lemma PoolStep_projections {DB} rt dbcfg (w w' : World DB) pe :
  PoolStep rt dbcfg w pe w' ->
  txcalls pe = [] /\ executions pe = [] /\ acquired pe = [] /\
  released pe = [] /\ (pe = [] \/ exists r, pe = [EvCreatePool dbcfg r]).
Proof.
  intros [(-> & _)|(_ & _ & r & -> & _)]; repeat split; eauto.
Qed.

Ltac path_facts :=
  repeat match goal with
  | H : SetEvents _ _ _ |- _ => destruct H as [? ?]
  | H : ConnectEvents _ _ _ |- _ =>
    apply ConnectEvents_projections in H; destruct H as (? & ? & ? & ? & ?)
  | H : OpEvents _ _ |- _ =>
    apply OpEvents_projections in H; destruct H as (? & ? & ? & ? & ?)
  | H : FinalEvents _ _ _ |- _ =>
    apply FinalEvents_projections in H; destruct H as (? & ? & ? & ? & ?)
  | H : PoolStep _ _ _ _ _ |- _ =>
    apply PoolStep_projections in H; destruct H as (? & ? & ? & ? & ?)
  end.

Ltac path_rewrite :=
  rewrite ?txcalls_app, ?creations_app, ?executions_app, ?acquired_app,
    ?released_app;
  repeat match goal with
  | H : txcalls ?x = _ |- context [txcalls ?x] => rewrite H
  | H : creations ?x = _ |- context [creations ?x] => rewrite H
  | H : executions ?x = _ |- context [executions ?x] => rewrite H
  | H : acquired ?x = _ |- context [acquired ?x] => rewrite H
  | H : released ?x = _ |- context [released ?x] => rewrite H
  end.

Section Protocol.

Variable DB : Type.
Variable drv : Driver DB.
Variable rt : Runtime.

(** Every run of [doFinale]: a guard answers and the world stays as it is,
    or the stage is marked and [runFinale] takes one of its paths. *)
Lemma doFinale_path dbcfg bTransact ops cb (w : World DB) r w' :
  doFinale drv rt dbcfg bTransact ops cb w = (r, w') ->
  (w' = w /\
   (r = Throw not_a_function \/
    exists e, r = Ok (Delivered (Some e) VUndef))) \/
  (exists st pe body,
     nth_error (w_stages w) ops = Some st /\ cb = CbFunction /\
     w_trace w' = w_trace w ++ pe ++ body /\
     PoolStep rt dbcfg w pe w' /\
     BodyPath bTransact (outcome_of r) body /\
     forall err rv, r = Ok (Delivered err rv) ->
       exists results,
         rv = rv_of (st_ops st) results /\
         (results = [] \/
          exists conn w1 w2 e,
            fillInResults drv rt conn dbcfg (st_ops st) [] w1
            = (Ok (e, results), w2) /\
            (e = err \/ (e = None /\ bTransact = true)))).
Proof.
  rewrite doFinale_unfold. intros H.
  assert (Hguard : forall e, invoke cb e w = (r, w') ->
            w' = w /\ (r = Throw not_a_function \/
                       exists e, r = Ok (Delivered (Some e) VUndef))).
  { intros e He. destruct cb; inversion He; subst; split; eauto. }
  destruct (w_closing w) eqn:Hc; [left; eauto|].
  destruct (truthy dbcfg) eqn:Ht; cbn [negb] in H; [|left; eauto].
  destruct (nth_error (w_stages w) ops) as [st|] eqn:Hst; [|left; eauto].
  destruct cb as [|v]; [|left; eauto].
  destruct (st_finaleComplete st) eqn:Hf; [left; eauto|].
  right. apply runFinale_path in H as (pe & body & Hext & Hstep & Hpath & Hrv).
  exists st, pe, body. split; [reflexivity|]. split; [reflexivity|].
  split; [apply Hext|]. split; [exact Hstep|]. split; [exact Hpath|exact Hrv].
Qed.

(** X19. With autocommit on, a finalization never begins, commits or rolls back
    a transaction, however it ends. *)
Theorem autocommit_makes_no_transaction dbcfg ops cb (w : World DB) r w' :
  doFinale drv rt dbcfg false ops cb w = (r, w') ->
  exists evs, w_trace w' = w_trace w ++ evs /\ txcalls evs = [].
Proof.
  intros H. apply doFinale_path in H
    as [(-> & _)|(st & pe & body & _ & _ & Htr & Hstep & Hpath & _)].
  { exists []. now rewrite app_nil_r. }
  exists (pe ++ body). split; [exact Htr|].
  inversion Hpath; subst; try discriminate; path_facts; path_rewrite;
    try reflexivity;
    repeat match goal with
    | H : match ?c with Some _ => _ | None => _ end |- _ => destruct c
    end; path_rewrite; reflexivity.
Qed.

(** X20. A finalization in a transaction that calls back has made one of four
    sequences of transaction calls: none, having failed before; a
    [beginTransaction] that failed; a [beginTransaction] and a [rollback],
    an operation having failed; or a [beginTransaction], a [commit] whose
    answer is the error handed to the callback, and then a [rollback] all
    the same.  The commit comes only after every statement has been answered
    without error, and what the rollback answers is dropped. *)
Theorem transaction_protocol dbcfg ops cb (w : World DB) err rv w' :
  doFinale drv rt dbcfg true ops cb w = (Ok (Delivered err rv), w') ->
  exists evs,
    w_trace w' = w_trace w ++ evs /\
    ((txcalls evs = [] /\ err <> None) \/
     (exists c e, txcalls evs = [EvBegin c (Some e)] /\ err = Some e) \/
     (exists c e re,
        txcalls evs = [EvBegin c None; EvRollback c re] /\ err = Some e) \/
     (exists c re,
        txcalls evs = [EvBegin c None; EvCommit c err; EvRollback c re] /\
        after_failure evs = None)).
Proof.
  intros H. apply doFinale_path in H
    as [(-> & [H|(e & H)])
       |(st & pe & body & _ & _ & Htr & Hstep & Hpath & _)];
    try discriminate.
  { inversion H; subst. exists []. rewrite app_nil_r. split; [reflexivity|].
    left. split; [reflexivity | discriminate]. }
  exists (pe ++ body). split; [exact Htr|].
  assert (Hpe : after_failure pe = None)
    by (destruct Hstep as [(-> & _)|(_ & _ & r0 & -> & _)]; reflexivity).
  simpl in Hpath.
  inversion Hpath; subst; try discriminate.
  - left. path_facts. path_rewrite. split; [reflexivity | discriminate].
  - left. path_facts. destruct conn; path_rewrite;
      (split; [reflexivity | discriminate]).
  - left. path_facts. destruct conn; path_rewrite;
      (split; [reflexivity | discriminate]).
  - right; left. exists c, e. path_facts. path_rewrite. split; reflexivity.
  - right; right; left. path_facts.
    match goal with H : exists re, _ |- _ => destruct H as (re & Hre) end.
    exists c, e, re. path_rewrite. split; reflexivity.
  - right; right; right.
    assert (Hgc : after_failure gc = None).
    { match goal with
      | H : ConnectEvents _ _ gc |- _ =>
        destruct H as [(-> & _)|(p & ->)]; reflexivity
      end. }
    assert (Hfin : after_failure fin = None).
    { match goal with
      | H : FinalEvents _ _ fin |- _ =>
        destruct H as (rl & re & ->); reflexivity
      end. }
    assert (Hfail : after_failure
              (pe ++ gc ++ sc ++ [EvBegin c None] ++ fl ++ [EvCommit c err] ++ fin)
            = None).
    { repeat match goal with H : Quiet _ |- _ => destruct H as (_ & _ & _ & H) end.
      rewrite !after_failure_app.
      repeat match goal with
      | H : after_failure ?x = None |- context [after_failure ?x] => rewrite H
      end.
      reflexivity. }
    path_facts.
    match goal with H : exists re, _ |- _ => destruct H as (re & Hre) end.
    exists c, re. path_rewrite. split; [reflexivity | exact Hfail].
Qed.



Lemma executions_shape bTransact conn sc fl :
  SetEvents bTransact conn sc -> OpEvents conn fl ->
  forall exs, exs = executions sc ++ executions fl ->
  forall c s a, In (c, s, a) exs ->
    conn = Some c /\ exists rest, exs = (c, setCommitSql bTransact, []) :: rest.
Proof.
  intros [_ Hex] Hfl exs -> c s a Hin.
  apply OpEvents_projections in Hfl as (_ & _ & _ & _ & Hon).
  rewrite Hex in *. destruct conn as [c0|]; simpl in *.
  - assert (c0 = c) as ->.
    { destruct Hin as [Heq|Hin]; [now inversion Heq|].
      apply Hon in Hin. now inversion Hin. }
    split; eauto.
  - apply Hon in Hin. discriminate.
Qed.

Ltac edge_facts :=
  repeat match goal with
  | H : ConnectEvents _ _ _ |- _ =>
    apply ConnectEvents_projections in H; destruct H as (? & ? & ? & ? & ?)
  | H : FinalEvents _ _ _ |- _ =>
    apply FinalEvents_projections in H; destruct H as (? & ? & ? & ? & ?)
  end.

Ltac body_executions :=
  edge_facts; rewrite ?executions_app;
  repeat match goal with
  | H : executions ?x = [] |- context [executions ?x] => rewrite H
  end;
  simpl; rewrite ?app_nil_r; reflexivity.

Ltac body_shape conn sc fl :=
  exists conn;
  split; [path_facts; path_rewrite; simpl; rewrite ?app_nil_r; reflexivity|];
  intros c0 s0 a0 Hin;
  eapply (executions_shape _ conn sc fl);
    [eassumption | first [eassumption | apply OpEvents_nil]
    | body_executions | exact Hin].

Lemma body_connection bTransact o body :
  BodyPath bTransact o body ->
  creations body = [] /\
  exists conn,
    acquired body = match conn with Some c => [c] | None => [] end /\
    forall c s a, In (c, s, a) (executions body) ->
      conn = Some c /\
      exists rest, executions body = (c, setCommitSql bTransact, []) :: rest.
Proof.
  intros H. split.
  { destruct H; path_facts; path_rewrite; reflexivity. }
  destruct H.
  - exists None. split; [reflexivity|]. intros c s a [].
  - exists conn. edge_facts. path_rewrite. rewrite app_nil_r.
    split; [reflexivity|]. intros c s a [].
  - body_shape conn sc (@nil Event).
  - body_shape conn sc (@nil Event).
  - body_shape (Some c) sc (@nil Event).
  - body_shape (Some c) sc fl.
  - body_shape (Some c) sc fl.
  - body_shape (Some c) sc fl.
  - body_shape conn sc fl.
  - body_shape conn sc fl.
  - body_shape conn sc fl.
Qed.

(** X22. A finalization asks for at most one connection, and every statement it
    sends goes to that connection; the first statement it sends is the one
    that sets the commit mode, [SET autocommit=0] in a transaction and
    [SET autocommit=1] otherwise, with no arguments. *)
Theorem finale_uses_one_connection dbcfg bTransact ops cb (w : World DB) r w' :
  doFinale drv rt dbcfg bTransact ops cb w = (r, w') ->
  exists evs,
    w_trace w' = w_trace w ++ evs /\
    (acquired evs = [] \/ exists c, acquired evs = [c]) /\
    forall c s a, In (c, s, a) (executions evs) ->
      acquired evs = [c] /\
      exists rest, executions evs = (c, setCommitSql bTransact, []) :: rest.
Proof.
  intros H. apply doFinale_path in H
    as [(-> & _)|(st & pe & body & _ & _ & Htr & Hstep & Hpath & _)].
  { exists []. rewrite app_nil_r. split; [reflexivity|].
    split; [now left | intros c s a []]. }
  exists (pe ++ body). split; [exact Htr|].
  apply body_connection in Hpath as (_ & conn & Hacq & Hex).
  apply PoolStep_projections in Hstep as (_ & Hpe1 & Hpe2 & _).
  rewrite acquired_app, executions_app, Hpe1, Hpe2, Hacq. cbn [app].
  split; [destruct conn; eauto|].
  intros c s a Hin. destruct (Hex c s a Hin) as (-> & Hrest). auto.
Qed.

(** X23. A finalization, of a configuration whose key is no name that objects
    inherit, calls [createPool] only when the registry has no pool under the
    key of its configuration, then once and before anything else,
    and stores what it returns under that key; when the registry has one it
    creates nothing and leaves the registry as it is.  A [createPool] that
    throws stores nothing. *)
Theorem finale_pool_registry dbcfg bTransact ops cb (w : World DB) r w' :
  inherited_name (pool_key rt dbcfg) = false ->
  doFinale drv rt dbcfg bTransact ops cb w = (r, w') ->
  exists evs,
    w_trace w' = w_trace w ++ evs /\
    ((creations evs = [] /\ w_pools w' = w_pools w) \/
     (lookup_pool (pool_key rt dbcfg) (w_pools w) = None /\
      exists res body,
        evs = EvCreatePool dbcfg res :: body /\
        creations evs = [EvCreatePool dbcfg res] /\
        w_pools w' = match res with
                     | Ok pool =>
                       store_pool (pool_key rt dbcfg) pool (w_pools w)
                     | Throw _ => w_pools w
                     end)) /\
    (forall p, lookup_pool (pool_key rt dbcfg) (w_pools w) = Some p ->
               creations evs = [] /\ w_pools w' = w_pools w).
Proof.
  intros _ H. apply doFinale_path in H
    as [(-> & _)|(st & pe & body & _ & _ & Htr & Hstep & Hpath & _)].
  { exists []. rewrite app_nil_r. split; [reflexivity|]. auto. }
  exists (pe ++ body). split; [exact Htr|].
  apply body_connection in Hpath as (Hcr & _).
  rewrite creations_app, Hcr, app_nil_r.
  destruct Hstep as [(-> & Hp & _)|(_ & Hl & res & -> & Hp)].
  - split; [left; auto | auto].
  - split.
    + right. split; [exact Hl|]. exists res, body. auto.
    + intros p Hsome. congruence.
Qed.

(** X24. A finalization that ends in an exception has released no connection
    and has neither committed nor rolled back: the connection it may have
    acquired stays out of the pool, and the transaction it may have begun
    stays open. *)
Theorem exception_keeps_connection dbcfg bTransact ops cb (w : World DB) e w' :
  doFinale drv rt dbcfg bTransact ops cb w = (Throw e, w') ->
  exists evs,
    w_trace w' = w_trace w ++ evs /\
    released evs = [] /\
    (txcalls evs = [] \/ exists c, txcalls evs = [EvBegin c None]).
Proof.
  intros H. apply doFinale_path in H
    as [(-> & _)|(st & pe & body & _ & _ & Htr & Hstep & Hpath & _)].
  { exists []. rewrite app_nil_r. auto. }
  exists (pe ++ body). split; [exact Htr|].
  simpl in Hpath. inversion Hpath; subst; path_facts; path_rewrite;
    simpl; eauto.
Qed.

End Protocol.

(** ** The registry of pools, the shutdown and the queues *)

Lemma occurrences_app x a b :
  occurrences x (a ++ b) = occurrences x a + occurrences x b.
Proof. induction a as [|y a IH]; simpl; [reflexivity | rewrite IH; lia]. Qed.

Lemma occurrences_rev x l : occurrences x (rev l) = occurrences x l.
Proof.
  induction l as [|y l IH]; simpl; [reflexivity|].
  rewrite occurrences_app, IH. simpl. lia.
Qed.

Lemma ended_ends ps : ended (map EvEnd ps) = ps.
Proof. induction ps as [|p ps IH]; simpl; [reflexivity | now rewrite IH]. Qed.

Lemma all_pools_map pools :
  all_pools pools -> map snd pools = map Some (pools_of pools).
Proof.
  induction 1 as [|[k [p|]] pools Hp _ IH]; simpl in *;
    [reflexivity | now rewrite IH | contradiction].
Qed.

Section Registry.

Variable DB : Type.
Variable drv : Driver DB.
Variable rt : Runtime.

(** X25. For a key that is no name that objects inherit: a pool that
    [getPool] has handed out is handed out again, with no call
    to the driver and no change to the world, to every later call whose
    configuration has the same key, the same string or the same JSON text,
    as long as the registry is as [getPool] left it; and [getPool] leaves
    the entries under all other keys as they were. *)
Theorem pool_reused dbcfg (w : World DB) p w1 :
  inherited_name (pool_key rt dbcfg) = false ->
  getPool drv rt dbcfg w = (Ok (None, Some p), w1) ->
  (forall dbcfg' (w2 : World DB),
     truthy dbcfg' = true ->
     pool_key rt dbcfg' = pool_key rt dbcfg ->
     w_pools w2 = w_pools w1 ->
     getPool drv rt dbcfg' w2 = (Ok (None, Some p), w2)) /\
  (forall k, k <> pool_key rt dbcfg ->
             lookup_pool k (w_pools w1) = lookup_pool k (w_pools w)).
Proof.
  intros _ H. apply getPool_path in H as (a & pe & Ha & _ & Hstep & Hl).
  inversion Ha; subst a; clear Ha.
  destruct (Hl _ eq_refl) as [_ Hfound]. split.
  - intros dbcfg' w2 Ht Hkey Hp. unfold getPool. rewrite Ht. cbn [negb].
    unfold bind, world. rewrite Hkey, Hp, Hfound. reflexivity.
  - intros k Hk.
    destruct Hstep as [(_ & -> & _)|(_ & _ & r & _ & ->)]; [reflexivity|].
    destruct r; [now apply lookup_store_other | reflexivity].
Qed.

Lemma closeNextPool_pools callback pools :
  forall (w : World DB) r w',
    closeNextPool drv callback pools w = (r, w') -> w_pools w' = w_pools w.
Proof.
  induction pools as [|[p|] pools IH]; intros w r w' H; cbn [closeNextPool] in H.
  - destruct callback; now inversion H.
  - apply run_bind in H as [(u & w1 & Hcall & H)|(e & Hcall & _)].
    + apply run_call in Hcall as (_ & _ & _ & _ & Hp).
      apply IH in H. congruence.
    + apply run_call in Hcall as (? & ? & _). discriminate.
  - now inversion H.
Qed.

Lemma closeNextPool_all callback ps :
  forall w : World DB,
    exists w',
      closeNextPool drv callback (map Some ps) w
      = (match callback with
         | CbFunction => Ok tt
         | CbValue _ => Throw not_a_function
         end, w') /\
      w_trace w' = w_trace w ++ map EvEnd ps /\
      w_closing w' = w_closing w.
Proof.
  induction ps as [|p ps IH]; intros w; cbn [map closeNextPool].
  - exists w. rewrite app_nil_r. destruct callback; auto.
  - unfold bind at 1. unfold call at 1. cbn.
    match goal with
    | |- context [closeNextPool drv callback (map Some ps) ?w0] =>
      destruct (IH w0) as (w' & Hrun & Htr & Hc)
    end.
    exists w'. rewrite Hrun. cbn in Htr, Hc.
    split; [reflexivity|]. split; [|exact Hc].
    rewrite Htr, <- app_assoc. reflexivity.
Qed.

(** X26. When every key of the registry holds a pool, [curtains] sets the closing
    flag, ends every pool of the registry exactly once and does nothing
    else, leaves the registry with all its pools in it, and then calls its
    callback; a truthy callback that is no function makes that call throw,
    after the pools have been ended. *)
Theorem curtains_ends_every_pool callback (w : World DB) :
  all_pools (w_pools w) ->
  exists r w' evs,
    curtains drv callback w = (r, w') /\
    w_trace w' = w_trace w ++ evs /\
    evs = map EvEnd (ended evs) /\
    (forall p, occurrences p (ended evs)
               = occurrences p (pools_of (w_pools w))) /\
    w_pools w' = w_pools w /\
    w_closing w' = true /\
    r = match callback with
        | CbFunction => Ok tt
        | CbValue v => if truthy v then Throw not_a_function else Ok tt
        end.
Proof.
  intros Hall. unfold curtains, doCurtains, bind, set_closing, world. cbn.
  rewrite (all_pools_map _ Hall), <- map_rev.
  match goal with
  | |- context [closeNextPool drv ?cb (map Some ?ps) ?w0] =>
    destruct (closeNextPool_all cb ps w0) as (w' & Hrun & Htr & Hc);
    pose proof (closeNextPool_pools _ _ _ _ _ Hrun) as Hp
  end.
  cbn in Htr, Hc, Hp. rewrite Hrun.
  do 3 eexists. split; [reflexivity|]. split; [exact Htr|].
  rewrite ended_ends. split; [reflexivity|].
  split; [intros p; apply occurrences_rev|]. split; [exact Hp|].
  split; [exact Hc|].
  destruct callback as [|v]; [reflexivity|]. destruct (truthy v); reflexivity.
Qed.

Lemma step_pools a (w : World DB) k p :
  lookup_pool k (w_pools w) = Some p ->
  lookup_pool k (w_pools (step drv rt a w)) = Some p.
Proof.
  intros Hk.
  destruct a as [cfg|this opcode sql params dflt|this callback autocommit|callback];
    cbn [step].
  - exact Hk.
  - unfold stageAction. destruct (doAction opcode sql params dflt); exact Hk.
  - destruct (nth_error (w_stages w) this) as [st|] eqn:Hst.
    2:{ unfold stage_finale, bind, world. rewrite Hst. exact Hk. }
    rewrite (stage_finale_unfold _ drv rt _ _ _ _ _ Hst).
    destruct (doFinale drv rt (st_cfg st) (negb (truthy autocommit)) this
                callback w) as [r w'] eqn:E.
    apply doFinale_path in E
      as [(-> & _)|(st' & pe & body & _ & _ & _ & Hstep & _)]; [exact Hk|].
    cbn [snd].
    destruct Hstep as [(_ & -> & _)|(_ & Hnone & r0 & _ & ->)]; [exact Hk|].
    destruct r0; [|exact Hk].
    rewrite lookup_store_other; [exact Hk|]. intros ->. congruence.
  - unfold curtains, doCurtains, bind, set_closing, world. cbn.
    match goal with
    | |- context [closeNextPool drv ?cb ?ps ?w0] =>
      destruct (closeNextPool drv cb ps w0) as [r w'] eqn:E
    end.
    apply closeNextPool_pools in E. cbn [snd]. now rewrite E.
Qed.

Lemma run_pools acts : forall (w : World DB) k p,
  lookup_pool k (w_pools w) = Some p ->
  lookup_pool k (w_pools (run drv rt acts w)) = Some p.
Proof.
  induction acts as [|a acts IH]; intros w k p Hk; [exact Hk|].
  apply IH, step_pools, Hk.
Qed.

(** X27. The registry never drops or replaces a pool (under a key that is no
    name that objects inherit): whatever calls are made,
    stagings, finalizations and shutdowns, a pool stays under its key, and a
    finalization whose configuration has that key creates no pool and
    leaves the registry as it is. *)
Theorem pool_created_once (w : World DB) k p acts :
  inherited_name k = false ->
  lookup_pool k (w_pools w) = Some p ->
  lookup_pool k (w_pools (run drv rt acts w)) = Some p /\
  forall dbcfg bTransact ops cb r w',
    pool_key rt dbcfg = k ->
    doFinale drv rt dbcfg bTransact ops cb (run drv rt acts w) = (r, w') ->
    exists evs,
      w_trace w' = w_trace (run drv rt acts w) ++ evs /\
      creations evs = [] /\
      w_pools w' = w_pools (run drv rt acts w).
Proof.
  intros _ Hk. pose proof (run_pools acts w k p Hk) as Hk'.
  split; [exact Hk'|].
  intros dbcfg bTransact ops cb r w' Hkey H. subst k.
  apply doFinale_path in H
    as [(-> & _)|(st & pe & body & _ & _ & Htr & Hstep & Hpath & _)].
  { exists []. rewrite app_nil_r. auto. }
  exists (pe ++ body). split; [exact Htr|].
  apply body_connection in Hpath as (Hcr & _).
  rewrite creations_app, Hcr, app_nil_r.
  destruct Hstep as [(-> & Hp & _)|(_ & Hnone & _)]; [auto | congruence].
Qed.

Lemma push_op_ops op sts : forall i j st,
  nth_error sts j = Some st ->
  exists st', nth_error (push_op i op sts) j = Some st' /\
              st_cfg st' = st_cfg st /\
              st_ops st' = st_ops st ++ (if (i =? j)%nat then [op] else []).
Proof.
  induction sts as [|s0 sts IH]; intros i j st H.
  - destruct j; discriminate.
  - destruct i as [|i], j as [|j]; simpl in H |- *.
    + inversion H; subst. eexists. split; [reflexivity|]. simpl. auto.
    + exists st. rewrite app_nil_r. auto.
    + inversion H; subst. exists st. rewrite app_nil_r. auto.
    + apply IH, H.
Qed.

Lemma mark_finale_ops sts : forall i j st,
  nth_error sts j = Some st ->
  exists st', nth_error (mark_finale i sts) j = Some st' /\
              st_cfg st' = st_cfg st /\ st_ops st' = st_ops st.
Proof.
  induction sts as [|s0 sts IH]; intros i j st H.
  - destruct j; discriminate.
  - destruct i as [|i], j as [|j]; simpl in H |- *.
    + inversion H; subst. eexists. split; [reflexivity|]. simpl. auto.
    + exists st. auto.
    + inversion H; subst. exists st. auto.
    + apply IH, H.
Qed.

Lemma step_queue a (w : World DB) this st :
  nth_error (w_stages w) this = Some st ->
  exists st', nth_error (w_stages (step drv rt a w)) this = Some st' /\
              st_cfg st' = st_cfg st /\
              st_ops st' = st_ops st ++ added this a.
Proof.
  intros Hst.
  destruct a as [cfg|t opcode sql params dflt|t callback autocommit|callback];
    cbn [step added].
  - exists st. rewrite app_nil_r. split; [|auto].
    unfold stage, bind, world, set_stages, ret. cbn.
    rewrite nth_error_app1; [exact Hst|]. apply nth_error_Some. congruence.
  - unfold stageAction. destruct (doAction opcode sql params dflt) as [op|e].
    + unfold bind, world, set_stages. cbn.
      destruct (push_op_ops op _ t this st Hst) as (st' & H' & Hc & Ho).
      exists st'. split; [exact H'|]. split; [exact Hc|].
      rewrite Ho. now destruct (t =? this)%nat.
    + exists st. cbn. split; [exact Hst|]. split; [reflexivity|].
      destruct (t =? this)%nat; now rewrite app_nil_r.
  - rewrite app_nil_r.
    destruct (nth_error (w_stages w) t) as [st0|] eqn:Ht.
    2:{ unfold stage_finale, bind, world. rewrite Ht. now exists st. }
    rewrite (stage_finale_unfold _ drv rt _ _ _ _ _ Ht).
    destruct (doFinale drv rt (st_cfg st0) (negb (truthy autocommit)) t
                callback w) as [r w'] eqn:E.
    apply doFinale_spec in E
      as [(-> & _)|(st1 & _ & _ & _ & _ & _ & evs & (_ & Hs & _) & _)].
    + now exists st.
    + cbn [snd]. rewrite Hs. apply mark_finale_ops, Hst.
  - rewrite app_nil_r. destruct (curtains_closing _ drv callback w) as [_ Hs].
    rewrite Hs. now exists st.
Qed.

(** X28. The queue of a stage is what was added to it, in the order of the
    calls: whatever calls are made, on this stage or on others, each
    [execute] or query on the stage that [doAction] accepts appends its
    operation, one that [doAction] rejects appends nothing, and no other
    call, a finalization or the shutdown included, changes the queue or the
    configuration. *)
Theorem stage_queue_accumulates acts : forall (w : World DB) this st,
  nth_error (w_stages w) this = Some st ->
  exists st',
    nth_error (w_stages (run drv rt acts w)) this = Some st' /\
    st_cfg st' = st_cfg st /\
    st_ops st' = st_ops st ++ flat_map (added this) acts.
Proof.
  induction acts as [|a acts IH]; intros w this st Hst.
  - exists st. rewrite app_nil_r. auto.
  - destruct (step_queue a w this st Hst) as (st1 & H1 & Hc1 & Ho1).
    destruct (IH _ this st1 H1) as (st2 & H2 & Hc2 & Ho2).
    exists st2. split; [exact H2|]. split; [congruence|].
    rewrite Ho2, Ho1, <- app_assoc. reflexivity.
Qed.

End Registry.

(** ** The theorems above at work on the example driver *)

Lemma autocommit_makes_no_transaction_witness :
  doFinale demoDriver demoRuntime demoCfg false 0 CbFunction demoStaged
  = (Ok (Delivered None (VArr [num_of_Z 4; num_of_Z 4])),
     snd (doFinale demoDriver demoRuntime demoCfg false 0 CbFunction demoStaged))
  /\ exists evs,
       w_trace (snd (doFinale demoDriver demoRuntime demoCfg false 0 CbFunction
                       demoStaged))
       = w_trace demoStaged ++ evs /\
       txcalls evs = [].
Proof.
  assert (H : doFinale demoDriver demoRuntime demoCfg false 0 CbFunction demoStaged
              = (Ok (Delivered None (VArr [num_of_Z 4; num_of_Z 4])),
                 snd (doFinale demoDriver demoRuntime demoCfg false 0 CbFunction
                        demoStaged)))
    by (vm_compute; reflexivity).
  split; [exact H|].
  exact (autocommit_makes_no_transaction nat demoDriver demoRuntime _ _ _ _ _ _ H).
Defined.

Lemma transaction_protocol_witness :
  doFinale demoDriver demoRuntime demoCfg true 0 CbFunction demoStaged
  = (Ok (Delivered None (VArr [num_of_Z 4; num_of_Z 4])),
     snd (doFinale demoDriver demoRuntime demoCfg true 0 CbFunction demoStaged))
  /\ exists evs c re,
       w_trace (snd (doFinale demoDriver demoRuntime demoCfg true 0 CbFunction
                       demoStaged))
       = w_trace demoStaged ++ evs /\
       txcalls evs = [EvBegin c None; EvCommit c None; EvRollback c re].
Proof.
  assert (H : doFinale demoDriver demoRuntime demoCfg true 0 CbFunction demoStaged
              = (Ok (Delivered None (VArr [num_of_Z 4; num_of_Z 4])),
                 snd (doFinale demoDriver demoRuntime demoCfg true 0 CbFunction
                        demoStaged)))
    by (vm_compute; reflexivity).
  split; [exact H|].
  destruct (transaction_protocol nat demoDriver demoRuntime _ _ _ _ _ _ _ H)
    as (evs & Htr & [[_ Hne]|[(c & e & _ & He)|[(c & e & re & _ & He)
                                               |(c & re & Htx & _)]]]).
  - now contradiction Hne.
  - discriminate He.
  - discriminate He.
  - exists evs, c, re. split; [exact Htr | exact Htx].
Defined.


Lemma finale_uses_one_connection_witness :
  doFinale demoDriver demoRuntime demoCfg true 0 CbFunction demoStaged
  = (Ok (Delivered None (VArr [num_of_Z 4; num_of_Z 4])),
     snd (doFinale demoDriver demoRuntime demoCfg true 0 CbFunction demoStaged))
  /\ exists evs,
       w_trace (snd (doFinale demoDriver demoRuntime demoCfg true 0 CbFunction
                       demoStaged))
       = w_trace demoStaged ++ evs /\
       (acquired evs = [] \/ exists c, acquired evs = [c]).
Proof.
  assert (H : doFinale demoDriver demoRuntime demoCfg true 0 CbFunction demoStaged
              = (Ok (Delivered None (VArr [num_of_Z 4; num_of_Z 4])),
                 snd (doFinale demoDriver demoRuntime demoCfg true 0 CbFunction
                        demoStaged)))
    by (vm_compute; reflexivity).
  split; [exact H|].
  destruct (finale_uses_one_connection nat demoDriver demoRuntime
              _ _ _ _ _ _ _ H) as (evs & Htr & Hacq & _).
  exists evs. split; [exact Htr | exact Hacq].
Defined.

Lemma finale_pool_registry_witness :
  doFinale demoDriver demoRuntime demoCfg true 0 CbFunction demoStaged
  = (Ok (Delivered None (VArr [num_of_Z 4; num_of_Z 4])),
     snd (doFinale demoDriver demoRuntime demoCfg true 0 CbFunction demoStaged))
  /\ exists evs,
       w_trace (snd (doFinale demoDriver demoRuntime demoCfg true 0 CbFunction
                       demoStaged))
       = w_trace demoStaged ++ evs /\
       (forall p, lookup_pool (pool_key demoRuntime demoCfg)
                              (w_pools demoStaged) = Some p ->
                  creations evs = []).
Proof.
  assert (H : doFinale demoDriver demoRuntime demoCfg true 0 CbFunction demoStaged
              = (Ok (Delivered None (VArr [num_of_Z 4; num_of_Z 4])),
                 snd (doFinale demoDriver demoRuntime demoCfg true 0 CbFunction
                        demoStaged)))
    by (vm_compute; reflexivity).
  split; [exact H|].
  destruct (finale_pool_registry nat demoDriver demoRuntime
              demoCfg _ _ _ _ _ _ eq_refl H) as (evs & Htr & _ & Hcached).
  exists evs. split; [exact Htr|]. intros p Hp. apply (Hcached p Hp).
Defined.

Lemma exception_keeps_connection_witness :
  doFinale demoDriver demoRuntime demoCfg true 0 CbFunction demoThrowing
  = (Throw (TypeError "resultSet.forEach is not a function"),
     snd (doFinale demoDriver demoRuntime demoCfg true 0 CbFunction demoThrowing))
  /\ exists evs,
       w_trace (snd (doFinale demoDriver demoRuntime demoCfg true 0 CbFunction
                       demoThrowing))
       = w_trace demoThrowing ++ evs /\
       released evs = [].
Proof.
  assert (H : doFinale demoDriver demoRuntime demoCfg true 0 CbFunction demoThrowing
              = (Throw (TypeError "resultSet.forEach is not a function"),
                 snd (doFinale demoDriver demoRuntime demoCfg true 0 CbFunction
                        demoThrowing)))
    by (vm_compute; reflexivity).
  split; [exact H|].
  destruct (exception_keeps_connection nat demoDriver demoRuntime
              _ _ _ _ _ _ _ H) as (evs & Htr & Hrel & _).
  exists evs. split; [exact Htr | exact Hrel].
Defined.

Lemma pool_reused_witness :
  getPool demoDriver demoRuntime demoCfg demoWorld
  = (Ok (None, Some 1), snd (getPool demoDriver demoRuntime demoCfg demoWorld))
  /\ getPool demoDriver demoRuntime (VObj [("database", VStr "mydb")])
       (snd (getPool demoDriver demoRuntime demoCfg demoWorld))
     = (Ok (None, Some 1), snd (getPool demoDriver demoRuntime demoCfg demoWorld)).
Proof.
  assert (H : getPool demoDriver demoRuntime demoCfg demoWorld
              = (Ok (None, Some 1),
                 snd (getPool demoDriver demoRuntime demoCfg demoWorld)))
    by reflexivity.
  split; [exact H|].
  apply (proj1 (pool_reused nat demoDriver demoRuntime demoCfg _ _ _
                  eq_refl H));
    reflexivity.
Defined.

Lemma curtains_ends_every_pool_witness :
  all_pools [("mydb", Some 1); ("other", Some 2)] /\
  exists r w' evs,
    curtains demoDriver CbFunction
      {| w_stages := []; w_pools := [("mydb", Some 1); ("other", Some 2)];
         w_closing := false; w_db := 0; w_trace := [] |}
    = (r, w') /\
    evs = map EvEnd (ended evs) /\
    occurrences 1 (ended evs) = 1 /\ occurrences 2 (ended evs) = 1 /\
    w_closing w' = true.
Proof.
  assert (H : all_pools [("mydb", Some 1); ("other", Some 2)])
    by (repeat constructor; discriminate).
  split; [exact H|].
  destruct (curtains_ends_every_pool nat demoDriver CbFunction
              {| w_stages := []; w_pools := [("mydb", Some 1); ("other", Some 2)];
                 w_closing := false; w_db := 0; w_trace := [] |} H)
    as (r & w' & evs & Hrun & _ & Hev & Hocc & _ & Hc & _).
  exists r, w', evs. split; [exact Hrun|]. split; [exact Hev|].
  split; [exact (Hocc 1)|]. split; [exact (Hocc 2) | exact Hc].
Defined.

Lemma pool_created_once_witness :
  lookup_pool "mydb"
    (w_pools {| w_stages := []; w_pools := [("mydb", Some 1)];
                w_closing := false; w_db := 0; w_trace := [] |}) = Some 1 /\
  lookup_pool "mydb"
    (w_pools (run demoDriver demoRuntime
                [ActStage demoCfg; ActFinale 0 CbFunction VUndef;
                 ActCurtains CbFunction]
                {| w_stages := []; w_pools := [("mydb", Some 1)];
                   w_closing := false; w_db := 0; w_trace := [] |})) = Some 1.
Proof.
  assert (H : lookup_pool "mydb"
                (w_pools {| w_stages := []; w_pools := [("mydb", Some 1)];
                            w_closing := false; w_db := 0; w_trace := [] |})
              = Some 1) by reflexivity.
  split; [exact H|].
  exact (proj1 (pool_created_once nat demoDriver demoRuntime _ "mydb" _
                  [ActStage demoCfg; ActFinale 0 CbFunction VUndef;
                   ActCurtains CbFunction] eq_refl H)).
Defined.

Lemma stage_queue_accumulates_witness :
  nth_error (w_stages demoStaged) 0
  = Some (nth 0 (w_stages demoStaged) (mkStage VUndef [] false)) /\
  exists st',
    nth_error (w_stages (run demoDriver demoRuntime
                           [ActAdd 0 OpQ (VStr "select :a, ?") VUndef VNull;
                            ActStage demoCfg;
                            ActAdd 0 OpQ (VStr "select 1") VUndef VNull;
                            ActFinale 0 CbFunction VUndef]
                           demoStaged)) 0 = Some st' /\
    List.length (st_ops st') = 3.
Proof.
  assert (H : nth_error (w_stages demoStaged) 0
              = Some (nth 0 (w_stages demoStaged) (mkStage VUndef [] false)))
    by reflexivity.
  split; [exact H|].
  destruct (stage_queue_accumulates nat demoDriver demoRuntime
              [ActAdd 0 OpQ (VStr "select :a, ?") VUndef VNull;
               ActStage demoCfg;
               ActAdd 0 OpQ (VStr "select 1") VUndef VNull;
               ActFinale 0 CbFunction VUndef]
              demoStaged 0 _ H) as (st' & Hst & _ & Hops).
  exists st'. split; [exact Hst|]. rewrite Hops. reflexivity.
Defined.
